(** * FSPT: host side of a WebGL path tracer

    A shallow embedding of [src/bvh.js] (bounding boxes, SAH split
    selection, the recursive builder, the serializer) and of the parts of
    [src/main.js] that pack the tree and the light buffer, cast the
    autofocus ray, resolve materials, handle the input events and drive
    the progressive render loop.

    JavaScript numbers are IEEE-754 binary64 values: coordinates, areas
    and costs are primitive floats.  Array positions, ordinals and the
    sample counter are integers small enough to be exact in binary64 and
    are kept as [nat] or [Z]. *)

From Stdlib Require Import ZArith Floats Lia Sorted.
From stdpp Require Import base option list gmap strings.

Local Open Scope Z_scope.

(** ** Part I. Definitions *)

(** *** The render loop ([clear], [tick] in main.js) *)

(** What a colour target holds.  [Zero] is a target right after
    [gl.clear]; the tracer pass of tick [i] accumulates onto what it read
    from the other ping-pong texture. *)
Inductive image :=
  | Zero
  | Rays
  | Accum (i : Z) (prior : image)
  | Shown (src : image).

(** The framebuffer a draw or clear call lands in.  [Canvas] is the default
    framebuffer, bound by [gl.bindFramebuffer(target, null)]. *)
Inductive target :=
  | ScreenFb (n : nat)
  | CameraFb
  | Canvas.

Record glstate := GL {
  bound : target;
  screen : list image;      (* textures.screen[0], textures.screen[1] *)
  camera : image;           (* textures.camera.pos / .dir *)
  canvas : image
}.

(** [framebuffers.screen[k]]: the array holds two objects; any other index
    reads [undefined]. *)
Definition framebuffers_screen (k : Z) : option target :=
  if decide (k = 0) then Some (ScreenFb 0)
  else if decide (k = 1) then Some (ScreenFb 1)
  else None.

(** [gl.bindFramebuffer(gl.FRAMEBUFFER, fb)]: a nullish argument binds the
    default framebuffer. *)
Definition bindFramebuffer (fb : option target) (g : glstate) : glstate :=
  GL (default Canvas fb) (screen g) (camera g) (canvas g).

(** Store [img] in the bound target. *)
Definition writeBound (img : image) (g : glstate) : glstate :=
  match bound g with
  | ScreenFb n => GL (bound g) (<[n := img]> (screen g)) (camera g) (canvas g)
  | CameraFb => GL (bound g) (screen g) img (canvas g)
  | Canvas => GL (bound g) (screen g) (camera g) img
  end.

(** [gl.clear(gl.COLOR_BUFFER_BIT)]. *)
Definition gl_clear (g : glstate) : glstate := writeBound Zero g.

(** [textures.screen[k]] as a sampler input; an unbound sampler reads as
    zero. *)
Definition textures_screen (k : Z) (g : glstate) : image :=
  default Zero (screen g !! Z.to_nat k).

Inductive call :=
  | DrawCamera
  | DrawTracer (i : Z)
  | DrawQuad (i : Z)
  | Clear
  | UploadOutput
  | RequestAnimationFrame.

Record state := State {
  pingpong : Z;
  dirty : bool;
  moving : bool;
  active : bool;
  resScale : float;
  sampleInput : option Z;   (* parseInt(sampleInputElement.value); None is NaN *)
  sampleOutput : Z;         (* sampleOutputElement.value *)
  gl : glstate;
  calls : list call         (* passes executed so far, oldest first *)
}.

Definition with_gl (f : glstate -> glstate) (c : call) (s : state) : state :=
  State (pingpong s) (dirty s) (moving s) (active s) (resScale s)
        (sampleInput s) (sampleOutput s) (f (gl s)) (calls s ++ [c]).

Definition drawCamera (s : state) : state :=
  with_gl (fun g => writeBound Rays (bindFramebuffer (Some CameraFb) g)) DrawCamera s.

(** Reads [textures.screen[(i + 1) % 2]], draws into
    [framebuffers.screen[i % 2]]. *)
Definition drawTracer (i : Z) (s : state) : state :=
  with_gl (fun g =>
    let prior := textures_screen (Z.rem (i + 1) 2) g in
    writeBound (Accum i prior) (bindFramebuffer (framebuffers_screen (Z.rem i 2)) g))
    (DrawTracer i) s.

Definition drawQuad (i : Z) (s : state) : state :=
  with_gl (fun g =>
    let src := textures_screen (Z.rem i 2) g in
    writeBound (Shown src) (bindFramebuffer None g))
    (DrawQuad i) s.

(** [clear()].  The second bind indexes the framebuffer array with
    [pingpong + 1 % 2]; [%] binds tighter than [+]. *)
Definition clear (s : state) : state :=
  let g :=
    if moving s then gl s
    else
      let g := bindFramebuffer (framebuffers_screen 0) (gl s) in
      let g := gl_clear g in
      let g := bindFramebuffer (framebuffers_screen (pingpong s + Z.rem 1 2)) g in
      gl_clear g in
  State 0 false (moving s) (active s) (resScale s)
        (sampleInput s) (sampleOutput s) g (calls s ++ [Clear]).

(** Truthiness of the parsed budget: [NaN] and [0] are falsy. *)
Definition truthy_num (m : option Z) : bool :=
  match m with
  | Some z => negb (z =? 0)
  | None => false
  end.

(** [a <= m] and [a >= m] against a possibly-NaN number. *)
Definition le_num (a : Z) (m : option Z) : bool :=
  match m with Some z => a <=? z | None => false end.
Definition ge_num (a : Z) (m : option Z) : bool :=
  match m with Some z => z <=? a | None => false end.

Definition set_resScale (r : float) (s : state) : state :=
  State (pingpong s) (dirty s) (moving s) (active s) r
        (sampleInput s) (sampleOutput s) (gl s) (calls s).

Definition sample_step (s : state) : state :=
  let s := drawCamera s in
  let s := drawTracer (pingpong s) s in
  State (pingpong s + 1) (dirty s) (moving s) (active s) (resScale s)
        (sampleInput s) (pingpong s) (gl s) (calls s).

Definition log_call (c : call) (s : state) : state :=
  State (pingpong s) (dirty s) (moving s) (active s) (resScale s)
        (sampleInput s) (sampleOutput s) (gl s) (calls s ++ [c]).

(** One [tick()].  The boolean tells whether the tick re-armed itself with
    [requestAnimationFrame]; [false] means it uploaded and returned. *)
Definition tick (frameNumber : Z) (s : state) : state * bool :=
  let max := sampleInput s in
  let s := set_resScale (if moving s then 0.25%float else 1%float) s in
  let s := if truthy_num max && le_num (pingpong s) max && active s
           then sample_step s else s in
  let s := drawQuad (pingpong s) s in
  let s := if dirty s then clear s else s in
  if ge_num (pingpong s) max && (0 <=? frameNumber)
  then (log_call UploadOutput s, false)
  else (log_call RequestAnimationFrame s, true).

(** The loop: at most [frames] animation frames, no input events between
    them.  The boolean is [true] once the upload has fired. *)
Fixpoint run (frames : nat) (frameNumber : Z) (s : state) : state * bool :=
  match frames with
  | O => (s, false)
  | S n =>
      let '(s', again) := tick frameNumber s in
      if again then run n frameNumber s' else (s', true)
  end.

(** State at the first [tick()] of [start]: both accumulators freshly
    created, [pingpong = 0]. *)
Definition fresh_gl : glstate := GL Canvas [Zero; Zero] Zero Zero.
Definition start_state (max : option Z) (d : bool) : state :=
  State 0 d false true 1%float max 0 fresh_gl [].

(** The input handlers that invalidate the accumulation without moving
    the camera (mouse wheel, env-theta slider, focal depth, aperture): they
    set [dirty]. *)
Definition invalidate (s : state) : state :=
  State (pingpong s) true (moving s) (active s) (resScale s)
        (sampleInput s) (sampleOutput s) (gl s) (calls s).

(** *** JavaScript values and exceptions *)

(** The two ways the modelled code can fail: a property read on
    [undefined], and exhaustion of the call stack. *)
Inductive error := TypeError | RangeError.

Inductive result (A : Type) :=
  | Ok (a : A)
  | Throw (e : error).
Arguments Ok {A} a.
Arguments Throw {A} e.

#[global] Instance result_ret : MRet result := fun _ a => Ok a.
#[global] Instance result_bind : MBind result := fun _ _ k r =>
  match r with
  | Ok a => k a
  | Throw e => Throw e
  end.

(** A property read on a possibly missing object. *)
Definition defined {A} (o : option A) : result A :=
  match o with
  | Some a => Ok a
  | None => Throw TypeError
  end.

Fixpoint mapM {A B} (f : A -> result B) (l : list A) : result (list B) :=
  match l with
  | [] => Ok []
  | a :: l' => b ← f a; bs ← mapM f l'; Ok (b :: bs)
  end.

(** An array of triangle references.  [None] is a hole (or a stored
    [undefined]): both read back as [undefined]. *)
Abbreviation jsarray := (list (option nat)).

(** [a[i] = v]: in range the slot is replaced; past the end the array is
    extended, with holes in between. *)
Definition js_store (a : jsarray) (i : nat) (v : option nat) : jsarray :=
  if (i <? length a)%nat then <[i := v]> a
  else a ++ replicate (i - length a) None ++ [v].

(** [Math.min] and [Math.max] on two numbers: NaN is contagious and
    [-0] is below [+0]. *)
Definition is_negzero (x : float) : bool :=
  match PrimFloat.classify x with
  | NZero => true
  | _ => false
  end.

Definition Math_min (x y : float) : float :=
  if PrimFloat.is_nan x || PrimFloat.is_nan y then nan
  else if (x <? y)%float then x
  else if (y <? x)%float then y
  else if is_negzero x then x else y.

Definition Math_max (x y : float) : float :=
  if PrimFloat.is_nan x || PrimFloat.is_nan y then nan
  else if (x <? y)%float then y
  else if (y <? x)%float then x
  else if is_negzero x then y else x.

(** An array length or a loop counter as a number. *)
Definition of_nat (n : nat) : float :=
  PrimFloat.of_uint63 (Uint63.of_Z (Z.of_nat n)).

(** *** Vectors *)

Definition vec3 := (float * float * float)%type.

(** The axis numbers 0, 1 and 2. *)
Inductive axis := Ax0 | Ax1 | Ax2.

#[global] Instance axis_eq_dec : EqDecision axis.
Proof. solve_decision. Defined.

Definition comp (a : axis) (v : vec3) : float :=
  let '(x, y, z) := v in
  match a with Ax0 => x | Ax1 => y | Ax2 => z end.

Module Vec3.
(** Modelled from the spec: [vector.js] is not part of the sources.  The
    specification lists the operations as pure 3-vector primitives: dot,
    cross, add, sub, scale, componentwise min / max / inverse. *)
Definition map2 (f : float -> float -> float) (a b : vec3) : vec3 :=
  let '(a0, a1, a2) := a in
  let '(b0, b1, b2) := b in
  (f a0 b0, f a1 b1, f a2 b2).
Definition min : vec3 -> vec3 -> vec3 := map2 Math_min.
Definition max : vec3 -> vec3 -> vec3 := map2 Math_max.
Definition add : vec3 -> vec3 -> vec3 := map2 PrimFloat.add.
Definition sub : vec3 -> vec3 -> vec3 := map2 PrimFloat.sub.
Definition scale (a : vec3) (s : float) : vec3 :=
  let '(a0, a1, a2) := a in (a0 * s, a1 * s, a2 * s)%float.
Definition dot (a b : vec3) : float :=
  let '(a0, a1, a2) := a in
  let '(b0, b1, b2) := b in
  (a0 * b0 + a1 * b1 + a2 * b2)%float.
Definition cross (a b : vec3) : vec3 :=
  let '(a0, a1, a2) := a in
  let '(b0, b1, b2) := b in
  (a1 * b2 - a2 * b1, a2 * b0 - a0 * b2, a0 * b1 - a1 * b0)%float.
Definition inverse (a : vec3) : vec3 :=
  let '(a0, a1, a2) := a in (1 / a0, 1 / a1, 1 / a2)%float.
End Vec3.

(** *** bvh.js: BoundingBox *)

Record BoundingBox := Box {
  box_min : vec3;
  box_max : vec3
}.

(** [new BoundingBox()]; the centroid cache is recomputed on demand and
    carries no state of its own. *)
Definition emptyBox : BoundingBox :=
  Box (infinity, infinity, infinity)
      (neg_infinity, neg_infinity, neg_infinity).

Definition addVertex (b : BoundingBox) (vert : vec3) : BoundingBox :=
  Box (Vec3.min vert (box_min b)) (Vec3.max vert (box_max b)).

Definition addBoundingBox (b box : BoundingBox) : BoundingBox :=
  Box (Vec3.min (box_min b) (box_min box)) (Vec3.max (box_max b) (box_max box)).

Definition centroid (b : BoundingBox) : vec3 :=
  Vec3.scale (Vec3.add (box_min b) (box_max b)) 0.5%float.

Definition getSurfaceArea (b : BoundingBox) : float :=
  let xl := (comp Ax0 (box_max b) - comp Ax0 (box_min b))%float in
  let yl := (comp Ax1 (box_max b) - comp Ax1 (box_min b))%float in
  let zl := (comp Ax2 (box_max b) - comp Ax2 (box_min b))%float in
  ((xl * yl + xl * zl + yl * zl) * 2)%float.

(** *** bvh.js: Triangle *)

(** The three positions and the box the constructor computed from them;
    the box is a field of its own and is not refreshed when [verts] is
    reassigned later. *)
Record Triangle := Tri {
  verts : vec3 * vec3 * vec3;
  boundingBox : BoundingBox
}.

Definition addTriangle (b : BoundingBox) (verts : vec3 * vec3 * vec3) : BoundingBox :=
  let '(v0, v1, v2) := verts in
  addVertex (addVertex (addVertex b v0) v1) v2.

Definition newTriangle (v0 v1 v2 : vec3) : Triangle :=
  Tri (v0, v1, v2) (addTriangle emptyBox (v0, v1, v2)).

(** [triangles[idx]]. *)
Definition tri_at (triangles : list Triangle) (idx : option nat) : option Triangle :=
  i ← idx; triangles !! i.

(** *** bvh.js: Node, split selection *)

(** The three index lists of a node, one per axis. *)
Abbreviation indices3 := (jsarray * jsarray * jsarray)%type.

Definition axis_get (a : axis) (ix : indices3) : jsarray :=
  let '(x, y, z) := ix in
  match a with Ax0 => x | Ax1 => y | Ax2 => z end.

Definition axis_set (a : axis) (l : jsarray) (ix : indices3) : indices3 :=
  let '(x, y, z) := ix in
  match a with Ax0 => (l, y, z) | Ax1 => (x, l, z) | Ax2 => (x, y, l) end.

(** [BoundingBox.addNode]: every triangle referenced by [indices[0]]. *)
Definition addNode (b : BoundingBox) (triangles : list Triangle) (ix : indices3)
  : result BoundingBox :=
  tris ← mapM (fun i => defined (tri_at triangles i)) (axis_get Ax0 ix);
  Ok (foldl (fun b t => addTriangle b (verts t)) b tris).

(** The running surface areas of [setSplit]'s first loop: element [i] is
    the area of the union of the first [i + 1] boxes. *)
Fixpoint sweep (bb : BoundingBox) (boxes : list BoundingBox) : list float :=
  match boxes with
  | [] => []
  | b :: bs =>
      let bb' := addBoundingBox bb b in
      getSurfaceArea bb' :: sweep bb' bs
  end.

(** A read of a number array; out of range yields [undefined], which
    arithmetic turns into NaN. *)
Definition num_at (l : list float) (i : nat) : float := nth i l nan.

(** The cost expression of the second loop, at loop counter [i]. *)
Definition cost (parentSurfaceArea sAf sAb : float) (len i : nat) : float :=
  (1 + (sAf / parentSurfaceArea) * 1 * of_nat (i + 1)
     + (sAb / parentSurfaceArea) * 1 * of_nat (len - 1 - i))%float.

(** [bestCost] together with [splitAxis] and [splitIndex]; the latter two
    are assigned together and stay [undefined] until the first
    improvement. *)
Definition best := (float * option (axis * nat))%type.

Definition costLoop (parentSurfaceArea : float) (a : axis)
    (surfacesFront surfacesBack : list float) (len : nat) (st : best) : best :=
  foldl (fun (st : best) i =>
           let sAf := num_at surfacesFront i in
           let sAb := num_at surfacesBack (length surfacesBack - 1 - i) in
           let c := cost parentSurfaceArea sAf sAb len i in
           if (c <? st.1)%float then (c, Some (a, S i)) else st)
        st (seq 0 len).

Definition splitAxisLoop (triangles : list Triangle) (ix : indices3)
    (parentSurfaceArea : float) (st : best) (a : axis) : result best :=
  let idxCache := axis_get a ix in
  tris ← mapM (fun i => defined (tri_at triangles i)) idxCache;
  let boxes := map boundingBox tris in
  let surfacesFront := sweep emptyBox boxes in
  let surfacesBack := sweep emptyBox (rev boxes) in
  Ok (costLoop parentSurfaceArea a surfacesFront surfacesBack (length idxCache) st).

Definition setSplit (triangles : list Triangle) (ix : indices3) (box : BoundingBox)
  : result (option (axis * nat)) :=
  let parentSurfaceArea := getSurfaceArea box in
  st ← splitAxisLoop triangles ix parentSurfaceArea (infinity, None) Ax0;
  st ← splitAxisLoop triangles ix parentSurfaceArea st Ax1;
  st ← splitAxisLoop triangles ix parentSurfaceArea st Ax2;
  Ok st.2.

(** A finished node.  A leaf keeps its index lists; an inner node has had
    them dropped by [clearTempBuffers] and owns its two children. *)
Inductive Node :=
  | Leaf (box : BoundingBox) (indices : indices3) (split : option (axis * nat))
  | Inner (box : BoundingBox) (splitAxis : axis) (splitIndex : nat)
          (left right : Node).

Definition node_box (n : Node) : BoundingBox :=
  match n with
  | Leaf b _ _ => b
  | Inner b _ _ _ _ => b
  end.

Definition node_leaf (n : Node) : bool :=
  match n with
  | Leaf _ _ _ => true
  | Inner _ _ _ _ _ => false
  end.

(** [new Node(triangles, indices)]: the box, then the split. *)
Definition newNode (triangles : list Triangle) (ix : indices3)
  : result (BoundingBox * option (axis * nat)) :=
  box ← addNode emptyBox triangles ix;
  split ← setSplit triangles ix box;
  Ok (box, split).

(** *** bvh.js: BVH *)

(** The inner scan of [_constructCachedIndexList] over one remaining axis:
    both targets are preallocated and written at [li++] / [ri++]. *)
Fixpoint scanAxis (setLeft : gset (option nat)) (src : jsarray)
    (L R : jsarray) (li ri : nat) : jsarray * jsarray :=
  match src with
  | [] => (L, R)
  | idx :: rest =>
      if decide (idx ∈ setLeft)
      then scanAxis setLeft rest (js_store L li idx) R (S li) ri
      else scanAxis setLeft rest L (js_store R ri idx) li (S ri)
  end.

(** [Array(n)]: [n] holes. *)
Definition Array_ (n : nat) : jsarray := replicate n None.

Definition _constructCachedIndexList (ix : indices3) (split : option (axis * nat))
  : result (indices3 * indices3) :=
  '(splitAxis, splitIndex) ← defined split;
  let leftSplit := take splitIndex (axis_get splitAxis ix) in
  let rightSplit := drop splitIndex (axis_get splitAxis ix) in
  let leftIndices := axis_set splitAxis leftSplit ([], [], []) in
  let rightIndices := axis_set splitAxis rightSplit ([], [], []) in
  let setLeft : gset (option nat) := list_to_set leftSplit in
  let remainingAxes := filter (fun e => e ≠ splitAxis) [Ax0; Ax1; Ax2] in
  Ok (foldl (fun (lr : indices3 * indices3) a =>
               let '(l, r) :=
                 scanAxis setLeft (axis_get a ix)
                          (Array_ (length leftSplit)) (Array_ (length rightSplit)) 0 0 in
               (axis_set a l lr.1, axis_set a r lr.2))
            (leftIndices, rightIndices) remainingAxes).

(** [buildTree].  [stack] bounds the nesting of calls; running out of it
    is the engine's [RangeError].  The [depth] counter kept on the side is
    not modelled. *)
Fixpoint buildTree (stack : nat) (triangles : list Triangle) (maxTriangles : nat)
    (ix : indices3) : result Node :=
  match stack with
  | O => Throw RangeError
  | S stack' =>
      '(box, split) ← newNode triangles ix;
      let a := match split with Some (a, _) => a | None => Ax0 end in
      if (length (axis_get a ix) <=? maxTriangles)%nat
      then Ok (Leaf box ix split)
      else
        '(l, r) ← _constructCachedIndexList ix split;
        left ← buildTree stack' triangles maxTriangles l;
        right ← buildTree stack' triangles maxTriangles r;
        match split with
        | Some (splitAxis, splitIndex) => Ok (Inner box splitAxis splitIndex left right)
        | None => Throw TypeError
        end
  end.

(** The comparator of [_sortIndices]. *)
Definition compareCentroid (triangles : list Triangle) (a : axis) (i1 i2 : nat) : Z :=
  match triangles !! i1, triangles !! i2 with
  | Some t1, Some t2 =>
      let c1 := comp a (centroid (boundingBox t1)) in
      let c2 := comp a (centroid (boundingBox t2)) in
      if (c1 <? c2)%float then -1
      else if (c2 <? c1)%float then 1
      else 0
  | _, _ => 0
  end.

(** [Array.prototype.sort] is stable; it is modelled by a stable insertion
    sort driven by the comparator.  [foldr] inserts the later elements
    first, so an element goes in front of the ones it ties with. *)
Fixpoint sort_insert (cmp : nat -> nat -> Z) (x : nat) (l : list nat) : list nat :=
  match l with
  | [] => [x]
  | y :: l' => if cmp x y <=? 0 then x :: y :: l' else y :: sort_insert cmp x l'
  end.

Definition _sortIndices (triangles : list Triangle) (indices : list nat) (a : axis)
  : list nat :=
  foldr (sort_insert (compareCentroid triangles a)) [] indices.

(** [new BVH(triangles, maxTris)]: the root of the tree. *)
Definition newBVH (stack : nat) (triangles : list Triangle) (maxTris : nat)
  : result Node :=
  let xIndices := seq 0 (length triangles) in
  let yIndices := xIndices in
  let zIndices := yIndices in
  buildTree stack triangles maxTris
    (Some <$> _sortIndices triangles xIndices Ax0,
     Some <$> _sortIndices triangles yIndices Ax1,
     Some <$> _sortIndices triangles zIndices Ax2).

(** [initBVH], the [scene.normalize] step that runs before the tree is
    built: every vertex is recentred and rescaled.  [bounds] is the scene
    box reported by the mesh loader.  Only [verts] is reassigned; the box
    the constructor stored in each triangle stays as it was. *)
Definition normalizeScene (normalize : float) (bounds : BoundingBox)
    (geometry : list Triangle) : list Triangle :=
  let diff := Vec3.sub (box_max bounds) (box_min bounds) in
  let longest := Math_max (Math_max (comp Ax0 diff) (comp Ax1 diff)) (comp Ax2 diff) in
  let centroid := centroid bounds in
  let scale := (2 * normalize / longest)%float in
  map (fun t =>
         let '(v0, v1, v2) := verts t in
         Tri (Vec3.scale (Vec3.sub v0 centroid) scale,
              Vec3.scale (Vec3.sub v1 centroid) scale,
              Vec3.scale (Vec3.sub v2 centroid) scale)
             (boundingBox t))
      geometry.

(** [Node.getTriangles] of a leaf. *)
Definition getTriangles (triangles : list Triangle) (ix : indices3)
  : list (option Triangle) :=
  map (tri_at triangles) (axis_get Ax0 ix).

(** [serializeTree]: one entry per node; [left] and [right] are assigned
    after the entry has been pushed, and stay [undefined] on a leaf. *)
Record entry := Entry {
  e_node : Node;
  e_left : option Z;
  e_right : option Z
}.

Definition set_left (v : Z) (e : entry) : entry := Entry (e_node e) (Some v) (e_right e).
Definition set_right (v : Z) (e : entry) : entry := Entry (e_node e) (e_left e) (Some v).

(** [traverseTree] threads the shared [nodes] array and the counter [i];
    the entry object it mutates after the recursive calls is the one
    sitting where it was pushed. *)
Fixpoint traverseTree (root : Node) (st : list entry * Z) : Z * (list entry * Z) :=
  let '(nodes, i) := st in
  let parent := i + 1 in
  let slot := length nodes in
  let nodes := nodes ++ [Entry root None None] in
  match root with
  | Leaf _ _ _ => (parent, (nodes, parent))
  | Inner _ _ _ l r =>
      let '(lo, (nodes, i)) := traverseTree l (nodes, parent) in
      let nodes := alter (set_left lo) slot nodes in
      let '(ro, (nodes, i)) := traverseTree r (nodes, i) in
      let nodes := alter (set_right ro) slot nodes in
      (parent, (nodes, i))
  end.

Definition serializeTree (root : Node) : list entry :=
  (traverseTree root ([], -1)).2.1.

(** *** main.js: packing the tree ([initBVH], [padBuffer], [maskBVHBuffer]) *)

(** A JavaScript value as found in a packed buffer or a material slot:
    [undefined], an integer-valued number, or any other number. *)
Inductive jsval :=
  | Undefined
  | Int (z : Z)
  | Num (x : float).

Definition ordinal (o : option Z) : jsval :=
  match o with
  | Some z => Int z
  | None => Undefined
  end.

Definition spread (v : vec3) : list float :=
  let '(x, y, z) := v in [x; y; z].

(** The vertices one leaf appends to [trianglesBuffer]. *)
Definition pushTriangles (triangles : list Triangle) (ix : indices3)
    (trianglesBuffer : list float) : result (list float) :=
  tris ← mapM defined (getTriangles triangles ix);
  Ok (foldl (fun buf t =>
               let '(v0, v1, v2) := verts t in
               buf ++ spread v0 ++ spread v1 ++ spread v2)
            trianglesBuffer tris).

(** One round of the packing loop.  [trianglesBuffer.length / 3 / 3] is an
    exact division: every triangle contributes nine numbers.  The
    material, normal and uv buffers filled by the same loop are left
    out. *)
Definition packEntry (triangles : list Triangle)
    (st : list jsval * list float) (e : entry) : result (list jsval * list float) :=
  let '(bvhBuffer, trianglesBuffer) := st in
  let node := e_node e in
  let triIndex :=
    if node_leaf node then Z.of_nat (length trianglesBuffer) / 3 / 3 else -1 in
  let bufferNode :=
    [ordinal (e_left e); ordinal (e_right e); Int triIndex]
      ++ (Num <$> spread (box_min (node_box node)))
      ++ (Num <$> spread (box_max (node_box node))) in
  trianglesBuffer ←
    match node with
    | Leaf _ ix _ => pushTriangles triangles ix trianglesBuffer
    | Inner _ _ _ _ _ => Ok trianglesBuffer
    end;
  Ok (bvhBuffer ++ bufferNode, trianglesBuffer).

Fixpoint packLoop (triangles : list Triangle) (bvhArray : list entry)
    (st : list jsval * list float) : result (list jsval * list float) :=
  match bvhArray with
  | [] => Ok st
  | e :: rest => st ← packEntry triangles st e; packLoop triangles rest st
  end.

Definition packBVH (triangles : list Triangle) (root : Node)
  : result (list jsval * list float) :=
  packLoop triangles (serializeTree root) ([], []).

(** [padBuffer]: the texture is [width] x [height] pixels of [channels]
    numbers, [width] a multiple of [perElement]; the tail is filled with
    [-1].  The buffers it is applied to have a length divisible by
    [channels], so pixel counts are integers; [ceil (sqrt n / p)] is
    computed on integers. *)
Definition ceil_sqrt (n : nat) : nat :=
  let r := Nat.sqrt n in if (r * r =? n)%nat then r else S r.

Definition ceil_div (a b : nat) : nat := ((a + b - 1) / b)%nat.

Definition padBuffer (buffer : list jsval) (perElement channels : nat) : list jsval :=
  let num_pixels := (length buffer / channels)%nat in
  let width := (ceil_div (ceil_sqrt num_pixels) perElement * perElement)%nat in
  let height := ceil_div num_pixels width in
  let numToPad := (channels * width * height - length buffer)%nat in
  buffer ++ replicate numToPad (Int (-1)).

(** A 32-bit cell of the uploaded texture: either the bits of an [Int32]
    read back through the float view, or a number stored by conversion to
    a 32-bit float. *)
Inductive cell32 :=
  | IntBits (z : Z)
  | Float32 (v : jsval).

(** [ToInt32]: [undefined], NaN and the infinities give 0; other numbers
    are truncated and wrapped. *)
Definition truncate (x : float) : Z :=
  match Prim2SF x with
  | S754_finite s m e =>
      let v := if 0 <=? e then Z.pos m * 2 ^ e else Z.pos m / 2 ^ (- e) in
      if s then - v else v
  | _ => 0
  end.

Definition wrap32 (z : Z) : Z := (z + 2 ^ 31) mod 2 ^ 32 - 2 ^ 31.

Definition ToInt32 (v : jsval) : Z :=
  match v with
  | Undefined => 0
  | Int z => wrap32 z
  | Num x => wrap32 (truncate x)
  end.

(** [maskBVHBuffer]: all cells go through [Int32Array]; cells 3..8 of each
    group of nine are then overwritten with the number itself.  A typed
    array ignores writes past its end. *)
Definition maskRecord (bvhBuffer : list jsval) (masked : list cell32) (i : nat)
  : list cell32 :=
  foldl (fun m j => <[(i + j)%nat := Float32 (default Undefined (bvhBuffer !! (i + j)%nat))]> m)
        masked (seq 3 6).

Definition maskBVHBuffer (bvhBuffer : list jsval) : list cell32 :=
  let masked := (fun v => IntBits (ToInt32 v)) <$> bvhBuffer in
  foldl (maskRecord bvhBuffer) masked
        ((fun n => (9 * n)%nat) <$> seq 0 (ceil_div (length bvhBuffer) 9)).

(** *** main.js: material resolution ([getMaterial]) *)

Definition truthy (v : jsval) : bool :=
  match v with
  | Undefined => false
  | Int z => negb (z =? 0)
  | Num x => negb (PrimFloat.eqb x 0 || PrimFloat.is_nan x)
  end.

(** [a || b]. *)
Definition js_or (a b : jsval) : jsval := if truthy a then a else b.

(** The two scalar slots of a material.  The same two properties are read
    from [group.material] and from the prop's [transforms]; an absent
    property reads [undefined]. *)
Record Material := Mat {
  ior : jsval;
  dielectric : jsval
}.

(** [getMaterial], its last assignments: [ior] and [dielectric].  The four
    texture indices go through the external texture packer and are left
    out; 1.4 is the binary64 number nearest to it. *)
Definition getMaterial (transforms group_material : Material) : Material :=
  Mat (js_or (js_or (ior group_material) (ior transforms)) (Num 0x1.6666666666666p+0))
      (js_or (js_or (dielectric group_material) (dielectric transforms)) (Int (-1))).

(** *** main.js: the autofocus ray ([shootAutoFocusRay]) *)

Definition maxT : float := 1000000%float.

(** [0.000000000001], as the nearest binary64 number. *)
Definition epsilon : float := 0x1.19799812dea11p-40%float.

Section AutoFocus.
(** The camera at the time of the call. *)
Variables eye dir : vec3.

Definition rayTriangleIntersect (tri : Triangle) : float :=
  let '(v0, v1, v2) := verts tri in
  let e1 := Vec3.sub v1 v0 in
  let e2 := Vec3.sub v2 v0 in
  let p := Vec3.cross dir e2 in
  let det := Vec3.dot e1 p in
  if ((- epsilon <? det) && (det <? epsilon))%float then maxT
  else
    let invDet := (1 / det)%float in
    let t := Vec3.sub eye v0 in
    let u := (Vec3.dot t p * invDet)%float in
    if ((u <? 0) || (1 <? u))%float then maxT
    else
      let q := Vec3.cross t e1 in
      let v := (Vec3.dot dir q * invDet)%float in
      if ((v <? 0) || (1 <? u + v))%float then maxT
      else
        let t := (Vec3.dot e2 q * invDet)%float in
        if (epsilon <? t)%float then t else maxT.

Definition processLeaf (triangles : list Triangle) (ix : indices3) : result float :=
  tris ← mapM defined (getTriangles triangles ix);
  Ok (foldl (fun res tri =>
               let tmp := rayTriangleIntersect tri in
               if (tmp <? res)%float then tmp else res)
            maxT tris).

Definition rayBoxIntersect (bbox : BoundingBox) : float :=
  let invDir := Vec3.inverse dir in
  let t1 := fun a => ((comp a (box_min bbox) - comp a eye) * comp a invDir)%float in
  let t2 := fun a => ((comp a (box_max bbox) - comp a eye) * comp a invDir)%float in
  let tmin := Math_min (t1 Ax0) (t2 Ax0) in
  let tmax := Math_max (t1 Ax0) (t2 Ax0) in
  let tmin := Math_max tmin (Math_min (t1 Ax1) (t2 Ax1)) in
  let tmax := Math_min tmax (Math_max (t1 Ax1) (t2 Ax1)) in
  let tmin := Math_max tmin (Math_min (t1 Ax2) (t2 Ax2)) in
  let tmax := Math_min tmax (Math_max (t1 Ax2) (t2 Ax2)) in
  if ((tmin <=? tmax) && (0 <=? tmax))%float then tmin else maxT.

(** One element of the pair returned by [closestNode]: which child it
    names, whether the reference is non-null, and the slab entry. *)
Record ordered := Ord {
  o_left : bool;
  o_node : bool;
  o_t : float
}.

Definition closestNode (nLeft nRight : Node) : ordered * ordered :=
  let tLeft := rayBoxIntersect (node_box nLeft) in
  let tRight := rayBoxIntersect (node_box nRight) in
  let left := Ord true (tLeft <? maxT)%float tLeft in
  let right := Ord false (tRight <? maxT)%float tRight in
  if (tLeft <? tRight)%float then (left, right) else (right, left).

Fixpoint findTriangles (triangles : list Triangle) (root : Node) (closest : float)
  : result float :=
  match root with
  | Leaf _ ix _ => processLeaf triangles ix
  | Inner _ _ _ l r =>
      let visit := fun (o : ordered) (closest : float) =>
        if o_node o && (o_t o <? closest)%float
        then
          res ← findTriangles triangles (if o_left o then l else r) closest;
          Ok (Math_min res closest)
        else Ok closest in
      let '(o0, o1) := closestNode l r in
      closest ← visit o0 closest;
      visit o1 closest
  end.
End AutoFocus.

(** What [dist.toFixed(3)] writes into the focal-depth input. *)
Inductive fixed := toFixed (digits : nat) (x : float).

Record lens := Lens {
  lensFeatures : float * float;      (* (1 - 1 / focal depth, aperture) *)
  focalDepthElement : fixed
}.

Definition shootAutoFocusRay (eye dir : vec3) (triangles : list Triangle) (root : Node)
    (s : lens) : result lens :=
  dist ← findTriangles eye dir triangles root maxT;
  Ok (Lens ((1 - 1 / dist)%float, (lensFeatures s).2) (toFixed 3 dist)).

(** *** Reference behaviours used in statements *)

(** The passes of [k] consecutive sampling ticks starting at sample [p],
    the last of which uploads. *)
Fixpoint passes (k : nat) (p : Z) : list call :=
  match k with
  | O => []
  | S k' =>
      [DrawCamera; DrawTracer p; DrawQuad (p + 1);
       if (k' =? 0)%nat then UploadOutput else RequestAnimationFrame]
        ++ passes k' (p + 1)
  end.

Definition is_tracer (c : call) : bool :=
  match c with
  | DrawTracer _ => true
  | _ => false
  end.

(** Split selection as the specification words it: for each axis and each
    split count [k] in [1 .. N-1], the cost pairs the box of the first [k]
    triangles ([bbFront[k-1]]) with the box of the last [N-k]
    ([bbBack[N-1-k]]); the first candidate of least cost wins. *)
Definition sahCost (parentSurfaceArea : float) (front back : list float)
    (N k : nat) : float :=
  (1 + (num_at front (k - 1) / parentSurfaceArea) * of_nat k
     + (num_at back (N - 1 - k) / parentSurfaceArea) * of_nat (N - k))%float.

Definition sahCandidates (triangles : list Triangle) (ix : indices3)
    (box : BoundingBox) (a : axis) : list (axis * nat * float) :=
  let idxCache := axis_get a ix in
  match mapM (fun i => defined (tri_at triangles i)) idxCache with
  | Ok tris =>
      let boxes := map boundingBox tris in
      let front := sweep emptyBox boxes in
      let back := sweep emptyBox (rev boxes) in
      let N := length idxCache in
      map (fun k => (a, k, sahCost (getSurfaceArea box) front back N k))
          (seq 1 (N - 1))
  | Throw _ => []
  end.

Definition firstMin (l : list (axis * nat * float)) : option (axis * nat * float) :=
  foldl (fun best c =>
           match best with
           | None => Some c
           | Some b => if (c.2 <? b.2)%float then Some c else Some b
           end) None l.

Definition setSplit_spec (triangles : list Triangle) (ix : indices3)
    (box : BoundingBox) : option (axis * nat) :=
  fst <$> firstMin (sahCandidates triangles ix box Ax0
                      ++ sahCandidates triangles ix box Ax1
                      ++ sahCandidates triangles ix box Ax2).

(** The quantities of the ray/triangle test, named. *)
Definition mt_p (dir : vec3) (tri : Triangle) : vec3 :=
  let '(v0, v1, v2) := verts tri in Vec3.cross dir (Vec3.sub v2 v0).
Definition mt_det (dir : vec3) (tri : Triangle) : float :=
  let '(v0, v1, v2) := verts tri in Vec3.dot (Vec3.sub v1 v0) (mt_p dir tri).
Definition mt_q (eye : vec3) (tri : Triangle) : vec3 :=
  let '(v0, v1, v2) := verts tri in Vec3.cross (Vec3.sub eye v0) (Vec3.sub v1 v0).
Definition mt_u (eye dir : vec3) (tri : Triangle) : float :=
  let '(v0, v1, v2) := verts tri in
  (Vec3.dot (Vec3.sub eye v0) (mt_p dir tri) * (1 / mt_det dir tri))%float.
Definition mt_v (eye dir : vec3) (tri : Triangle) : float :=
  (Vec3.dot dir (mt_q eye tri) * (1 / mt_det dir tri))%float.
Definition mt_t (eye dir : vec3) (tri : Triangle) : float :=
  let '(v0, v1, v2) := verts tri in
  (Vec3.dot (Vec3.sub v2 v0) (mt_q eye tri) * (1 / mt_det dir tri))%float.

(** The ray/triangle test as the specification words it: a back-facing
    triangle ([det] below [epsilon], negative included) is rejected along
    with a parallel one. *)
Definition rayTriangleIntersect_spec (eye dir : vec3) (tri : Triangle) : float :=
  if (mt_det dir tri <? epsilon)%float then maxT
  else if ((mt_u eye dir tri <? 0) || (1 <? mt_u eye dir tri))%float then maxT
  else if ((mt_v eye dir tri <? 0) || (1 <? mt_u eye dir tri + mt_v eye dir tri))%float
       then maxT
  else if (epsilon <? mt_t eye dir tri)%float then mt_t eye dir tri else maxT.

(** Every reference of a leaf names a triangle of the scene. *)
Definition valid_refs (triangles : list Triangle) (l : jsarray) : Prop :=
  Forall (fun idx => is_Some (tri_at triangles idx)) l.

Fixpoint valid_tree (triangles : list Triangle) (n : Node) : Prop :=
  match n with
  | Leaf _ ix _ => valid_refs triangles (axis_get Ax0 ix)
  | Inner _ _ _ l r => valid_tree triangles l /\ valid_tree triangles r
  end.

(** Nodes of a tree, and the nodes in depth-first preorder. *)
Fixpoint size (n : Node) : nat :=
  match n with
  | Leaf _ _ _ => 1
  | Inner _ _ _ l r => S (size l + size r)
  end.

Fixpoint preorder (n : Node) : list Node :=
  match n with
  | Leaf _ _ _ => [n]
  | Inner _ _ _ l r => n :: preorder l ++ preorder r
  end.

(** The block of entries a subtree contributes when its root receives
    ordinal [p]. *)
Fixpoint entries (p : Z) (n : Node) : list entry :=
  match n with
  | Leaf _ _ _ => [Entry n None None]
  | Inner _ _ _ l r =>
      Entry n (Some (p + 1)) (Some (p + 1 + Z.of_nat (size l)))
        :: entries (p + 1) l ++ entries (p + 1 + Z.of_nat (size l)) r
  end.

(** Triangles a node contributes to [trianglesBuffer]: those of a leaf. *)
Definition leafCount (n : Node) : nat :=
  match n with
  | Leaf _ ix _ => length (axis_get Ax0 ix)
  | Inner _ _ _ _ _ => 0
  end.

(** Triangles emitted by a run of entries. *)
Definition emitted (es : list entry) : nat :=
  sum_list (leafCount <$> (e_node <$> es)).

(** The triangle references held by the leaves of a tree, in visit
    order. *)
Fixpoint leafRefs (n : Node) : jsarray :=
  match n with
  | Leaf _ ix _ => axis_get Ax0 ix
  | Inner _ _ _ l r => leafRefs l ++ leafRefs r
  end.

(** The index lists the builder works with: no holes, no repetition, and
    the same references on the three axes. *)
Definition wf_indices (ix : indices3) : Prop :=
  NoDup (axis_get Ax0 ix)
  /\ (None ∉ axis_get Ax0 ix)
  /\ axis_get Ax1 ix ≡ₚ axis_get Ax0 ix
  /\ axis_get Ax2 ix ≡ₚ axis_get Ax0 ix.

(** The nine cells one entry contributes to [bvhBuffer] when [c]
    triangles have been emitted before it, and the cells of a run of
    entries. *)
Definition recordOf (c : nat) (e : entry) : list jsval :=
  [ordinal (e_left e); ordinal (e_right e);
   Int (if node_leaf (e_node e) then Z.of_nat c else -1)]
    ++ (Num <$> spread (box_min (node_box (e_node e))))
    ++ (Num <$> spread (box_max (node_box (e_node e)))).

Fixpoint recordsOf (c : nat) (es : list entry) : list jsval :=
  match es with
  | [] => []
  | e :: es' => recordOf c e ++ recordsOf (c + leafCount (e_node e)) es'
  end.

(** The nine numbers of one triangle in [trianglesBuffer]. *)
Definition vertsOf (t : Triangle) : list float :=
  let '(v0, v1, v2) := verts t in spread v0 ++ spread v1 ++ spread v2.

(** The [bvhBuffer] of a tree that packs without throwing. *)
Definition bvhBufferOf (triangles : list Triangle) (root : Node) : list jsval :=
  match packBVH triangles root with
  | Ok (bvhBuffer, _) => bvhBuffer
  | Throw _ => []
  end.

(** A property of the reference list of every leaf. *)
Fixpoint all_leaves (P : jsarray -> Prop) (n : Node) : Prop :=
  match n with
  | Leaf _ ix _ => P (axis_get Ax0 ix)
  | Inner _ _ _ l r => all_leaves P l /\ all_leaves P r
  end.

(** *** bvh.js: the centroid cache of a BoundingBox *)

Module Cached.
(** The object as the class declares it: [min], [max] and the cached
    [_centroid], [None] for [null]. *)
Record BoundingBox := Box {
  min : vec3;
  max : vec3;
  _centroid : option vec3
}.

Definition new : BoundingBox :=
  Box (infinity, infinity, infinity) (neg_infinity, neg_infinity, neg_infinity) None.

Definition addVertex (b : BoundingBox) (vert : vec3) : BoundingBox :=
  Box (Vec3.min vert (min b)) (Vec3.max vert (max b)) None.

Definition addTriangle (b : BoundingBox) (verts : vec3 * vec3 * vec3) : BoundingBox :=
  let '(v0, v1, v2) := verts in
  let b := addVertex (addVertex (addVertex b v0) v1) v2 in
  Box (min b) (max b) None.

Definition addBoundingBox (b : BoundingBox) (box : BoundingBox) : BoundingBox :=
  Box (Vec3.min (min b) (min box)) (Vec3.max (max b) (max box)) None.

(** The getter: fills the cache when it is empty (an array is truthy) and
    returns the cached vector together with the updated object. *)
Definition centroid (b : BoundingBox) : vec3 * BoundingBox :=
  match _centroid b with
  | Some c => (c, b)
  | None =>
      let c := Vec3.scale (Vec3.add (min b) (max b)) 0.5%float in
      (c, Box (min b) (max b) (Some c))
  end.

(** A method call on a box. *)
Inductive method :=
  | AddVertex (vert : vec3)
  | AddTriangle (verts : vec3 * vec3 * vec3)
  | AddBoundingBox (box : BoundingBox)
  | GetCentroid.

Definition invoke (b : BoundingBox) (m : method) : BoundingBox :=
  match m with
  | AddVertex v => addVertex b v
  | AddTriangle t => addTriangle b t
  | AddBoundingBox box => addBoundingBox b box
  | GetCentroid => (centroid b).2
  end.
End Cached.

(** The box without its cache, and the same call on it. *)
Definition forget (b : Cached.BoundingBox) : BoundingBox :=
  Box (Cached.min b) (Cached.max b).

Definition invoke_plain (b : BoundingBox) (m : Cached.method) : BoundingBox :=
  match m with
  | Cached.AddVertex v => addVertex b v
  | Cached.AddTriangle t => addTriangle b t
  | Cached.AddBoundingBox box => addBoundingBox b (forget box)
  | Cached.GetCentroid => b
  end.

(** *** Reference predicates on boxes *)

(** No coordinate is NaN. *)
Definition is_number (v : vec3) : bool :=
  let '(x, y, z) := v in
  negb (PrimFloat.is_nan x) && negb (PrimFloat.is_nan y) && negb (PrimFloat.is_nan z).

Definition between (a : axis) (v : vec3) (b : BoundingBox) : bool :=
  ((comp a (box_min b) <=? comp a v) && (comp a v <=? comp a (box_max b)))%float.

(** The point lies in the box, bounds included. *)
Definition inBox (v : vec3) (b : BoundingBox) : bool :=
  between Ax0 v b && between Ax1 v b && between Ax2 v b.

Definition triangle_in (t : Triangle) (b : BoundingBox) : bool :=
  let '(v0, v1, v2) := verts t in inBox v0 b && inBox v1 b && inBox v2 b.

Definition triangle_is_number (t : Triangle) : bool :=
  let '(v0, v1, v2) := verts t in is_number v0 && is_number v1 && is_number v2.

(** Boxes whose bounds are numbers. *)
Definition number_box (b : BoundingBox) : Prop :=
  is_number (box_min b) = true /\ is_number (box_max b) = true.

(** *** Reference notions for the builder *)

(** The sort key of [_sortIndices]: the centroid coordinate of triangle
    [i] on the axis, NaN when there is no such triangle. *)
Definition centroid_at (triangles : list Triangle) (a : axis) (i : nat) : float :=
  match triangles !! i with
  | Some t => comp a (centroid (boundingBox t))
  | None => nan
  end.

Definition centroid_le (triangles : list Triangle) (a : axis) (i j : nat) : Prop :=
  (centroid_at triangles a i <=? centroid_at triangles a j)%float = true.

(** [buildTree] together with the [this.depth] it maintains: every call
    raises the field to its own depth before doing anything else.  The
    result pairs the node with the field's final value. *)
Fixpoint buildTree_depth (stack : nat) (triangles : list Triangle) (maxTriangles : nat)
    (ix : indices3) (depth this_depth : nat) : result (Node * nat) :=
  match stack with
  | O => Throw RangeError
  | S stack' =>
      let this_depth := Nat.max depth this_depth in
      '(box, split) ← newNode triangles ix;
      let a := match split with Some (a, _) => a | None => Ax0 end in
      if (length (axis_get a ix) <=? maxTriangles)%nat
      then Ok (Leaf box ix split, this_depth)
      else
        '(l, r) ← _constructCachedIndexList ix split;
        '(rootLeft, this_depth) ←
          buildTree_depth stack' triangles maxTriangles l (depth + 1) this_depth;
        '(rootRight, this_depth) ←
          buildTree_depth stack' triangles maxTriangles r (depth + 1) this_depth;
        match split with
        | Some (splitAxis, splitIndex) =>
            Ok (Inner box splitAxis splitIndex rootLeft rootRight, this_depth)
        | None => Throw TypeError
        end
  end.

(** [new BVH(triangles, maxTris)] with its [depth] field, which starts
    at 0. *)
Definition newBVH_depth (stack : nat) (triangles : list Triangle) (maxTris : nat)
  : result (Node * nat) :=
  let xIndices := seq 0 (length triangles) in
  buildTree_depth stack triangles maxTris
    (Some <$> _sortIndices triangles xIndices Ax0,
     Some <$> _sortIndices triangles xIndices Ax1,
     Some <$> _sortIndices triangles xIndices Ax2) 0 0.

(** Edges on the longest path from a node down to a leaf. *)
Fixpoint height (n : Node) : nat :=
  match n with
  | Leaf _ _ _ => 0
  | Inner _ _ _ l r => S (Nat.max (height l) (height r))
  end.

(** The triangles a run of references names, in order. *)
Definition trianglesOf (triangles : list Triangle) (refs : jsarray) : list Triangle :=
  omap (tri_at triangles) refs.

(** The references a node itself contributes to [trianglesBuffer]. *)
Definition own_refs (n : Node) : jsarray :=
  match n with
  | Leaf _ ix _ => axis_get Ax0 ix
  | Inner _ _ _ _ _ => []
  end.

(** *** main.js: what [padBuffer] returns, and the light buffer *)

(** The [[width, height]] pair [padBuffer] returns, for the positive
    [perElement] and [channels] of its call sites.  An empty buffer has width 0, and its
    height [Math.ceil(0 / 0)] is NaN, here [None]. *)
Definition padBuffer_res (buffer : list jsval) (perElement channels : nat)
  : nat * option nat :=
  let num_pixels := (length buffer / channels)%nat in
  let width := (ceil_div (ceil_sqrt num_pixels) perElement * perElement)%nat in
  (width, if (width =? 0)%nat then None else Some (ceil_div num_pixels width)).

(** [lightBuffer.length / 9] as a number: an integer when the length is a
    multiple of nine. *)
Definition ninth (n : nat) : jsval :=
  if (n mod 9 =? 0)%nat then Int (Z.of_nat (n / 9))
  else Num (of_nat n / 9)%float.

(** [x - 1]. *)
Definition pred_num (v : jsval) : jsval :=
  match v with
  | Int z => Int (z - 1)
  | Num x => Num (x - 1)%float
  | Undefined => Num nan
  end.

(** The light loop of [initBVH]: for every group of emissive triangles,
    the first and the last triangle ordinal it occupies in [lightBuffer]
    are appended to [lightRanges]. *)
Definition lightLoop (lights : list (list Triangle)) (st : list jsval * list float)
  : list jsval * list float :=
  foldl (fun (st : list jsval * list float) group =>
           let '(lightRanges, lightBuffer) := st in
           let lightRanges := lightRanges ++ [ninth (length lightBuffer)] in
           let lightBuffer :=
             foldl (fun buf t =>
                      let '(v0, v1, v2) := verts t in
                      buf ++ spread v0 ++ spread v1 ++ spread v2)
                   lightBuffer group in
           (lightRanges ++ [pred_num (ninth (length lightBuffer))], lightBuffer))
        st lights.

(** The ranges counted in triangles: group after group, from [base]. *)
Fixpoint rangesFrom (base : nat) (lights : list (list Triangle)) : list jsval :=
  match lights with
  | [] => []
  | group :: rest =>
      Int (Z.of_nat base) :: Int (Z.of_nat base + Z.of_nat (length group) - 1)
        :: rangesFrom (base + length group) rest
  end.

(** *** Reference notions for the autofocus ray *)

(** [d] is the distance the ray/triangle test reports for one of the
    triangles the tree references, and it is below the sentinel. *)
Definition is_hit (eye dir : vec3) (triangles : list Triangle) (root : Node)
    (d : float) : Prop :=
  exists t, t ∈ trianglesOf triangles (leafRefs root)
            /\ d = rayTriangleIntersect eye dir t
            /\ (d <? maxT)%float = true.

(** *** Reference notions for the render loop *)

(** What an accumulation target holds after [n] samples taken on cleared
    targets: sample [n - 1] on top of the [n - 1] samples before it. *)
Fixpoint samples (n : nat) : image :=
  match n with
  | O => Zero
  | S k => Accum (Z.of_nat k) (samples k)
  end.

(** The accumulation is intact: the texture the next tracer pass reads
    holds the samples taken so far. *)
Definition accumulating (s : state) : Prop :=
  length (screen (gl s)) = 2%nat
  /\ textures_screen (Z.rem (pingpong s + 1) 2) (gl s)
     = samples (Z.to_nat (pingpong s)).

Definition tracer_calls (s : state) : nat :=
  length (List.filter is_tracer (calls s)).

(** *** main.js: the input handlers ([initEvents], [start]) *)

Module Events.
(** The flags the handlers share with the render loop, the handlers' own
    [mode] and [activeEvents], and the number of autofocus casts made so
    far.  [isFramed] is fixed when the page loads. *)
Record input := Input {
  isFramed : bool;
  mode : bool;
  activeEvents : gset string;
  moving : bool;
  dirty : bool;
  active : bool;
  casts : nat
}.

(** The events with a listener, with the fields the listeners read:
    [e.which] of the mouse buttons and [e.key] of the keyboard. *)
Inductive event :=
  | mousedown (which : Z)
  | mousemove
  | mouseup (which : Z)
  | mousewheel
  | input_theta
  | input_exposure
  | input_saturation
  | input_focalDepth
  | input_apertureSize
  | click_denoise
  | input_sigma
  | keypress (key : string)
  | keyup (key : string)
  | mouseover
  | mouseout.

Definition keySet : gset string := {["w"; "a"; "s"; "d"; "r"; "f"]}.

(** The state the page starts with: [dirty] is set, [active] unless the
    page sits in a frame. *)
Definition init (framed : bool) : input :=
  Input framed false ∅ false true (negb framed) 0.

(** One listener run.  The camera, lens and tone-mapping values the
    listeners also update are left out. *)
Definition handle (s : input) (e : event) : input :=
  match e with
  | mousedown which =>
      Input (isFramed s) (bool_decide (which = 1)) (activeEvents s)
            (moving s) (dirty s) (active s) (casts s)
  | mousemove =>
      if mode s
      then Input (isFramed s) (mode s) ({["mouse"]} ∪ activeEvents s)
                 true true (active s) (casts s)
      else s
  | mouseup which =>
      let activeEvents := activeEvents s ∖ {["mouse"]} in
      let moving := if bool_decide (base.size activeEvents = 0%nat) then false else moving s in
      let dirty := if bool_decide (which = 1) then true else dirty s in
      Input (isFramed s) false activeEvents moving dirty (active s) (S (casts s))
  | mousewheel | input_theta | input_focalDepth | input_apertureSize =>
      Input (isFramed s) (mode s) (activeEvents s) (moving s) true (active s) (casts s)
  | input_exposure | input_saturation | click_denoise | input_sigma => s
  | keypress key =>
      if bool_decide (key ∈ keySet)
      then Input (isFramed s) (mode s) ({[key]} ∪ activeEvents s)
                 true true (active s) (S (casts s))
      else Input (isFramed s) (mode s) (activeEvents s)
                 (moving s) (dirty s) (active s) (S (casts s))
  | keyup key =>
      if bool_decide (key ∈ keySet)
      then
        let activeEvents := activeEvents s ∖ {[key]} in
        let moving := if bool_decide (base.size activeEvents = 0%nat) then false else moving s in
        Input (isFramed s) (mode s) activeEvents moving true (active s) (casts s)
      else s
  | mouseover =>
      Input (isFramed s) (mode s) (activeEvents s) (moving s) (dirty s) true (casts s)
  | mouseout =>
      Input (isFramed s) (mode s) (activeEvents s) (moving s) (dirty s)
            (negb (isFramed s)) (casts s)
  end.
End Events.

(** The events whose listener ends with [shootAutoFocusRay()]. *)
Definition casts_autofocus (e : Events.event) : bool :=
  match e with
  | Events.mouseup _ | Events.keypress _ => true
  | _ => false
  end.

(** ** Part II. Properties *)

(** *** The render loop *)

Lemma tick_sample (frame m : Z) (s : state) :
  sampleInput s = Some m -> active s = true -> dirty s = false ->
  1 <= m -> 0 <= pingpong s <= m ->
  let again := negb (m <=? pingpong s + 1) || negb (0 <=? frame) in
  let r := tick frame s in
  r.2 = again
  /\ pingpong r.1 = pingpong s + 1
  /\ sampleInput r.1 = Some m /\ active r.1 = true /\ dirty r.1 = false
  /\ calls r.1 = calls s ++
       [DrawCamera; DrawTracer (pingpong s); DrawQuad (pingpong s + 1);
        if again then RequestAnimationFrame else UploadOutput].
Proof.
  destruct s as [p d mv a rs mx so g cs]; simpl.
  intros -> -> -> Hm1 Hp.
  unfold tick; simpl.
  assert (Hm : (m =? 0) = false) by (apply Z.eqb_neq; lia).
  assert (Hle : (p <=? m) = true) by (apply Z.leb_le; lia).
  rewrite Hm, Hle; simpl.
  destruct (m <=? p + 1) eqn:E1; destruct (0 <=? frame) eqn:E2; simpl;
    repeat split; rewrite <- ?app_assoc; reflexivity.
Qed.

Lemma run_budget (frame m : Z) (k : nat) :
  0 <= frame ->
  forall (s : state) (n : nat),
    sampleInput s = Some m -> active s = true -> dirty s = false ->
    0 <= pingpong s -> m - pingpong s = Z.of_nat (S k) -> (S k <= n)%nat ->
    let r := run n frame s in
    r.2 = true /\ pingpong r.1 = m
    /\ calls r.1 = calls s ++ passes (S k) (pingpong s).
Proof.
  intros Hf. induction k as [|k IH]; intros s n Hm Ha Hd Hp Hk Hn.
  - destruct n as [|n]; [lia|]. simpl.
    destruct (tick_sample frame m s Hm Ha Hd ltac:(lia) ltac:(lia))
      as (Hag & Hpp & _ & _ & _ & Hc).
    destruct (tick frame s) as [s' again]; simpl in *.
    assert (Hx : (m <=? pingpong s + 1) = true) by (apply Z.leb_le; lia).
    assert (Hy : (0 <=? frame) = true) by (apply Z.leb_le; lia).
    rewrite Hx, Hy in Hag, Hc; simpl in *. subst again.
    split; [reflexivity|]. split; [simpl; lia|exact Hc].
  - destruct n as [|n]; [lia|].
    destruct (tick_sample frame m s Hm Ha Hd ltac:(lia) ltac:(lia))
      as (Hag & Hpp & Hm' & Ha' & Hd' & Hc).
    change (run (S n) frame s)
      with (let '(s', again) := tick frame s in
            if again then run n frame s' else (s', true)).
    destruct (tick frame s) as [s' again]; simpl in Hag, Hpp, Hm', Ha', Hd', Hc.
    assert (Hx : (m <=? pingpong s + 1) = false) by (apply Z.leb_gt; lia).
    rewrite Hx in Hag, Hc; simpl in Hag, Hc. subst again.
    destruct (IH s' n Hm' Ha' Hd' ltac:(lia) ltac:(lia) ltac:(lia)) as (R1 & R2 & R3).
    cbv zeta. repeat split; [exact R1|exact R2|].
    rewrite R3, Hc, Hpp, <- app_assoc. reflexivity.
Qed.

(** C4 (as the code has it): with a sample budget [max >= 1], [active]
    set and no invalidation, a tick entered with [pingpong <= max] runs
    one camera pass and one tracer pass and then increments [pingpong].
    With a frame index [>= 0] the upload fires at the end of the tick that
    brings [pingpong] to exactly [max], after [max - pingpong] ticks: the
    loop never enters a tick with [pingpong = max]. *)
Theorem upload_fires_at_max (frame max : Z) (s : state) (n : nat) :
  sampleInput s = Some max -> active s = true -> dirty s = false -> 1 <= max ->
  (0 <= pingpong s <= max ->
     pingpong (tick frame s).1 = pingpong s + 1
     /\ exists next,
          calls (tick frame s).1
          = calls s ++ [DrawCamera; DrawTracer (pingpong s);
                        DrawQuad (pingpong s + 1); next])
  /\ (0 <= frame -> 0 <= pingpong s < max ->
      (Z.to_nat (max - pingpong s) <= n)%nat ->
      (run n frame s).2 = true
      /\ pingpong (run n frame s).1 = max
      /\ calls (run n frame s).1
         = calls s ++ passes (Z.to_nat (max - pingpong s)) (pingpong s)).
Proof.
  intros Hm Ha Hd Hm1. split.
  - intros Hp.
    destruct (tick_sample frame max s Hm Ha Hd Hm1 Hp) as (_ & Hpp & _ & _ & _ & Hc).
    split; [exact Hpp|]. eexists. exact Hc.
  - intros Hf Hp Hn.
    destruct (Z.to_nat (max - pingpong s)) as [|k] eqn:E; [lia|].
    apply (run_budget frame max k Hf s n); auto; lia.
Qed.

Lemma upload_fires_at_max_witness :
  (run 8 0 (start_state (Some 5) false)).2 = true
  /\ pingpong (run 8 0 (start_state (Some 5) false)).1 = 5
  /\ calls (run 8 0 (start_state (Some 5) false)).1
     = calls (start_state (Some 5) false)
         ++ passes (Z.to_nat (5 - pingpong (start_state (Some 5) false)))
                   (pingpong (start_state (Some 5) false)).
Proof.
  apply (upload_fires_at_max 0 5 (start_state (Some 5) false) 8);
    simpl; try reflexivity; lia.
Defined.

(** C4 as stated fails: with a budget of 5 the upload fires with
    [pingpong = 5], not 6, after exactly five tracer passes. *)
Lemma upload_not_at_max_plus_one :
  let r := run 8 0 (start_state (Some 5) false) in
  r.2 = true /\ pingpong r.1 = 5 /\ pingpong r.1 <> 5 + 1
  /\ List.filter is_tracer (calls r.1)
     = [DrawTracer 0; DrawTracer 1; DrawTracer 2; DrawTracer 3; DrawTracer 4].
Proof. vm_compute. repeat split; try reflexivity. discriminate. Qed.

Lemma framebuffers_screen_out (k : Z) :
  k <> 0 /\ k <> 1 -> framebuffers_screen k = None.
Proof.
  intros [H0 H1]. unfold framebuffers_screen.
  destruct (decide (k = 0)); [contradiction|].
  destruct (decide (k = 1)); [contradiction|reflexivity].
Qed.

Lemma clear_resets (s : state) :
  pingpong (clear s) = 0 /\ dirty (clear s) = false.
Proof. split; reflexivity. Qed.

(** With [pingpong = 0], the one value for which [pingpong + 1 % 2] is a
    valid index other than 0, both targets are cleared. *)
Lemma clear_at_zero (s : state) (a b : image) :
  moving s = false -> pingpong s = 0 -> screen (gl s) = [a; b] ->
  screen (gl (clear s)) = [Zero; Zero].
Proof.
  destruct s as [p d mv ac rs mx so [bd sc cam cv] cs]; simpl.
  intros -> -> ->. reflexivity.
Qed.

(** C1 (what the code does): when [clear()] runs with [moving] false and
    [pingpong >= 1], the counter and the flag are reset, but only target 0
    is cleared: the second bind reads [framebuffers.screen[pingpong + 1]],
    which is [undefined], so the second [gl.clear] lands in the canvas
    and target 1 keeps its samples. *)
Theorem clear_skips_second_target (s : state) :
  moving s = false -> 1 <= pingpong s ->
  pingpong (clear s) = 0 /\ dirty (clear s) = false
  /\ screen (gl (clear s)) = <[0%nat := Zero]> (screen (gl s))
  /\ canvas (gl (clear s)) = Zero.
Proof.
  destruct s as [p d mv ac rs mx so [bd sc cam cv] cs]; simpl.
  intros -> Hp. unfold clear; simpl.
  change (Z.rem 1 2) with 1.
  rewrite (framebuffers_screen_out (p + 1)) by lia.
  repeat split; reflexivity.
Qed.

(** Two samples accumulated, then a wheel event. *)
Lemma clear_skips_second_target_witness :
  let s := invalidate (run 2 0 (start_state (Some 5) false)).1 in
  pingpong (clear s) = 0 /\ dirty (clear s) = false
  /\ screen (gl (clear s)) = <[0%nat := Zero]> (screen (gl s))
  /\ canvas (gl (clear s)) = Zero.
Proof.
  apply (clear_skips_second_target
           (invalidate (run 2 0 (start_state (Some 5) false)).1));
    [reflexivity | vm_compute; discriminate].
Defined.

(** The same through a whole tick: after the tick that handles the dirty
    flag, target 1 still holds sample 1, and the first tracer pass of the
    restarted accumulation reads it as its prior. *)
Lemma tick_dirty_leaves_samples :
  let s := invalidate (run 2 0 (start_state (Some 5) false)).1 in
  let s1 := (tick 0 s).1 in
  let s2 := (tick 0 s1).1 in
  pingpong s1 = 0 /\ dirty s1 = false
  /\ screen (gl s1) = [Zero; Accum 1 (Accum 0 Zero)]
  /\ screen (gl s2) = [Accum 0 (Accum 1 (Accum 0 Zero)); Accum 1 (Accum 0 Zero)].
Proof. vm_compute. repeat split; reflexivity. Qed.

(** *** Material resolution *)

Lemma js_or_truthy (a b : jsval) : truthy b = true -> truthy (js_or a b) = true.
Proof. unfold js_or. destruct (truthy a) eqn:E; auto. Qed.

(** C10 (what the code does): the chains select by truthiness.  A zero
    [ior] or [dielectric] is skipped like a missing one, so the value of
    the next level is taken: a zero in the material falls through to the
    transforms, a zero in the transforms (when the material gives nothing
    truthy) to the default, and the resolved value is never zero. *)
Theorem getMaterial_zero_skipped (transforms material : Material) :
  (truthy (ior material) = false ->
     ior (getMaterial transforms material)
     = js_or (ior transforms) (Num 0x1.6666666666666p+0))
  /\ (truthy (ior material) = false -> truthy (ior transforms) = false ->
     ior (getMaterial transforms material) = Num 0x1.6666666666666p+0)
  /\ (truthy (dielectric material) = false ->
     dielectric (getMaterial transforms material)
     = js_or (dielectric transforms) (Int (-1)))
  /\ (truthy (dielectric material) = false -> truthy (dielectric transforms) = false ->
     dielectric (getMaterial transforms material) = Int (-1))
  /\ truthy (ior (getMaterial transforms material)) = true
  /\ truthy (dielectric (getMaterial transforms material)) = true.
Proof.
  unfold getMaterial; simpl.
  repeat split.
  - intros H. unfold js_or at 2. rewrite H. reflexivity.
  - intros H1 H2. unfold js_or. rewrite H1, H2. reflexivity.
  - intros H. unfold js_or at 2. rewrite H. reflexivity.
  - intros H1 H2. unfold js_or. rewrite H1, H2. reflexivity.
  - apply js_or_truthy. reflexivity.
  - apply js_or_truthy. reflexivity.
Qed.

Lemma getMaterial_zero_skipped_witness :
  ior (getMaterial (Mat Undefined (Int 0)) (Mat (Int 0) Undefined))
    = Num 0x1.6666666666666p+0
  /\ dielectric (getMaterial (Mat Undefined (Int 0)) (Mat (Int 0) Undefined))
    = Int (-1).
Proof.
  destruct (getMaterial_zero_skipped (Mat Undefined (Int 0)) (Mat (Int 0) Undefined))
    as (_ & Hi & _ & Hd & _).
  split; [apply Hi | apply Hd]; reflexivity.
Defined.

(** C10 as stated fails when the other level supplies a value: a material
    with [ior = 0] under transforms with [ior = 1.5] resolves to 1.5, and a
    material with [dielectric = 0] under transforms with [dielectric = 1]
    resolves to 1, not to the defaults. *)
Lemma getMaterial_zero_not_default :
  let m := getMaterial (Mat (Num 1.5) (Int 1)) (Mat (Int 0) (Int 0)) in
  ior (Mat (Int 0) (Int 0)) = Int 0
  /\ ior m = Num 1.5 /\ ior m <> Num 0x1.6666666666666p+0
  /\ dielectric m = Int 1 /\ dielectric m <> Int (-1).
Proof. vm_compute. repeat split; try reflexivity; discriminate. Qed.

(** *** Comparisons of binary64 numbers *)

Lemma SFcompare_antisym (x y : spec_float) :
  SFcompare y x = option_map CompOpp (SFcompare x y).
Proof.
  destruct x as [sx|sx| |sx mx ex], y as [sy|sy| |sy my ey]; simpl;
    try destruct sx; try destruct sy; try reflexivity;
    rewrite (Z.compare_antisym ex ey);
    destruct (ex ?= ey)%Z; simpl; try reflexivity;
    rewrite (Pos.compare_cont_antisym mx my Eq); simpl;
    destruct (Pos.compare_cont Eq my mx); reflexivity.
Qed.

Lemma ltb_leb_exclusive (x y : float) :
  (x <? y)%float = true -> (y <=? x)%float = true -> False.
Proof.
  rewrite ltb_spec, leb_spec. unfold SFltb, SFleb.
  rewrite (SFcompare_antisym (Prim2SF x) (Prim2SF y)).
  destruct (SFcompare (Prim2SF x) (Prim2SF y)) as [[]|]; simpl; discriminate.
Qed.

(** *** The autofocus ray *)

Lemma rayTriangleIntersect_unfold (eye dir : vec3) (tri : Triangle) :
  rayTriangleIntersect eye dir tri =
  if ((- epsilon <? mt_det dir tri) && (mt_det dir tri <? epsilon))%float then maxT
  else if ((mt_u eye dir tri <? 0) || (1 <? mt_u eye dir tri))%float then maxT
  else if ((mt_v eye dir tri <? 0) || (1 <? mt_u eye dir tri + mt_v eye dir tri))%float
       then maxT
  else if (epsilon <? mt_t eye dir tri)%float then mt_t eye dir tri else maxT.
Proof.
  destruct tri as [[[v0 v1] v2] bb].
  unfold rayTriangleIntersect, mt_t, mt_v, mt_u, mt_q, mt_det, mt_p; simpl.
  reflexivity.
Qed.

(** C8 (what the code does): the test returns [maxT] when the determinant
    lies strictly between [-epsilon] and [epsilon] (ray parallel to the
    triangle), when [u] is outside [0, 1], when [v < 0] or [u + v > 1], or
    when [t > epsilon] fails; otherwise it returns [t].  The determinant
    test is two-sided: a triangle struck from behind ([det <= -epsilon])
    is not rejected. *)
Theorem rayTriangleIntersect_cases (eye dir : vec3) (tri : Triangle) :
  let det := mt_det dir tri in
  let u := mt_u eye dir tri in
  let v := mt_v eye dir tri in
  let t := mt_t eye dir tri in
  let parallel := ((- epsilon <? det) && (det <? epsilon))%float in
  let outside := (((u <? 0) || (1 <? u)) || ((v <? 0) || (1 <? u + v)))%float in
  (parallel = true -> rayTriangleIntersect eye dir tri = maxT)
  /\ (outside = true -> rayTriangleIntersect eye dir tri = maxT)
  /\ ((epsilon <? t)%float = false -> rayTriangleIntersect eye dir tri = maxT)
  /\ (parallel = false -> outside = false -> (epsilon <? t)%float = true ->
      rayTriangleIntersect eye dir tri = t)
  /\ ((det <=? - epsilon)%float = true -> outside = false ->
      (epsilon <? t)%float = true -> rayTriangleIntersect eye dir tri = t).
Proof.
  intros det u v t parallel outside.
  rewrite rayTriangleIntersect_unfold.
  fold det u v t. fold parallel.
  assert (Hacc : parallel = false -> outside = false -> (epsilon <? t)%float = true ->
                 (if parallel then maxT
                  else if ((u <? 0) || (1 <? u))%float then maxT
                  else if ((v <? 0) || (1 <? u + v))%float then maxT
                  else if (epsilon <? t)%float then t else maxT) = t).
  { intros -> H ->. apply orb_false_elim in H as [-> ->]. reflexivity. }
  split; [|split; [|split; [|split]]].
  - intros ->. reflexivity.
  - intros H. unfold outside in H. destruct parallel; [reflexivity|].
    destruct ((u <? 0) || (1 <? u))%float; [reflexivity|].
    simpl in H. rewrite H. reflexivity.
  - intros H. rewrite H.
    destruct parallel; [reflexivity|].
    destruct ((u <? 0) || (1 <? u))%float; [reflexivity|].
    destruct ((v <? 0) || (1 <? u + v))%float; reflexivity.
  - exact Hacc.
  - intros Hle. apply Hacc.
    unfold parallel. destruct (- epsilon <? det)%float eqn:E; [|reflexivity].
    exfalso. exact (ltb_leb_exclusive _ _ E Hle).
Qed.

(** The triangle of scenario S1 seen from below: the ray leaves
    [(0.25, 0.25, -1)] along [+z] and strikes the back face at distance 1. *)
Lemma rayTriangleIntersect_cases_witness :
  rayTriangleIntersect (0.25, 0.25, -1)%float (0, 0, 1)%float
    (newTriangle (0, 0, 0)%float (1, 0, 0)%float (0, 1, 0)%float)
  = mt_t (0.25, 0.25, -1)%float (0, 0, 1)%float
      (newTriangle (0, 0, 0)%float (1, 0, 0)%float (0, 1, 0)%float).
Proof.
  apply (rayTriangleIntersect_cases (0.25, 0.25, -1)%float (0, 0, 1)%float
           (newTriangle (0, 0, 0)%float (1, 0, 0)%float (0, 1, 0)%float));
    vm_compute; reflexivity.
Defined.

(** C8 as stated fails on a back face: for that ray the determinant is
    [-1], the specification's test rejects the triangle, and the code
    returns the distance 1. *)
Lemma rayTriangleIntersect_back_face :
  let eye := (0.25, 0.25, -1)%float in
  let dir := (0, 0, 1)%float in
  let tri := newTriangle (0, 0, 0)%float (1, 0, 0)%float (0, 1, 0)%float in
  mt_det dir tri = (-1)%float
  /\ rayTriangleIntersect_spec eye dir tri = maxT
  /\ rayTriangleIntersect eye dir tri = 1%float
  /\ rayTriangleIntersect eye dir tri <> maxT.
Proof. vm_compute. repeat split; try reflexivity. discriminate. Qed.

Lemma mapM_defined_valid (triangles : list Triangle) (l : jsarray) :
  valid_refs triangles l ->
  exists tris, mapM defined (map (tri_at triangles) l) = Ok tris
               /\ Forall (fun t => t ∈ triangles) tris
               /\ length tris = length l.
Proof.
  induction 1 as [|idx l [t Ht] _ (tris & IH & Hin & Hlen)]; simpl.
  - exists []. repeat split. constructor.
  - rewrite Ht; simpl. rewrite IH; simpl.
    exists (t :: tris). repeat split; [|simpl; congruence].
    constructor; [|exact Hin].
    destruct idx as [i|]; simpl in Ht; [|discriminate].
    eapply list_elem_of_lookup_2; eauto.
Qed.

Lemma processLeaf_total (eye dir : vec3) (triangles : list Triangle) (ix : indices3) :
  valid_refs triangles (axis_get Ax0 ix) ->
  exists d, processLeaf eye dir triangles ix = Ok d.
Proof.
  intros H. destruct (mapM_defined_valid _ _ H) as (tris & E & _).
  unfold processLeaf, getTriangles. rewrite E. simpl. eauto.
Qed.


Lemma findTriangles_total (eye dir : vec3) (triangles : list Triangle) (root : Node) :
  valid_tree triangles root ->
  forall closest, exists d, findTriangles eye dir triangles root closest = Ok d.
Proof.
  induction root as [box ix split | box a k l IHl r IHr]; simpl.
  - intros H _. apply processLeaf_total; exact H.
  - intros [Hl Hr] closest.
    assert (Hv : forall (o : ordered) c, exists d,
      (if o_node o && (o_t o <? c)%float
       then res ← findTriangles eye dir triangles (if o_left o then l else r) c;
            Ok (Math_min res c)
       else Ok c) = Ok d).
    { intros o c. destruct (o_node o && (o_t o <? c)%float); [|eauto].
      destruct (o_left o);
        [destruct (IHl Hl c) as [d ->] | destruct (IHr Hr c) as [d ->]];
        simpl; eauto. }
    destruct (closestNode eye dir l r) as [o0 o1].
    destruct (Hv o0 closest) as [d0 ->]. simpl. apply Hv.
Qed.



(** *** Split selection *)

(** C3 (the code at a failing input): three triangles one unit high, at
    [x] in [0,1], [15,15.5] and [15.5,16].  The specification's cost
    prefers cutting after the first triangle ([k = 1], cost 1.1875 against
    2.96875).  The code pairs the front box of [i + 1] triangles with
    [surfacesBack[N - 1 - i]], the box of the last [N - i] triangles, one
    more than the right side holds, and it also evaluates [k = N]; its
    costs are 3.0625, 3 and 4, and it cuts after the second triangle. *)
Theorem setSplit_back_box_one_too_many :
  let T1 := newTriangle (0, 0, 0)%float (1, 0, 0)%float (0, 1, 0)%float in
  let T2 := newTriangle (15, 0, 0)%float (15.5, 0, 0)%float (15, 1, 0)%float in
  let T3 := newTriangle (15.5, 0, 0)%float (16, 0, 0)%float (15.5, 1, 0)%float in
  let triangles := [T1; T2; T3] in
  let l := Some <$> _sortIndices triangles [0; 1; 2]%nat Ax0 in
  let ix : indices3 := (l, l, l) in
  let box := Box (0, 0, 0)%float (16, 1, 0)%float in
  l = [Some 0; Some 1; Some 2]%nat
  /\ newNode triangles ix = Ok (box, Some (Ax0, 2%nat))
  /\ setSplit triangles ix box = Ok (Some (Ax0, 2%nat))
  /\ setSplit_spec triangles ix box = Some (Ax0, 1%nat)
  /\ sahCandidates triangles ix box Ax0
     = [(Ax0, 1%nat, 1.1875%float); (Ax0, 2%nat, 2.96875%float)]
  /\ splitAxisLoop triangles ix (getSurfaceArea box) (infinity, None) Ax0
     = Ok (3%float, Some (Ax0, 2%nat)).
Proof. vm_compute. repeat split; reflexivity. Qed.

(** The loop of [setSplit] reaches [i = N - 1], the candidate "all [N]
    triangles on the left": a single triangle gets [splitIndex = 1 = N]. *)
Lemma setSplit_evaluates_k_eq_N :
  let T1 := newTriangle (0, 0, 0)%float (1, 0, 0)%float (0, 1, 0)%float in
  setSplit [T1] ([Some 0%nat], [Some 0%nat], [Some 0%nat]) (boundingBox T1)
  = Ok (Some (Ax0, 1%nat)).
Proof. vm_compute. reflexivity. Qed.

(** *** The builder *)

(** C5 (the code at a failing input): five triangles whose vertices all
    lie on the x axis.  The root box has surface area 0, every cost is
    [0/0 = NaN], no comparison [cost < bestCost] succeeds and [splitAxis]
    stays [undefined]; the leaf test falls back to axis 0, finds five
    triangles for a leaf size of four, and [_constructCachedIndexList]
    throws on [indices[undefined].slice]. *)
Theorem buildTree_degenerate_throws (stack : nat) :
  let D := fun x : float =>
    newTriangle (x, 0, 0)%float (x + 1, 0, 0)%float (x + 2, 0, 0)%float in
  let triangles := [D 0; D 1; D 2; D 3; D 4]%float in
  newNode triangles
    (Some <$> seq 0 5, Some <$> seq 0 5, Some <$> seq 0 5)
    = Ok (Box (0, 0, 0)%float (6, 0, 0)%float, None)
  /\ newBVH (S stack) triangles 4 = Throw TypeError.
Proof. vm_compute. split; reflexivity. Qed.

(** *** The serializer *)

Lemma length_entries (p : Z) (n : Node) : length (entries p n) = size n.
Proof.
  revert p. induction n as [| box a k l IHl r IHr]; intros p; simpl; [reflexivity|].
  rewrite length_app, IHl, IHr. reflexivity.
Qed.

Lemma entries_preorder (p : Z) (n : Node) : e_node <$> entries p n = preorder n.
Proof.
  revert p. induction n as [| box a k l IHl r IHr]; intros p; simpl; [reflexivity|].
  rewrite fmap_app, IHl, IHr. reflexivity.
Qed.

Lemma alter_slot (f : entry -> entry) (nodes rest : list entry) (e : entry) :
  alter f (length nodes) (nodes ++ e :: rest) = nodes ++ f e :: rest.
Proof.
  induction nodes as [|x nodes IH]; simpl; [reflexivity|].
  f_equal. exact IH.
Qed.

(** [traverseTree] appends the block of its subtree, numbered from
    [i + 1], and leaves the counter on the last ordinal it handed out. *)
Lemma traverseTree_entries (root : Node) (nodes : list entry) (i : Z) :
  traverseTree root (nodes, i)
  = (i + 1, (nodes ++ entries (i + 1) root, i + Z.of_nat (size root))).
Proof.
  revert nodes i.
  induction root as [box ix split | box a k l IHl r IHr]; intros nodes i.
  - simpl. repeat f_equal; lia.
  - cbn [traverseTree].
    rewrite IHl. cbv beta iota zeta.
    rewrite <- app_assoc. cbn [app].
    rewrite alter_slot.
    rewrite IHr. cbv beta iota zeta.
    rewrite <- app_assoc. cbn [app].
    rewrite alter_slot. cbn [entries].
    replace (i + 1 + Z.of_nat (size l) + 1) with (i + 1 + 1 + Z.of_nat (size l)) by lia.
    unfold set_right, set_left. cbn [e_node e_left e_right].
    do 2 f_equal. cbn [size]. lia.
Qed.

Lemma serializeTree_entries (root : Node) : serializeTree root = entries 0 root.
Proof. unfold serializeTree. rewrite traverseTree_entries. reflexivity. Qed.

(** Every entry heads the block of its own subtree, and that block sits
    at the entry's ordinal. *)
Lemma entries_block (n : Node) :
  forall (p : Z) (q : nat) (e : entry),
    entries p n !! q = Some e ->
    exists pre post,
      entries p n = pre ++ entries (p + Z.of_nat q) (e_node e) ++ post
      /\ length pre = q
      /\ head (entries (p + Z.of_nat q) (e_node e)) = Some e.
Proof.
  induction n as [box ix split | box a k l IHl r IHr]; intros p q e Hq.
  - destruct q as [|q]; simpl in Hq; [|destruct q; discriminate].
    injection Hq as <-. exists [], []. simpl. repeat split.
  - destruct q as [|q].
    + simpl in Hq. injection Hq as <-. exists [], [].
      cbn [e_node]. rewrite Z.add_0_r, app_nil_r. repeat split.
    + cbn [entries] in Hq. rewrite lookup_cons in Hq.
      replace (p + Z.of_nat (S q)) with (p + 1 + Z.of_nat q) by lia.
      destruct (decide (q < size l)%nat) as [Hlt|Hge].
      * rewrite lookup_app_l in Hq by (rewrite length_entries; exact Hlt).
        destruct (IHl _ _ _ Hq) as (pre & post & E & Hlen & Hhd).
        exists (Entry (Inner box a k l r) (Some (p + 1))
                      (Some (p + 1 + Z.of_nat (size l))) :: pre),
               (post ++ entries (p + 1 + Z.of_nat (size l)) r).
        split; [|split; [simpl; congruence | exact Hhd]].
        cbn [entries]. rewrite E. rewrite <- !app_assoc. reflexivity.
      * rewrite lookup_app_r in Hq by (rewrite length_entries; lia).
        rewrite length_entries in Hq.
        destruct (IHr _ _ _ Hq) as (pre & post & E & Hlen & Hhd).
        replace (p + 1 + Z.of_nat (size l) + Z.of_nat (q - size l))
          with (p + 1 + Z.of_nat q) in E, Hhd by lia.
        exists (Entry (Inner box a k l r) (Some (p + 1))
                      (Some (p + 1 + Z.of_nat (size l)))
                  :: entries (p + 1) l ++ pre), post.
        split; [|split; [|exact Hhd]].
        -- cbn [entries app]. rewrite E. rewrite <- app_assoc. reflexivity.
        -- simpl. rewrite length_app, length_entries. lia.
Qed.

(** *** The packing loop *)

Lemma mapM_length {A B} (f : A -> result B) (l : list A) (bs : list B) :
  mapM f l = Ok bs -> length bs = length l.
Proof.
  revert bs. induction l as [|a l IH]; intros bs; simpl.
  - intros [= <-]. reflexivity.
  - destruct (f a) as [b|]; simpl; [|discriminate].
    destruct (mapM f l) as [bs'|]; simpl; [|discriminate].
    intros [= <-]. simpl. f_equal. apply IH. reflexivity.
Qed.

Lemma length_vertsOf (t : Triangle) : length (vertsOf t) = 9%nat.
Proof. destruct t as [[[[[x0 y0] z0] [[x1 y1] z1]] [[x2 y2] z2]] bb]. reflexivity. Qed.

Lemma length_concat_vertsOf (ts : list Triangle) :
  length (concat (vertsOf <$> ts)) = (9 * length ts)%nat.
Proof.
  induction ts as [|t ts IH]; [reflexivity|].
  rewrite fmap_cons. cbn [concat length].
  rewrite length_app, length_vertsOf, IH. lia.
Qed.

Lemma foldl_push (ts : list Triangle) (buf : list float) :
  foldl (fun buf t =>
           let '(v0, v1, v2) := verts t in
           buf ++ spread v0 ++ spread v1 ++ spread v2) buf ts
  = buf ++ concat (vertsOf <$> ts).
Proof.
  revert buf. induction ts as [|t ts IH]; intros buf.
  - simpl. rewrite app_nil_r. reflexivity.
  - rewrite fmap_cons. cbn [foldl concat]. rewrite IH. unfold vertsOf at 2.
    destruct (verts t) as [[v0 v1] v2]. rewrite <- app_assoc. reflexivity.
Qed.

Lemma pushTriangles_app (triangles : list Triangle) (ix : indices3)
    (tb tb' : list float) :
  pushTriangles triangles ix tb = Ok tb' ->
  exists vs, pushTriangles triangles ix [] = Ok vs
             /\ tb' = tb ++ vs
             /\ length vs = (9 * length (axis_get Ax0 ix))%nat.
Proof.
  unfold pushTriangles.
  destruct (mapM defined (getTriangles triangles ix)) as [ts|] eqn:E; simpl;
    [|discriminate].
  intros [= <-]. rewrite !foldl_push. simpl.
  eexists. split; [reflexivity|]. split; [reflexivity|].
  rewrite length_concat_vertsOf. apply mapM_length in E.
  unfold getTriangles in E. rewrite length_map in E. lia.
Qed.

Lemma div9 (c : nat) : Z.of_nat (9 * c) / 3 / 3 = Z.of_nat c.
Proof.
  replace (Z.of_nat (9 * c)) with (Z.of_nat c * 3 * 3) by lia.
  rewrite !Z.div_mul by lia. reflexivity.
Qed.

Lemma packEntry_record (triangles : list Triangle) (bb bb' : list jsval)
    (tb tb' : list float) (e : entry) (c : nat) :
  packEntry triangles (bb, tb) e = Ok (bb', tb') ->
  length tb = (9 * c)%nat ->
  bb' = bb ++ recordOf c e
  /\ exists vs, tb' = tb ++ vs
       /\ length vs = (9 * leafCount (e_node e))%nat
       /\ forall box ix sp, e_node e = Leaf box ix sp ->
            pushTriangles triangles ix [] = Ok vs.
Proof.
  intros H Hc. unfold packEntry in H. rewrite Hc, div9 in H.
  destruct (e_node e) as [box ix sp | box a k l r] eqn:En; simpl in H.
  - destruct (pushTriangles triangles ix tb) as [tb2|] eqn:Ep; simpl in H;
      [|discriminate].
    injection H as <- <-.
    destruct (pushTriangles_app _ _ _ _ Ep) as (vs & Hvs & -> & Hlen).
    split; [unfold recordOf; rewrite En; reflexivity|].
    exists vs. repeat split; [exact Hlen|].
    intros box' ix' sp' [= _ <- _]. exact Hvs.
  - injection H as <- <-.
    split; [unfold recordOf; rewrite En; reflexivity|].
    exists []. rewrite app_nil_r. repeat split. intros; discriminate.
Qed.

Lemma emitted_cons (e : entry) (es : list entry) :
  emitted (e :: es) = (leafCount (e_node e) + emitted es)%nat.
Proof. reflexivity. Qed.

Lemma packLoop_records (triangles : list Triangle) (es : list entry) :
  forall (bb bb' : list jsval) (tb tb' : list float) (c : nat),
    packLoop triangles es (bb, tb) = Ok (bb', tb') ->
    length tb = (9 * c)%nat ->
    bb' = bb ++ recordsOf c es
    /\ exists vs, tb' = tb ++ vs
         /\ length vs = (9 * emitted es)%nat
         /\ forall p e box ix sp,
              es !! p = Some e -> e_node e = Leaf box ix sp ->
              exists lv, pushTriangles triangles ix [] = Ok lv
                /\ length lv = (9 * length (axis_get Ax0 ix))%nat
                /\ take (length lv) (drop (9 * emitted (take p es)) vs) = lv.
Proof.
  induction es as [|e es IH]; intros bb bb' tb tb' c H Hc; cbn [packLoop] in H.
  - injection H as <- <-. split; [simpl; rewrite app_nil_r; reflexivity|].
    exists []. rewrite app_nil_r. repeat split. intros p e ? ? ? Hp. discriminate.
  - destruct (packEntry triangles (bb, tb) e) as [[bb1 tb1]|] eqn:Ee; simpl in H;
      [|discriminate].
    destruct (packEntry_record _ _ _ _ _ _ _ Ee Hc) as (-> & vs1 & -> & Hl1 & Hpush).
    assert (Hc1 : length (tb ++ vs1) = (9 * (c + leafCount (e_node e)))%nat)
      by (rewrite length_app; lia).
    destruct (IH _ _ _ _ _ H Hc1) as (-> & vs2 & -> & Hl2 & Hrest).
    split; [simpl; rewrite <- app_assoc; reflexivity|].
    exists (vs1 ++ vs2). split; [rewrite app_assoc; reflexivity|].
    split; [rewrite length_app, emitted_cons; lia|].
    intros [|p] e' box ix sp Hp Hn.
    + simpl in Hp. injection Hp as <-.
      exists vs1. split; [eapply Hpush; eauto|].
      assert (Hlv : length vs1 = (9 * length (axis_get Ax0 ix))%nat)
        by (rewrite Hl1, Hn; reflexivity).
      split; [exact Hlv|].
      change (emitted (take 0 (e :: es))) with 0%nat.
      rewrite Nat.mul_0_r, drop_0, take_app_length. reflexivity.
    + simpl in Hp. destruct (Hrest p e' box ix sp Hp Hn) as (lv & Hlv & Hlen & Htake).
      exists lv. split; [exact Hlv|]. split; [exact Hlen|].
      cbn [take]. rewrite emitted_cons.
      replace (9 * (leafCount (e_node e) + emitted (take p es)))%nat
        with (length vs1 + 9 * emitted (take p es))%nat by lia.
      rewrite drop_app_add'; [exact Htake | reflexivity].
Qed.

Lemma recordOf_length (c : nat) (e : entry) : length (recordOf c e) = 9%nat.
Proof.
  unfold recordOf. destruct (box_min _) as [[? ?] ?], (box_max _) as [[? ?] ?].
  reflexivity.
Qed.

Lemma recordsOf_lookup (es : list entry) :
  forall (c p j : nat) (e : entry),
    es !! p = Some e -> (j < 9)%nat ->
    recordsOf c es !! (9 * p + j)%nat
    = recordOf (c + emitted (take p es)) e !! j.
Proof.
  induction es as [|e0 es IH]; intros c p j e Hp Hj; [discriminate|].
  destruct p as [|p]; simpl in Hp.
  - injection Hp as <-. cbn [recordsOf take].
    rewrite lookup_app_l by (rewrite recordOf_length; lia).
    unfold emitted. simpl. rewrite Nat.add_0_r. reflexivity.
  - cbn [recordsOf take]. rewrite emitted_cons.
    rewrite lookup_app_r by (rewrite recordOf_length; lia).
    rewrite recordOf_length.
    replace (9 * S p + j - 9)%nat with (9 * p + j)%nat by lia.
    rewrite (IH _ _ _ _ Hp Hj). f_equal. f_equal. lia.
Qed.



Lemma padBuffer_keeps (buf : list jsval) (perElement channels n : nat) (v : jsval) :
  buf !! n = Some v -> padBuffer buf perElement channels !! n = Some v.
Proof.
  intros H. unfold padBuffer. apply lookup_app_l_Some. exact H.
Qed.

(** The three integer cells of the record at ordinal [p]. *)
Lemma packBVH_cells (triangles : list Triangle) (root : Node)
    (bvhBuffer : list jsval) (trianglesBuffer : list float) (p : nat) (e : entry) :
  packBVH triangles root = Ok (bvhBuffer, trianglesBuffer) ->
  serializeTree root !! p = Some e ->
  bvhBuffer !! (9 * p)%nat = Some (ordinal (e_left e))
  /\ bvhBuffer !! (9 * p + 1)%nat = Some (ordinal (e_right e))
  /\ bvhBuffer !! (9 * p + 2)%nat
     = Some (Int (if node_leaf (e_node e)
                  then Z.of_nat (emitted (take p (serializeTree root)))
                  else -1)).
Proof.
  intros Hpack Hp. unfold packBVH in Hpack.
  destruct (packLoop_records _ _ _ _ _ _ 0%nat Hpack eq_refl) as (-> & _).
  cbn [app].
  pose proof (recordsOf_lookup (serializeTree root) 0 p 0 e Hp ltac:(lia)) as H0.
  pose proof (recordsOf_lookup (serializeTree root) 0 p 1 e Hp ltac:(lia)) as H1.
  pose proof (recordsOf_lookup (serializeTree root) 0 p 2 e Hp ltac:(lia)) as H2.
  rewrite Nat.add_0_r in H0. rewrite H0, H1, H2.
  repeat split.
Qed.

Lemma serializeTree_block (root : Node) (p : nat) (e : entry) :
  serializeTree root !! p = Some e ->
  match e_node e with
  | Leaf _ _ _ => e_left e = None /\ e_right e = None
  | Inner _ _ _ l r =>
      e_left e = Some (Z.of_nat p + 1)
      /\ e_right e = Some (Z.of_nat p + 1 + Z.of_nat (size l))
      /\ exists pre bl br post,
           serializeTree root = pre ++ e :: bl ++ br ++ post
           /\ length pre = p
           /\ e_node <$> bl = preorder l
           /\ e_node <$> br = preorder r
  end.
Proof.
  rewrite serializeTree_entries. intros Hp.
  destruct (entries_block root 0 p e Hp) as (pre & post & E & Hlen & Hhd).
  rewrite Z.add_0_l in E, Hhd.
  destruct (e_node e) as [box ix sp | box a k l r] eqn:En.
  - simpl in Hhd. injection Hhd as <-. split; reflexivity.
  - cbn [entries head] in Hhd, E. injection Hhd as He.
    split; [rewrite <- He; reflexivity|].
    split; [rewrite <- He; reflexivity|].
    exists pre, (entries (Z.of_nat p + 1) l),
           (entries (Z.of_nat p + 1 + Z.of_nat (size l)) r), post.
    rewrite !entries_preorder. repeat split; [|exact Hlen].
    rewrite E, He. cbn [app]. rewrite <- app_assoc. reflexivity.
Qed.

(** *** Packing never throws on valid trees *)

Lemma entries_valid (triangles : list Triangle) (n : Node) (p : Z) :
  valid_tree triangles n ->
  Forall (fun e => valid_tree triangles (e_node e)) (entries p n).
Proof.
  revert p. induction n as [box ix sp | box a k l IHl r IHr]; intros p Hv.
  - repeat constructor. exact Hv.
  - cbn [entries]. constructor; [exact Hv|].
    destruct Hv as [Hl Hr]. apply Forall_app. split; [apply IHl | apply IHr]; assumption.
Qed.

Lemma packLoop_total (triangles : list Triangle) (es : list entry) :
  Forall (fun e => valid_tree triangles (e_node e)) es ->
  forall st, exists st', packLoop triangles es st = Ok st'.
Proof.
  induction 1 as [|e es He _ IH]; intros [bb tb]; [eexists; reflexivity|].
  cbn [packLoop].
  assert (Hp : exists st1, packEntry triangles (bb, tb) e = Ok st1).
  { unfold packEntry. destruct (e_node e) as [box ix sp | box a k l r].
    - cbn [valid_tree] in He.
      destruct (mapM_defined_valid _ _ He) as (tris & E & _).
      unfold pushTriangles, getTriangles. rewrite E. cbn. eauto.
    - cbn. eauto. }
  destruct Hp as [st1 ->]. cbn [mbind result_bind]. apply IH.
Qed.

Lemma packBVH_total (triangles : list Triangle) (root : Node) :
  valid_tree triangles root ->
  exists bvhBuffer trianglesBuffer,
    packBVH triangles root = Ok (bvhBuffer, trianglesBuffer).
Proof.
  intros Hv. unfold packBVH. rewrite serializeTree_entries.
  destruct (packLoop_total triangles _ (entries_valid _ _ 0 Hv) ([], []))
    as [[bb tb] E].
  eauto.
Qed.

Lemma mapM_defined_omap {A B} (f : A -> option B) (l : list A) :
  forall bs, mapM defined (map f l) = Ok bs -> bs = omap f l.
Proof.
  induction l as [|a l IH]; simpl; intros bs H.
  - injection H as <-. reflexivity.
  - destruct (f a) as [b|]; simpl in H; [|discriminate].
    destruct (mapM defined (map f l)) as [bs'|]; simpl in H; [|discriminate].
    injection H as <-. f_equal. apply IH. reflexivity.
Qed.

Lemma pushTriangles_flat (triangles : list Triangle) (ix : indices3)
    (tb tb' : list float) :
  pushTriangles triangles ix tb = Ok tb' ->
  tb' = tb ++ concat (vertsOf <$> trianglesOf triangles (axis_get Ax0 ix)).
Proof.
  unfold pushTriangles, getTriangles.
  destruct (mapM defined _) as [ts|] eqn:E; simpl; [|discriminate].
  intros [= <-]. rewrite foldl_push.
  rewrite (mapM_defined_omap _ _ _ E). reflexivity.
Qed.

Lemma packLoop_flat (triangles : list Triangle) (es : list entry) :
  forall (bb bb' : list jsval) (tb tb' : list float),
    packLoop triangles es (bb, tb) = Ok (bb', tb') ->
    tb' = tb ++ concat (vertsOf <$>
                  trianglesOf triangles (concat (own_refs <$> (e_node <$> es)))).
Proof.
  induction es as [|e es IH]; intros bb bb' tb tb' H; cbn [packLoop] in H.
  - injection H as <- <-. simpl. rewrite app_nil_r. reflexivity.
  - destruct (packEntry triangles (bb, tb) e) as [[bb1 tb1]|] eqn:Ee; simpl in H;
      [|discriminate].
    apply IH in H. subst tb'.
    rewrite !fmap_cons. cbn [concat]. unfold trianglesOf in *.
    rewrite omap_app, fmap_app, concat_app, app_assoc. f_equal.
    unfold packEntry in Ee.
    destruct (e_node e) as [box ix sp | box a k l r]; simpl in Ee.
    + destruct (pushTriangles triangles ix tb) as [tb2|] eqn:Ep; simpl in Ee;
        [|discriminate].
      injection Ee as _ <-. apply pushTriangles_flat in Ep. exact Ep.
    + injection Ee as _ <-. simpl. rewrite app_nil_r. reflexivity.
Qed.

Lemma own_refs_preorder (n : Node) : concat (own_refs <$> preorder n) = leafRefs n.
Proof.
  induction n as [box ix sp | box a k l IHl r IHr]; simpl.
  - rewrite app_nil_r. reflexivity.
  - rewrite fmap_app, concat_app, IHl, IHr. reflexivity.
Qed.

Lemma mapM_defined_Forall2 {A B} (f : A -> option B) (l : list A) :
  forall bs, mapM defined (map f l) = Ok bs -> Forall2 (fun a b => f a = Some b) l bs.
Proof.
  induction l as [|a l IH]; simpl; intros bs H.
  - injection H as <-. constructor.
  - destruct (f a) as [b|] eqn:Ea; simpl in H; [|discriminate].
    destruct (mapM defined (map f l)) as [bs'|]; simpl in H; [|discriminate].
    injection H as <-. constructor; auto.
Qed.

Lemma pushTriangles_refs (triangles : list Triangle) (ix : indices3)
    (tb tb' : list float) :
  pushTriangles triangles ix tb = Ok tb' ->
  Forall2 (fun idx t => tri_at triangles idx = Some t)
          (axis_get Ax0 ix) (trianglesOf triangles (axis_get Ax0 ix)).
Proof.
  unfold pushTriangles, getTriangles.
  destruct (mapM defined _) as [ts|] eqn:E; simpl; [|discriminate].
  intros _. pose proof (mapM_defined_Forall2 _ _ _ E) as F.
  rewrite (mapM_defined_omap _ _ _ E) in F. exact F.
Qed.

(** C7: [serializeTree] emits one entry per node in depth-first preorder,
    the root first.  An inner node at ordinal [p] records [p + 1] for its
    left child and [p + 1 + size left] for its right child, and the
    entries after it are the block of the left subtree followed by the
    block of the right subtree.  The packing loop appends the triangles of
    the leaves in visit order: [trianglesBuffer] is the nine coordinates
    of every triangle the leaves reference, leaf after leaf; the third
    cell of a leaf's record is the number of triangles emitted by the
    leaves before it, and the coordinates of the triangles the leaf's own
    references name, in reference order, start at that triangle in
    [trianglesBuffer]. *)
Theorem serializeTree_preorder (triangles : list Triangle) (root : Node) :
  e_node <$> serializeTree root = preorder root
  /\ (exists e, serializeTree root !! 0%nat = Some e /\ e_node e = root)
  /\ (forall p e, serializeTree root !! p = Some e ->
        match e_node e with
        | Leaf _ _ _ => e_left e = None /\ e_right e = None
        | Inner _ _ _ l r =>
            e_left e = Some (Z.of_nat p + 1)
            /\ e_right e = Some (Z.of_nat p + 1 + Z.of_nat (size l))
            /\ exists pre bl br post,
                 serializeTree root = pre ++ e :: bl ++ br ++ post
                 /\ length pre = p
                 /\ e_node <$> bl = preorder l
                 /\ e_node <$> br = preorder r
        end)
  /\ (valid_tree triangles root ->
      exists bvhBuffer trianglesBuffer,
        packBVH triangles root = Ok (bvhBuffer, trianglesBuffer)
        /\ trianglesBuffer
           = concat (vertsOf <$> trianglesOf triangles (leafRefs root))
        /\ forall p e box ix sp,
             serializeTree root !! p = Some e -> e_node e = Leaf box ix sp ->
             let before := emitted (take p (serializeTree root)) in
             bvhBuffer !! (9 * p + 2)%nat = Some (Int (Z.of_nat before))
             /\ exists tris,
                  Forall2 (fun idx t => tri_at triangles idx = Some t)
                          (axis_get Ax0 ix) tris
                  /\ take (9 * length tris) (drop (9 * before) trianglesBuffer)
                     = concat (vertsOf <$> tris)).
Proof.
  split; [rewrite serializeTree_entries; apply entries_preorder|].
  split.
  { rewrite serializeTree_entries. destruct root; simpl; eexists; split; reflexivity. }
  split; [apply serializeTree_block|].
  intros Hv. destruct (packBVH_total triangles root Hv) as (bb & tb & Hpack).
  exists bb, tb. split; [exact Hpack|].
  split.
  { unfold packBVH in Hpack. pose proof (packLoop_flat _ _ _ _ _ _ Hpack) as Htb.
    rewrite serializeTree_entries, entries_preorder, own_refs_preorder in Htb.
    exact Htb. }
  intros p e box ix sp Hp En before.
  destruct (packBVH_cells _ _ _ _ _ _ Hpack Hp) as (_ & _ & H).
  rewrite En in H. split; [exact H|].
  unfold packBVH in Hpack.
  destruct (packLoop_records _ _ _ _ _ _ 0%nat Hpack eq_refl)
    as (_ & vs & Htb & _ & Hleaf).
  cbn [app] in Htb. subst tb.
  destruct (Hleaf p e box ix sp Hp En) as (lv & Hlv & Hlen & Htake).
  exists (trianglesOf triangles (axis_get Ax0 ix)).
  split; [exact (pushTriangles_refs _ _ _ _ Hlv)|].
  apply pushTriangles_flat in Hlv. cbn [app] in Hlv. subst lv.
  rewrite length_concat_vertsOf in Htake. exact Htake.
Qed.

(** Two triangles under a leaf size of 1: the tree packs, the right leaf
    sits at ordinal 2, its triangles start at index 1, and the nine
    numbers there are the coordinates of the triangle it references. *)
Lemma serializeTree_preorder_witness :
  let T := newTriangle (0, 0, 0)%float (1, 0, 0)%float (0, 1, 0)%float in
  let U := newTriangle (0, 0, 2)%float (1, 0, 2)%float (0, 1, 2)%float in
  let b := boundingBox T in
  let root := Inner b Ax0 1
                (Leaf b ([Some 0%nat], [Some 0%nat], [Some 0%nat]) (Some (Ax0, 1%nat)))
                (Leaf b ([Some 1%nat], [Some 1%nat], [Some 1%nat]) (Some (Ax0, 1%nat))) in
  exists bvhBuffer trianglesBuffer,
    packBVH [T; U] root = Ok (bvhBuffer, trianglesBuffer)
    /\ bvhBuffer !! 20%nat = Some (Int 1)
    /\ take 9 (drop 9 trianglesBuffer) = vertsOf U.
Proof.
  intros T U b root.
  assert (Hv : valid_tree [T; U] root).
  { split; repeat constructor; eexists; reflexivity. }
  destruct (serializeTree_preorder [T; U] root) as (_ & _ & _ & H).
  destruct (H Hv) as (bb & tb & Hpack & _ & Hcells).
  exists bb, tb. split; [exact Hpack|].
  destruct (Hcells 2%nat
              (Entry (Leaf b ([Some 1%nat], [Some 1%nat], [Some 1%nat]) (Some (Ax0, 1%nat)))
                     None None)
              b ([Some 1%nat], [Some 1%nat], [Some 1%nat]) (Some (Ax0, 1%nat))
              eq_refl eq_refl) as (Hbase & tris & Hrefs & Hslice).
  split; [exact Hbase|].
  cbn [axis_get] in Hrefs.
  inversion Hrefs as [|idx t l ts Ht Hrest]; subst.
  inversion Hrest; subst.
  injection Ht as <-. exact Hslice.
Defined.




(** *** Partition of the index lists *)

Lemma js_store_next (done : jsarray) (n : nat) (v : option nat) :
  js_store (done ++ replicate n None) (length done) v
  = (done ++ [v]) ++ replicate (n - 1) None.
Proof.
  unfold js_store. rewrite length_app, length_replicate.
  destruct n as [|n].
  - replace (length done <? length done + 0)%nat with false
      by (symmetry; apply Nat.ltb_ge; lia).
    replace (length done - (length done + 0))%nat with 0%nat by lia.
    simpl. rewrite !app_nil_r. reflexivity.
  - replace (length done <? length done + S n)%nat with true
      by (symmetry; apply Nat.ltb_lt; lia).
    rewrite insert_app_r_alt by lia.
    replace (length done - length done)%nat with 0%nat by lia.
    simpl. rewrite Nat.sub_0_r, <- app_assoc. reflexivity.
Qed.

(** The scan fills both targets front to back with the members and the
    non-members of [setLeft], in the order of the scanned list; slots it
    does not reach stay holes. *)
Lemma scanAxis_filter (setLeft : gset (option nat)) (src : jsarray) :
  forall (dl dr : jsarray) (n m : nat),
    scanAxis setLeft src (dl ++ replicate n None) (dr ++ replicate m None)
             (length dl) (length dr)
    = (dl ++ filter (fun x => x ∈ setLeft) src
          ++ replicate (n - length (filter (fun x => x ∈ setLeft) src)) None,
       dr ++ filter (fun x => x ∉ setLeft) src
          ++ replicate (m - length (filter (fun x => x ∉ setLeft) src)) None).
Proof.
  induction src as [|idx src IH]; intros dl dr n m.
  - simpl. rewrite !Nat.sub_0_r. reflexivity.
  - cbn [scanAxis]. destruct (decide (idx ∈ setLeft)) as [Hin|Hnin].
    + rewrite js_store_next.
      replace (S (length dl)) with (length (dl ++ [idx]))
        by (rewrite length_app; simpl; lia).
      rewrite IH. rewrite (filter_cons_True _ idx src Hin).
      rewrite (filter_cons_False (fun x => x ∉ setLeft) idx src) by tauto.
      rewrite <- app_assoc. cbn [app length].
      replace (n - 1 - length (filter (fun x => x ∈ setLeft) src))%nat
        with (n - S (length (filter (fun x => x ∈ setLeft) src)))%nat by lia.
      reflexivity.
    + rewrite js_store_next.
      replace (S (length dr)) with (length (dr ++ [idx]))
        by (rewrite length_app; simpl; lia).
      rewrite IH. rewrite (filter_cons_False _ idx src Hnin).
      rewrite (filter_cons_True (fun x => x ∉ setLeft) idx src Hnin).
      rewrite <- app_assoc. cbn [app length].
      replace (m - 1 - length (filter (fun x => x ∉ setLeft) src))%nat
        with (m - S (length (filter (fun x => x ∉ setLeft) src)))%nat by lia.
      reflexivity.
Qed.

Lemma scanAxis_Array (setLeft : gset (option nat)) (src : jsarray) (n m : nat) :
  length (filter (fun x => x ∈ setLeft) src) = n ->
  length (filter (fun x => x ∉ setLeft) src) = m ->
  scanAxis setLeft src (Array_ n) (Array_ m) 0 0
  = (filter (fun x => x ∈ setLeft) src, filter (fun x => x ∉ setLeft) src).
Proof.
  intros Hn Hm.
  pose proof (scanAxis_filter setLeft src [] [] n m) as H.
  cbn [app length] in H. unfold Array_. rewrite H, Hn, Hm, !Nat.sub_diag.
  simpl. rewrite !app_nil_r. reflexivity.
Qed.

Section Partition.
Variables (X src : jsarray) (k : nat).
Hypothesis X_nodup : NoDup X.
Hypothesis src_perm : src ≡ₚ X.

Let setLeft : gset (option nat) := list_to_set (take k X).

Lemma in_setLeft (x : option nat) : x ∈ setLeft <-> x ∈ take k X.
Proof. unfold setLeft. apply elem_of_list_to_set. Qed.

Lemma take_drop_split (x : option nat) :
  (x ∈ take k X -> x ∈ X /\ x ∉ drop k X)
  /\ (x ∈ drop k X -> x ∈ X /\ x ∉ take k X)
  /\ (x ∈ X -> x ∈ take k X \/ x ∈ drop k X).
Proof.
  pose proof X_nodup as Hnd. rewrite <- (take_drop k X) in Hnd.
  apply NoDup_app in Hnd as (_ & Hdisj & _).
  assert (HX : x ∈ X <-> x ∈ take k X \/ x ∈ drop k X)
    by (rewrite <- elem_of_app, take_drop; reflexivity).
  split; [|split].
  - intros Ht. split; [apply HX; left; exact Ht | apply Hdisj; exact Ht].
  - intros Hd. split; [apply HX; right; exact Hd|].
    intros Ht. exact (Hdisj _ Ht Hd).
  - apply HX.
Qed.

Lemma src_nodup : NoDup src.
Proof. rewrite src_perm. exact X_nodup. Qed.

Lemma filter_left_perm : filter (fun x => x ∈ setLeft) src ≡ₚ take k X.
Proof.
  apply NoDup_Permutation.
  - apply NoDup_filter, src_nodup.
  - eapply sublist_NoDup; [exact X_nodup | apply sublist_take].
  - intros x. rewrite list_elem_of_filter, in_setLeft, src_perm.
    split; [tauto|]. intros H. split; [exact H|].
    destruct (take_drop_split x) as (H1 & _ & _). exact (proj1 (H1 H)).
Qed.

Lemma filter_right_perm : filter (fun x => x ∉ setLeft) src ≡ₚ drop k X.
Proof.
  apply NoDup_Permutation.
  - apply NoDup_filter, src_nodup.
  - eapply sublist_NoDup; [exact X_nodup | apply sublist_drop].
  - intros x. rewrite list_elem_of_filter, in_setLeft, src_perm.
    destruct (take_drop_split x) as (H1 & H2 & H3).
    split.
    + intros [Hn Hx]. destruct (H3 Hx); [contradiction|assumption].
    + intros H. destruct (H2 H). split; assumption.
Qed.

Lemma scanAxis_partition :
  scanAxis setLeft src (Array_ (length (take k X))) (Array_ (length (drop k X))) 0 0
  = (filter (fun x => x ∈ setLeft) src, filter (fun x => x ∉ setLeft) src).
Proof.
  apply scanAxis_Array.
  - rewrite filter_left_perm. reflexivity.
  - rewrite filter_right_perm. reflexivity.
Qed.
End Partition.

Lemma filter_all {A} (P : A -> Prop) `{!forall x, Decision (P x)} (l : list A) :
  Forall P l -> filter P l = l.
Proof.
  induction 1 as [|x l Hx _ IH]; [reflexivity|].
  rewrite filter_cons_True by exact Hx. rewrite IH. reflexivity.
Qed.

Lemma filter_none {A} (P : A -> Prop) `{!forall x, Decision (P x)} (l : list A) :
  Forall (fun x => ~ P x) l -> filter P l = [].
Proof.
  induction 1 as [|x l Hx _ IH]; [reflexivity|].
  rewrite filter_cons_False by exact Hx. exact IH.
Qed.

(** On the split axis itself, slicing and filtering agree. *)
Lemma slice_filter (X : jsarray) (k : nat) :
  NoDup X ->
  take k X = filter (fun x => x ∈ (list_to_set (take k X) : gset (option nat))) X
  /\ drop k X = filter (fun x => x ∉ (list_to_set (take k X) : gset (option nat))) X.
Proof.
  intros Hnd.
  assert (Ht : Forall (fun x => x ∈ (list_to_set (take k X) : gset (option nat)))
                      (take k X)).
  { apply Forall_forall. intros x Hx. apply elem_of_list_to_set. exact Hx. }
  assert (Hd : Forall (fun x => x ∉ (list_to_set (take k X) : gset (option nat)))
                      (drop k X)).
  { apply Forall_forall. intros x Hx. rewrite elem_of_list_to_set.
    destruct (take_drop_split X k Hnd x) as (_ & H2 & _). apply H2. exact Hx. }
  assert (E : forall P : option nat -> Prop, forall H : (forall x, Decision (P x)),
             filter P X = filter P (take k X) ++ filter P (drop k X)).
  { intros P H. rewrite <- filter_app, take_drop. reflexivity. }
  split.
  - rewrite E, (filter_all _ _ Ht), (filter_none _ (drop k X));
      [rewrite app_nil_r; reflexivity|].
    eapply Forall_impl; [exact Hd|]. intros x Hx Hin. exact (Hx Hin).
  - rewrite E, (filter_all _ _ Hd), (filter_none _ (take k X)); [reflexivity|].
    eapply Forall_impl; [exact Ht|]. intros x Hx Hn. exact (Hn Hx).
Qed.

Lemma wf_axis (ix : indices3) (b : axis) :
  wf_indices ix ->
  NoDup (axis_get b ix) /\ (None ∉ axis_get b ix)
  /\ axis_get b ix ≡ₚ axis_get Ax0 ix.
Proof.
  intros (Hnd & Hnone & H1 & H2).
  destruct b; [repeat split; [assumption..|reflexivity] | |];
    (split; [|split]); try assumption.
  - rewrite H1. exact Hnd.
  - rewrite H1. exact Hnone.
  - rewrite H2. exact Hnd.
  - rewrite H2. exact Hnone.
Qed.

Lemma wf_axes (ix : indices3) (a b : axis) :
  wf_indices ix -> axis_get b ix ≡ₚ axis_get a ix.
Proof.
  intros Hwf.
  destruct (wf_axis ix a Hwf) as (_ & _ & Ha).
  destruct (wf_axis ix b Hwf) as (_ & _ & Hb).
  rewrite Ha, Hb. reflexivity.
Qed.

Lemma remainingAxes (a : axis) :
  filter (fun e => e ≠ a) [Ax0; Ax1; Ax2]
  = match a with
    | Ax0 => [Ax1; Ax2]
    | Ax1 => [Ax0; Ax2]
    | Ax2 => [Ax0; Ax1]
    end.
Proof. destruct a; reflexivity. Qed.

(** Under the builder's invariant the six lists returned by
    [_constructCachedIndexList] are, on every axis, the members and the
    non-members of the left partition in the order of the parent list. *)
Lemma constructCached_filter (ix : indices3) (a : axis) (k : nat) :
  wf_indices ix ->
  let setLeft : gset (option nat) := list_to_set (take k (axis_get a ix)) in
  exists L R,
    _constructCachedIndexList ix (Some (a, k)) = Ok (L, R)
    /\ forall b,
         axis_get b L = filter (fun x => x ∈ setLeft) (axis_get b ix)
         /\ axis_get b R = filter (fun x => x ∉ setLeft) (axis_get b ix).
Proof.
  intros Hwf setLeft.
  destruct (wf_axis ix a Hwf) as (Hnd & _ & _).
  destruct (slice_filter _ k Hnd) as [Htake Hdrop].
  fold setLeft in Htake, Hdrop.
  assert (Hscan : forall b,
    scanAxis setLeft (axis_get b ix)
             (Array_ (length (take k (axis_get a ix))))
             (Array_ (length (drop k (axis_get a ix)))) 0 0
    = (filter (fun x => x ∈ setLeft) (axis_get b ix),
       filter (fun x => x ∉ setLeft) (axis_get b ix))).
  { intros b. apply scanAxis_partition; [exact Hnd | apply wf_axes; exact Hwf]. }
  unfold _constructCachedIndexList. cbn [defined mbind result_bind].
  rewrite remainingAxes. fold setLeft.
  destruct ix as [[x y] z].
  destruct a; cbn [foldl]; rewrite !Hscan; cbn [axis_get axis_set fst snd] in *;
    eexists _, _; (split; [reflexivity|]);
    intros b; destruct b; cbn [axis_get]; split; first [reflexivity | assumption].
Qed.

Lemma split_children_wf (ix : indices3) (a : axis) (k : nat) :
  wf_indices ix ->
  exists L R,
    _constructCachedIndexList ix (Some (a, k)) = Ok (L, R)
    /\ wf_indices L /\ wf_indices R
    /\ (forall b, axis_get b L ++ axis_get b R ≡ₚ axis_get b ix)
    /\ (forall b b' x, x ∈ axis_get b L -> x ∉ axis_get b' R)
    /\ (forall b, axis_get b L `sublist_of` axis_get b ix
                  /\ axis_get b R `sublist_of` axis_get b ix)
    /\ (forall b, axis_get b L ≡ₚ take k (axis_get a ix)
                  /\ axis_get b R ≡ₚ drop k (axis_get a ix)).
Proof.
  intros Hwf.
  destruct (constructCached_filter ix a k Hwf) as (L & R & E & Hax).
  exists L, R. split; [exact E|].
  assert (HwfL : forall P : option nat -> Prop, forall H : (forall x, Decision (P x)),
            forall M : indices3,
              (forall b, axis_get b M = filter P (axis_get b ix)) -> wf_indices M).
  { intros P H M HM. destruct Hwf as (Hnd & Hnone & H1 & H2).
    unfold wf_indices. rewrite !HM. repeat split.
    - apply NoDup_filter. exact Hnd.
    - intros Hin. apply list_elem_of_filter in Hin as [_ Hin]. exact (Hnone Hin).
    - rewrite H1. reflexivity.
    - rewrite H2. reflexivity. }
  destruct (wf_axis ix a Hwf) as (Hnd & _ & _).
  split; [eapply HwfL; intros b; apply (Hax b)|].
  split; [eapply HwfL; intros b; apply (Hax b)|].
  split; [|split; [|split]].
  - intros b. destruct (Hax b) as [-> ->]. apply filter_app_complement.
  - intros b b' x. destruct (Hax b) as [-> _]. destruct (Hax b') as [_ ->].
    rewrite !list_elem_of_filter. tauto.
  - intros b. destruct (Hax b) as [-> ->]. split; apply sublist_filter.
  - intros b. destruct (Hax b) as [-> ->]. split.
    + apply filter_left_perm; [exact Hnd | apply wf_axes; exact Hwf].
    + apply filter_right_perm; [exact Hnd | apply wf_axes; exact Hwf].
Qed.

(** Whatever tree the builder returns, its leaves hold the references of
    the list it was started on, each exactly once. *)
Lemma buildTree_leafRefs (triangles : list Triangle) (maxTriangles : nat) :
  forall (stack : nat) (ix : indices3) (t : Node),
    wf_indices ix ->
    buildTree stack triangles maxTriangles ix = Ok t ->
    leafRefs t ≡ₚ axis_get Ax0 ix.
Proof.
  induction stack as [|stack IH]; intros ix t Hwf H; [discriminate|].
  cbn [buildTree] in H.
  destruct (newNode triangles ix) as [[box split]|] eqn:En;
    cbn [mbind result_bind] in H; [|discriminate].
  destruct (length (axis_get match split with Some (a, _) => a | None => Ax0 end ix)
              <=? maxTriangles)%nat.
  - injection H as <-. reflexivity.
  - destruct split as [[a k]|]; [|discriminate].
    destruct (split_children_wf ix a k Hwf) as (L & R & E & HL & HR & Hun & _).
    rewrite E in H. cbn [mbind result_bind] in H.
    destruct (buildTree stack triangles maxTriangles L) as [l|] eqn:El;
      cbn [mbind result_bind] in H; [|discriminate].
    destruct (buildTree stack triangles maxTriangles R) as [r|] eqn:Er;
      cbn [mbind result_bind] in H; [|discriminate].
    injection H as <-. cbn [leafRefs].
    rewrite (IH _ _ HL El), (IH _ _ HR Er). apply Hun.
Qed.

Lemma sort_insert_perm (cmp : nat -> nat -> Z) (x : nat) (l : list nat) :
  sort_insert cmp x l ≡ₚ x :: l.
Proof.
  induction l as [|y l IH]; simpl; [reflexivity|].
  destruct (cmp x y <=? 0); [reflexivity|].
  rewrite IH. apply Permutation_swap.
Qed.

Lemma _sortIndices_perm (triangles : list Triangle) (l : list nat) (a : axis) :
  _sortIndices triangles l a ≡ₚ l.
Proof.
  unfold _sortIndices. induction l as [|x l IH]; simpl; [reflexivity|].
  rewrite sort_insert_perm, IH. reflexivity.
Qed.

Lemma initial_indices_wf (triangles : list Triangle) :
  let l := seq 0 (length triangles) in
  wf_indices (Some <$> _sortIndices triangles l Ax0,
              Some <$> _sortIndices triangles l Ax1,
              Some <$> _sortIndices triangles l Ax2).
Proof.
  intros l. unfold wf_indices. cbn [axis_get].
  rewrite !_sortIndices_perm. repeat split; try reflexivity.
  - apply NoDup_fmap; [apply _|]. apply NoDup_seq.
  - intros Hin. apply list_elem_of_fmap in Hin as (? & ? & _). discriminate.
Qed.

(** One level of the recursion: an inner node is returned only through
    [_constructCachedIndexList] at its own split, and its children are the
    trees built from the two index triples. *)
Lemma buildTree_inner (triangles : list Triangle) (maxTriangles stack : nat)
    (ix : indices3) (box : BoundingBox) (a : axis) (k : nat) (l r : Node) :
  buildTree stack triangles maxTriangles ix = Ok (Inner box a k l r) ->
  exists stack' L R,
    stack = S stack'
    /\ newNode triangles ix = Ok (box, Some (a, k))
    /\ (maxTriangles < length (axis_get a ix))%nat
    /\ _constructCachedIndexList ix (Some (a, k)) = Ok (L, R)
    /\ buildTree stack' triangles maxTriangles L = Ok l
    /\ buildTree stack' triangles maxTriangles R = Ok r.
Proof.
  destruct stack as [|stack]; [discriminate|]. intros H.
  cbn [buildTree] in H.
  destruct (newNode triangles ix) as [[box' split]|] eqn:En;
    cbn [mbind result_bind] in H; [|discriminate].
  destruct (length (axis_get match split with Some (a, _) => a | None => Ax0 end ix)
              <=? maxTriangles)%nat eqn:Eleaf; [discriminate|].
  destruct split as [[a' k']|]; [|discriminate].
  destruct (_constructCachedIndexList ix (Some (a', k'))) as [[L R]|] eqn:E;
    cbn [mbind result_bind] in H; [|discriminate].
  destruct (buildTree stack triangles maxTriangles L) as [l'|] eqn:El;
    cbn [mbind result_bind] in H; [|discriminate].
  destruct (buildTree stack triangles maxTriangles R) as [r'|] eqn:Er;
    cbn [mbind result_bind] in H; [|discriminate].
  injection H as <- <- <- <- <-.
  exists stack, L, R. apply Nat.leb_gt in Eleaf. repeat split; assumption.
Qed.

(** C6: on the index lists the builder works with (no holes, no
    repetition, the same references on the three axes), the split of an
    inner node yields children whose lists are again of that kind, are
    disjoint, together hold exactly the parent's references, and on every
    axis are sub-sequences of the parent's list, so the sort order is
    kept; the children of a returned inner node are built from exactly
    those lists, hence the leaves of a returned tree hold every reference
    of the root exactly once. *)
Theorem split_partitions_triangles (triangles : list Triangle) (maxTriangles : nat)
    (ix : indices3) :
  wf_indices ix ->
  (forall a k, exists L R,
      _constructCachedIndexList ix (Some (a, k)) = Ok (L, R)
      /\ wf_indices L /\ wf_indices R
      /\ (forall b, axis_get b L ++ axis_get b R ≡ₚ axis_get b ix)
      /\ (forall b b' x, x ∈ axis_get b L -> x ∉ axis_get b' R)
      /\ (forall b, axis_get b L `sublist_of` axis_get b ix
                    /\ axis_get b R `sublist_of` axis_get b ix)
      /\ (forall b, axis_get b L ≡ₚ take k (axis_get a ix)
                    /\ axis_get b R ≡ₚ drop k (axis_get a ix)))
  /\ (forall stack box a k l r,
        buildTree stack triangles maxTriangles ix = Ok (Inner box a k l r) ->
        exists stack' L R,
          stack = S stack'
          /\ _constructCachedIndexList ix (Some (a, k)) = Ok (L, R)
          /\ buildTree stack' triangles maxTriangles L = Ok l
          /\ buildTree stack' triangles maxTriangles R = Ok r
          /\ leafRefs l ≡ₚ axis_get Ax0 L /\ leafRefs r ≡ₚ axis_get Ax0 R
          /\ (forall x, x ∈ leafRefs l -> x ∉ leafRefs r))
  /\ (forall stack t,
        buildTree stack triangles maxTriangles ix = Ok t ->
        leafRefs t ≡ₚ axis_get Ax0 ix /\ NoDup (leafRefs t)).
Proof.
  intros Hwf. split; [intros a k; apply split_children_wf; exact Hwf|]. split.
  - intros stack box a k l r H.
    destruct (buildTree_inner _ _ _ _ _ _ _ _ _ H) as (stack' & L & R & -> & _ & _ & E & El & Er).
    destruct (split_children_wf ix a k Hwf) as (L' & R' & E' & HL & HR & _ & Hdisj & _).
    rewrite E in E'. injection E' as <- <-.
    pose proof (buildTree_leafRefs _ _ _ _ _ HL El) as Pl.
    pose proof (buildTree_leafRefs _ _ _ _ _ HR Er) as Pr.
    exists stack', L, R. repeat split; try assumption.
    intros x. rewrite Pl, Pr. apply Hdisj.
  - intros stack t H.
    pose proof (buildTree_leafRefs _ _ _ _ _ Hwf H) as P.
    split; [exact P|]. rewrite P. apply Hwf.
Qed.

Lemma split_partitions_triangles_witness :
  let ix : indices3 :=
    ([Some 2; Some 0; Some 1], [Some 0; Some 1; Some 2], [Some 1; Some 2; Some 0])%nat in
  exists L R,
    _constructCachedIndexList ix (Some (Ax1, 1%nat)) = Ok (L, R)
    /\ wf_indices L /\ wf_indices R.
Proof.
  intros ix.
  assert (Hwf : wf_indices ix).
  { unfold wf_indices, ix; cbn [axis_get]. repeat split.
    - apply (bool_decide_unpack _). vm_compute. exact I.
    - apply (bool_decide_unpack _). vm_compute. exact I.
    - apply (Permutation_cons_app [Some 2%nat] [Some 1%nat] (Some 0%nat)).
      apply Permutation_swap.
    - apply (Permutation_cons_app [Some 2; Some 0]%nat [] (Some 1%nat)).
      reflexivity. }
  destruct (split_partitions_triangles [] 4 ix Hwf) as (H & _).
  destruct (H Ax1 1%nat) as (L & R & E & HL & HR & _).
  exists L, R. split; [exact E | split; [exact HL | exact HR]].
Defined.

(** The tree built from a scene holds every triangle index in exactly one
    leaf, once. *)
Lemma newBVH_each_triangle_once (stack : nat) (triangles : list Triangle)
    (maxTris : nat) (root : Node) :
  newBVH stack triangles maxTris = Ok root ->
  leafRefs root ≡ₚ Some <$> seq 0 (length triangles) /\ NoDup (leafRefs root).
Proof.
  intros H. unfold newBVH in H.
  pose proof (initial_indices_wf triangles) as Hwf. cbv zeta in Hwf.
  pose proof (buildTree_leafRefs _ _ _ _ _ Hwf H) as P. cbn [axis_get] in P.
  split.
  - rewrite P, _sortIndices_perm. reflexivity.
  - rewrite P. apply Hwf.
Qed.

(** *** Trees returned by the builder *)

Lemma mapM_defined_inv {A B} (f : A -> option B) (l : list A) (bs : list B) :
  mapM (fun i => defined (f i)) l = Ok bs -> Forall (fun i => is_Some (f i)) l.
Proof.
  revert bs. induction l as [|a l IH]; intros bs H; [constructor|].
  cbn [mapM] in H. destruct (f a) as [b|] eqn:Ea; cbn in H; [|discriminate].
  destruct (mapM (fun i => defined (f i)) l) as [bs'|] eqn:El; cbn in H; [|discriminate].
  constructor; [rewrite Ea; eauto | eapply IH; reflexivity].
Qed.

Lemma newNode_valid (triangles : list Triangle) (ix : indices3)
    (box : BoundingBox) (split : option (axis * nat)) :
  newNode triangles ix = Ok (box, split) ->
  valid_refs triangles (axis_get Ax0 ix) /\ setSplit triangles ix box = Ok split.
Proof.
  unfold newNode, addNode. intros H.
  destruct (mapM (fun i => defined (tri_at triangles i)) (axis_get Ax0 ix))
    as [tris|] eqn:E; cbn [mbind result_bind] in H; [|discriminate].
  split; [eapply mapM_defined_inv; exact E|].
  destruct (setSplit triangles ix _) as [sp|] eqn:Es; cbn [mbind result_bind] in H;
    [|discriminate].
  injection H as <- <-. exact Es.
Qed.

(** Every reference kept by a leaf of a returned tree names a triangle:
    the node constructor has read them all. *)
Lemma buildTree_valid (triangles : list Triangle) (maxTriangles : nat) :
  forall (stack : nat) (ix : indices3) (t : Node),
    buildTree stack triangles maxTriangles ix = Ok t -> valid_tree triangles t.
Proof.
  induction stack as [|stack IH]; intros ix t H; [discriminate|].
  destruct t as [box ix' sp | box a k l r].
  - cbn [buildTree] in H.
    destruct (newNode triangles ix) as [[box' split]|] eqn:En;
      cbn [mbind result_bind] in H; [|discriminate].
    destruct (length (axis_get match split with Some (a, _) => a | None => Ax0 end ix)
                <=? maxTriangles)%nat.
    + injection H as <- <- <-. apply (newNode_valid _ _ _ _ En).
    + destruct (_constructCachedIndexList ix split) as [[L R]|];
        cbn [mbind result_bind] in H; [|discriminate].
      destruct (buildTree stack triangles maxTriangles L);
        cbn [mbind result_bind] in H; [|discriminate].
      destruct (buildTree stack triangles maxTriangles R);
        cbn [mbind result_bind] in H; [|discriminate].
      destruct split as [[? ?]|]; discriminate.
  - destruct (buildTree_inner _ _ _ _ _ _ _ _ _ H)
      as (stack' & L & R & [= <-] & _ & _ & _ & El & Er).
    split; [exact (IH _ _ El) | exact (IH _ _ Er)].
Qed.

(** A split index, once assigned, is at least 1. *)
Lemma costLoop_index (P : float) (a : axis) (sf sb : list float) (len : nat) (st : best) :
  (forall a' k', st.2 = Some (a', k') -> (1 <= k')%nat) ->
  forall a' k', (costLoop P a sf sb len st).2 = Some (a', k') -> (1 <= k')%nat.
Proof.
  unfold costLoop. generalize (seq 0 len). intros js. revert st.
  induction js as [|i js IH]; intros st Hst; [exact Hst|].
  cbn [foldl]. apply IH.
  destruct (_ <? st.1)%float; [|exact Hst].
  intros a' k' [= _ <-]. lia.
Qed.

Lemma setSplit_index (triangles : list Triangle) (ix : indices3) (box : BoundingBox)
    (a : axis) (k : nat) :
  setSplit triangles ix box = Ok (Some (a, k)) -> (1 <= k)%nat.
Proof.
  unfold setSplit, splitAxisLoop. intros H.
  destruct (mapM _ (axis_get Ax0 ix)) as [t0|]; cbn [mbind result_bind] in H; [|discriminate].
  destruct (mapM _ (axis_get Ax1 ix)) as [t1|]; cbn [mbind result_bind] in H; [|discriminate].
  destruct (mapM _ (axis_get Ax2 ix)) as [t2|]; cbn [mbind result_bind] in H; [|discriminate].
  injection H as H. revert H.
  apply costLoop_index, costLoop_index, costLoop_index.
  intros ? ? [=].
Qed.

Lemma indices_ext (L M : indices3) :
  (forall b, axis_get b L = axis_get b M) -> L = M.
Proof.
  destruct L as [[x y] z], M as [[x' y'] z']. intros H.
  pose proof (H Ax0) as H0. pose proof (H Ax1) as H1. pose proof (H Ax2) as H2.
  cbn [axis_get] in *. congruence.
Qed.

(** A split that keeps every triangle on the left hands the builder its
    own input again: the recursion ends only when the stack does. *)
Lemma buildTree_stuck (triangles : list Triangle) (maxTriangles : nat)
    (ix : indices3) (box : BoundingBox) (a : axis) (k : nat) :
  wf_indices ix ->
  newNode triangles ix = Ok (box, Some (a, k)) ->
  (maxTriangles < length (axis_get a ix))%nat ->
  (length (axis_get a ix) <= k)%nat ->
  forall stack, buildTree stack triangles maxTriangles ix = Throw RangeError.
Proof.
  intros Hwf En Hbig Hk stack. induction stack as [|stack IH]; [reflexivity|].
  cbn [buildTree]. rewrite En. cbn [mbind result_bind].
  replace (length (axis_get a ix) <=? maxTriangles)%nat with false
    by (symmetry; apply Nat.leb_gt; exact Hbig).
  destruct (constructCached_filter ix a k Hwf) as (L & R & E & Hax).
  rewrite E. cbn [mbind result_bind].
  assert (HL : L = ix).
  { apply indices_ext. intros b. destruct (Hax b) as [-> _].
    apply filter_all. apply Forall_forall. intros x Hx.
    apply elem_of_list_to_set. rewrite take_ge by exact Hk.
    rewrite <- (wf_axes ix a b Hwf). exact Hx. }
  rewrite HL, IH. reflexivity.
Qed.

(** When the builder returns, the tree obeys the leaf rule: the root is a
    leaf exactly when it holds at most [maxTriangles] triangles, and every
    leaf holds between 1 and [maxTriangles]. *)
Lemma buildTree_leaf_rule (triangles : list Triangle) (maxTriangles : nat) :
  forall (stack : nat) (ix : indices3) (t : Node),
    wf_indices ix -> (1 <= length (axis_get Ax0 ix))%nat ->
    buildTree stack triangles maxTriangles ix = Ok t ->
    all_leaves (fun l => (1 <= length l <= maxTriangles)%nat) t
    /\ (node_leaf t = true <-> (length (axis_get Ax0 ix) <= maxTriangles)%nat).
Proof.
  induction stack as [|stack IH]; intros ix t Hwf Hne H; [discriminate|].
  pose proof H as H'. cbn [buildTree] in H.
  destruct (newNode triangles ix) as [[box split]|] eqn:En;
    cbn [mbind result_bind] in H; [|discriminate].
  assert (Hlen : forall b, length (axis_get b ix) = length (axis_get Ax0 ix)).
  { intros b. apply Permutation_length, wf_axes, Hwf. }
  destruct (length (axis_get match split with Some (a, _) => a | None => Ax0 end ix)
              <=? maxTriangles)%nat eqn:Eleaf.
  - injection H as <-. apply Nat.leb_le in Eleaf. rewrite Hlen in Eleaf.
    cbn [all_leaves node_leaf]. split; [lia | tauto].
  - apply Nat.leb_gt in Eleaf. rewrite Hlen in Eleaf.
    destruct split as [[a k]|]; [|discriminate].
    destruct (split_children_wf ix a k Hwf) as (L & R & E & HL & HR & _ & _ & _ & Hperm).
    rewrite E in H. cbn [mbind result_bind] in H.
    destruct (buildTree stack triangles maxTriangles L) as [l|] eqn:El;
      cbn [mbind result_bind] in H; [|discriminate].
    destruct (buildTree stack triangles maxTriangles R) as [r|] eqn:Er;
      cbn [mbind result_bind] in H; [|discriminate].
    injection H as <-.
    pose proof (setSplit_index _ _ _ _ _ (proj2 (newNode_valid _ _ _ _ En))) as Hk1.
    assert (Hk : (k < length (axis_get a ix))%nat).
    { destruct (decide (k < length (axis_get a ix))%nat) as [|Hge]; [assumption|].
      rewrite (buildTree_stuck triangles maxTriangles ix box a k Hwf En) in H';
        [discriminate | rewrite Hlen; exact Eleaf | lia]. }
    destruct (Hperm Ax0) as [PL PR].
    apply Permutation_length in PL, PR.
    rewrite length_take in PL. rewrite length_drop in PR.
    destruct (IH _ _ HL ltac:(lia) El) as [Al _].
    destruct (IH _ _ HR ltac:(lia) Er) as [Ar _].
    cbn [all_leaves node_leaf]. split; [split; assumption|].
    split; [discriminate | lia].
Qed.

(** A second way out of the builder.  Five copies of scenario S1's
    triangle in a scene normalized to size 3.5: the node box is computed
    from the rescaled vertices (area 98) while the sweep uses the boxes
    stored before rescaling (area 2).  With the ratio [2/98] the rounded
    cost of "all five on the left" is strictly the smallest, [splitIndex]
    is 5, the left child receives the whole input again, and the recursion
    ends in a stack overflow whatever the stack size. *)
Lemma buildTree_duplicates_overflow (stack : nat) :
  let T := newTriangle (0, 0, 0)%float (1, 0, 0)%float (0, 1, 0)%float in
  let geometry := normalizeScene 3.5 (boundingBox T) [T; T; T; T; T] in
  newBVH stack geometry 4 = Throw RangeError.
Proof.
  intros T geometry. unfold newBVH.
  apply (buildTree_stuck geometry 4 _
           (Box (-3.5, -3.5, 0)%float (3.5, 3.5, 0)%float) Ax0 5).
  - apply (initial_indices_wf geometry).
  - vm_compute. reflexivity.
  - vm_compute. lia.
  - vm_compute. lia.
Qed.

(** On the tree of a scene that built, neither the packing loop nor the
    autofocus cast throws. *)
Lemma built_tree_is_usable (stack : nat) (triangles : list Triangle) (maxTris : nat)
    (root : Node) (eye dir : vec3) (s : lens) :
  newBVH stack triangles maxTris = Ok root ->
  (exists bvhBuffer trianglesBuffer,
     packBVH triangles root = Ok (bvhBuffer, trianglesBuffer))
  /\ (exists s', shootAutoFocusRay eye dir triangles root s = Ok s').
Proof.
  intros H. unfold newBVH in H.
  pose proof (buildTree_valid _ _ _ _ _ H) as Hv.
  split; [apply packBVH_total; exact Hv|].
  destruct (findTriangles_total eye dir triangles root Hv maxT) as [d Hd].
  unfold shootAutoFocusRay. rewrite Hd. cbn. eauto.
Qed.

(** *** More on the order of binary64 numbers *)

Lemma is_nan_Prim2SF (x : float) :
  PrimFloat.is_nan x = true <-> Prim2SF x = S754_nan.
Proof.
  unfold PrimFloat.is_nan. rewrite FloatAxioms.eqb_spec. unfold SFeqb.
  destruct (Prim2SF x) as [s|s| |s m e]; simpl.
  - split; discriminate.
  - destruct s; split; discriminate.
  - split; reflexivity.
  - destruct s; rewrite Z.compare_refl, ?Pos.compare_cont_refl; simpl;
      split; discriminate.
Qed.

Lemma is_nan_eq (x : float) : PrimFloat.is_nan x = true -> x = nan.
Proof.
  intros H. apply is_nan_Prim2SF in H. apply Prim2SF_inj. rewrite H. reflexivity.
Qed.

Lemma ltb_not_nan (x y : float) :
  (x <? y)%float = true -> PrimFloat.is_nan x = false /\ PrimFloat.is_nan y = false.
Proof.
  rewrite ltb_spec. unfold SFltb. intros H.
  split; apply not_true_is_false; intros Hn; apply is_nan_Prim2SF in Hn;
    rewrite Hn in H; destruct (Prim2SF _); discriminate.
Qed.

Lemma ltb_irrefl (x : float) : (x <? x)%float = false.
Proof.
  destruct (x <? x)%float eqn:E; [|reflexivity].
  exfalso. pose proof E as E'. rewrite ltb_spec in E'. unfold SFltb in E'.
  pose proof (SFcompare_antisym (Prim2SF x) (Prim2SF x)) as A.
  destruct (SFcompare (Prim2SF x) (Prim2SF x)) as [[]|]; simpl in *; discriminate.
Qed.

Lemma ltb_asym (x y : float) : (x <? y)%float = true -> (y <? x)%float = false.
Proof.
  rewrite !ltb_spec. unfold SFltb.
  rewrite (SFcompare_antisym (Prim2SF x) (Prim2SF y)).
  destruct (SFcompare (Prim2SF x) (Prim2SF y)) as [[]|]; simpl; congruence.
Qed.

Lemma SFcompare_Lt_trans (x y z : spec_float) :
  SFcompare x y = Some Lt -> SFcompare y z = Some Lt -> SFcompare x z = Some Lt.
Proof.
  destruct x as [sx|sx| |sx mx ex], y as [sy|sy| |sy my ey], z as [sz|sz| |sz mz ez];
    simpl; try destruct sx; try destruct sy; try destruct sz;
    try discriminate; try reflexivity;
    intros H1 H2; injection H1 as H1; injection H2 as H2; f_equal;
    destruct (Z.compare_spec ex ey), (Z.compare_spec ey ez), (Z.compare_spec ex ez);
    try discriminate; try reflexivity; try lia; subst;
    change (Pos.compare_cont Eq) with Pos.compare in *;
    try (rewrite CompOpp_iff in *; simpl in * );
    rewrite ?Pos.compare_lt_iff, ?Pos.compare_gt_iff in *; lia.
Qed.

Lemma ltb_trans (x y z : float) :
  (x <? y)%float = true -> (y <? z)%float = true -> (x <? z)%float = true.
Proof.
  rewrite !ltb_spec. unfold SFltb.
  destruct (SFcompare (Prim2SF x) (Prim2SF y)) as [[]|] eqn:E1; try discriminate.
  destruct (SFcompare (Prim2SF y) (Prim2SF z)) as [[]|] eqn:E2; try discriminate.
  rewrite (SFcompare_Lt_trans _ _ _ E1 E2). reflexivity.
Qed.

Lemma Prim2SF_infinity : Prim2SF infinity = S754_infinity false.
Proof. reflexivity. Qed.

Lemma Prim2SF_neg_infinity : Prim2SF neg_infinity = S754_infinity true.
Proof. reflexivity. Qed.

(** [+Infinity] is the identity of [Math.min], [-Infinity] of [Math.max],
    on either side and for every number, NaN included. *)
Lemma Math_min_infinity (x : float) :
  Math_min infinity x = x /\ Math_min x infinity = x.
Proof.
  unfold Math_min.
  destruct (PrimFloat.is_nan x) eqn:Hn.
  - apply is_nan_eq in Hn. subst x. split; reflexivity.
  - assert (Hx : Prim2SF x <> S754_nan).
    { intros H. apply is_nan_Prim2SF in H. congruence. }
    assert (H1 : (infinity <? x)%float = false).
    { rewrite ltb_spec, Prim2SF_infinity. unfold SFltb.
      destruct (Prim2SF x) as [s|s| |s m e]; try destruct s; reflexivity. }
    assert (H2 : (x <? infinity)%float = false -> x = infinity).
    { rewrite ltb_spec, Prim2SF_infinity. unfold SFltb. intros H.
      apply Prim2SF_inj. rewrite Prim2SF_infinity.
      destruct (Prim2SF x) as [s|s| |s m e]; try destruct s;
        simpl in H; try discriminate; try reflexivity; congruence. }
    change (PrimFloat.is_nan infinity) with false. simpl. rewrite H1.
    destruct (x <? infinity)%float eqn:E; split; try reflexivity;
      rewrite (H2 eq_refl); reflexivity.
Qed.

Lemma Math_max_neg_infinity (x : float) :
  Math_max neg_infinity x = x /\ Math_max x neg_infinity = x.
Proof.
  unfold Math_max.
  destruct (PrimFloat.is_nan x) eqn:Hn.
  - apply is_nan_eq in Hn. subst x. split; reflexivity.
  - assert (Hx : Prim2SF x <> S754_nan).
    { intros H. apply is_nan_Prim2SF in H. congruence. }
    assert (H1 : (x <? neg_infinity)%float = false).
    { rewrite ltb_spec, Prim2SF_neg_infinity. unfold SFltb.
      destruct (Prim2SF x) as [s|s| |s m e]; try destruct s; reflexivity. }
    assert (H2 : (neg_infinity <? x)%float = false -> x = neg_infinity).
    { rewrite ltb_spec, Prim2SF_neg_infinity. unfold SFltb. intros H.
      apply Prim2SF_inj. rewrite Prim2SF_neg_infinity.
      destruct (Prim2SF x) as [s|s| |s m e]; try destruct s;
        simpl in H; try discriminate; try reflexivity; congruence. }
    change (PrimFloat.is_nan neg_infinity) with false. simpl. rewrite H1.
    destruct (neg_infinity <? x)%float eqn:E; split; try reflexivity;
      rewrite (H2 eq_refl); reflexivity.
Qed.

Lemma Math_min_idem (x : float) : Math_min x x = x.
Proof.
  unfold Math_min. destruct (PrimFloat.is_nan x) eqn:Hn.
  - apply is_nan_eq in Hn. subst x. reflexivity.
  - simpl. rewrite ltb_irrefl. destruct (is_negzero x); reflexivity.
Qed.

Lemma Math_max_idem (x : float) : Math_max x x = x.
Proof.
  unfold Math_max. destruct (PrimFloat.is_nan x) eqn:Hn.
  - apply is_nan_eq in Hn. subst x. reflexivity.
  - simpl. rewrite ltb_irrefl. destruct (is_negzero x); reflexivity.
Qed.

(** [<=] on numbers that are not NaN. *)
Lemma SFcompare_total (x y : spec_float) :
  x <> S754_nan -> y <> S754_nan -> SFcompare x y <> None.
Proof.
  destruct x as [sx|sx| |sx mx ex], y as [sy|sy| |sy my ey]; simpl;
    try destruct sx; try destruct sy; try congruence;
    intros _ _; destruct (ex ?= ey); discriminate.
Qed.

Lemma SFcompare_le_trans (x y z : spec_float) (c1 c2 : comparison) :
  SFcompare x y = Some c1 -> SFcompare y z = Some c2 ->
  c1 <> Gt -> c2 <> Gt ->
  exists c, SFcompare x z = Some c /\ c <> Gt.
Proof.
  destruct x as [sx|sx| |sx mx ex], y as [sy|sy| |sy my ey], z as [sz|sz| |sz mz ez];
    simpl; try destruct sx; try destruct sy; try destruct sz;
    try discriminate;
    intros H1 H2 N1 N2; injection H1 as H1; injection H2 as H2; subst c1 c2;
    try congruence;
    try (eexists; split; [reflexivity|discriminate]);
    change (Pos.compare_cont Eq) with Pos.compare in *;
    destruct (Z.compare_spec ex ey), (Z.compare_spec ey ez), (Z.compare_spec ex ez);
    try congruence; try lia;
    try (eexists; split; [reflexivity|discriminate]);
    destruct (Pos.compare_spec mx my), (Pos.compare_spec my mz),
      (Pos.compare_spec mx mz);
    simpl in *; try congruence; try lia;
    eexists; (split; [reflexivity|discriminate]).
Qed.

Lemma leb_of_not_ltb (x y : float) :
  PrimFloat.is_nan x = false -> PrimFloat.is_nan y = false ->
  (y <? x)%float = false -> (x <=? y)%float = true.
Proof.
  intros Hx Hy. rewrite ltb_spec, leb_spec. unfold SFltb, SFleb.
  assert (Nx : Prim2SF x <> S754_nan).
  { intros E. apply is_nan_Prim2SF in E. congruence. }
  assert (Ny : Prim2SF y <> S754_nan).
  { intros E. apply is_nan_Prim2SF in E. congruence. }
  pose proof (SFcompare_total _ _ Nx Ny) as T.
  rewrite (SFcompare_antisym (Prim2SF x) (Prim2SF y)).
  destruct (SFcompare (Prim2SF x) (Prim2SF y)) as [[]|]; simpl; congruence.
Qed.

Lemma leb_of_ltb (x y : float) : (x <? y)%float = true -> (x <=? y)%float = true.
Proof.
  rewrite ltb_spec, leb_spec. unfold SFltb, SFleb.
  destruct (SFcompare (Prim2SF x) (Prim2SF y)) as [[]|]; simpl; congruence.
Qed.

Lemma leb_refl (x : float) : PrimFloat.is_nan x = false -> (x <=? x)%float = true.
Proof.
  intros Hx. apply leb_of_not_ltb; auto. apply ltb_irrefl.
Qed.

Lemma leb_trans (x y z : float) :
  (x <=? y)%float = true -> (y <=? z)%float = true -> (x <=? z)%float = true.
Proof.
  rewrite !leb_spec. unfold SFleb.
  destruct (SFcompare (Prim2SF x) (Prim2SF y)) as [c1|] eqn:E1; [|discriminate].
  destruct (SFcompare (Prim2SF y) (Prim2SF z)) as [c2|] eqn:E2; [|discriminate].
  intros H1 H2.
  destruct (SFcompare_le_trans _ _ _ _ _ E1 E2) as (c & -> & Hc).
  - destruct c1; congruence.
  - destruct c2; congruence.
  - destruct c; congruence.
Qed.

Lemma leb_not_nan (x y : float) :
  (x <=? y)%float = true -> PrimFloat.is_nan x = false /\ PrimFloat.is_nan y = false.
Proof.
  rewrite leb_spec. unfold SFleb. intros H.
  split; apply not_true_is_false; intros Hn; apply is_nan_Prim2SF in Hn;
    rewrite Hn in H; destruct (Prim2SF _); discriminate.
Qed.

(** [Math.min] and [Math.max] of two numbers return one of them and bound
    both. *)
Lemma Math_min_spec (x y : float) :
  PrimFloat.is_nan x = false -> PrimFloat.is_nan y = false ->
  (Math_min x y = x \/ Math_min x y = y)
  /\ (Math_min x y <=? x)%float = true /\ (Math_min x y <=? y)%float = true.
Proof.
  intros Hx Hy. unfold Math_min. rewrite Hx, Hy. simpl.
  destruct (x <? y)%float eqn:E1.
  { split; [auto|]. split; [apply leb_refl; auto | apply leb_of_ltb; auto]. }
  destruct (y <? x)%float eqn:E2.
  { split; [auto|]. split; [apply leb_of_ltb; auto | apply leb_refl; auto]. }
  destruct (is_negzero x).
  - split; [auto|]. split; [apply leb_refl; auto | apply leb_of_not_ltb; auto].
  - split; [auto|]. split; [apply leb_of_not_ltb; auto | apply leb_refl; auto].
Qed.

Lemma Math_max_spec (x y : float) :
  PrimFloat.is_nan x = false -> PrimFloat.is_nan y = false ->
  (Math_max x y = x \/ Math_max x y = y)
  /\ (x <=? Math_max x y)%float = true /\ (y <=? Math_max x y)%float = true.
Proof.
  intros Hx Hy. unfold Math_max. rewrite Hx, Hy. simpl.
  destruct (x <? y)%float eqn:E1.
  { split; [auto|]. split; [apply leb_of_ltb; auto | apply leb_refl; auto]. }
  destruct (y <? x)%float eqn:E2.
  { split; [auto|]. split; [apply leb_refl; auto | apply leb_of_ltb; auto]. }
  destruct (is_negzero x).
  - split; [auto|]. split; [apply leb_of_not_ltb; auto | apply leb_refl; auto].
  - split; [auto|]. split; [apply leb_refl; auto | apply leb_of_not_ltb; auto].
Qed.

(** *** Bounding boxes *)

(** X1: a freshly constructed box is the identity of [addBoundingBox] on
    both sides, for every box (NaN bounds included), and adding one vertex
    to it gives the degenerate box at that vertex. *)
Theorem emptyBox_identity (b : BoundingBox) (v : vec3) :
  addBoundingBox emptyBox b = b
  /\ addBoundingBox b emptyBox = b
  /\ addVertex emptyBox v = Box v v.
Proof.
  destruct b as [[[a0 a1] a2] [[b0 b1] b2]], v as [[x y] z].
  unfold addBoundingBox, addVertex, emptyBox, Vec3.min, Vec3.max, Vec3.map2; simpl.
  repeat split; f_equal;
    rewrite ?(proj1 (Math_min_infinity _)), ?(proj2 (Math_min_infinity _)),
      ?(proj1 (Math_max_neg_infinity _)), ?(proj2 (Math_max_neg_infinity _));
    reflexivity.
Qed.

Lemma comp_min (a : axis) (v w : vec3) :
  comp a (Vec3.min v w) = Math_min (comp a v) (comp a w).
Proof. destruct v as [[? ?] ?], w as [[? ?] ?], a; reflexivity. Qed.

Lemma comp_max (a : axis) (v w : vec3) :
  comp a (Vec3.max v w) = Math_max (comp a v) (comp a w).
Proof. destruct v as [[? ?] ?], w as [[? ?] ?], a; reflexivity. Qed.

Lemma is_number_comp (v : vec3) :
  is_number v = true <-> forall a, PrimFloat.is_nan (comp a v) = false.
Proof.
  destruct v as [[x y] z]. unfold is_number. split.
  - intros H a. apply andb_prop in H as [H Hz]. apply andb_prop in H as [Hx Hy].
    destruct a; simpl; apply negb_true_iff; assumption.
  - intros H. pose proof (H Ax0) as H0. pose proof (H Ax1) as H1.
    pose proof (H Ax2) as H2. simpl in *. rewrite H0, H1, H2. reflexivity.
Qed.

Lemma inBox_comp (v : vec3) (b : BoundingBox) :
  inBox v b = true <-> forall a, between a v b = true.
Proof.
  unfold inBox. split.
  - intros H a. apply andb_prop in H as [H Hz]. apply andb_prop in H as [Hx Hy].
    destruct a; assumption.
  - intros H. rewrite (H Ax0), (H Ax1), (H Ax2). reflexivity.
Qed.

Lemma addVertex_grows (b : BoundingBox) (w : vec3) :
  number_box b -> is_number w = true ->
  number_box (addVertex b w)
  /\ inBox w (addVertex b w) = true
  /\ forall v, inBox v b = true -> inBox v (addVertex b w) = true.
Proof.
  intros [Hlo Hhi] Hw.
  rewrite is_number_comp in Hlo, Hhi, Hw.
  assert (S : forall a,
    let lo := Math_min (comp a w) (comp a (box_min b)) in
    let hi := Math_max (comp a w) (comp a (box_max b)) in
    PrimFloat.is_nan lo = false /\ PrimFloat.is_nan hi = false
    /\ (lo <=? comp a w)%float = true /\ (comp a w <=? hi)%float = true
    /\ (lo <=? comp a (box_min b))%float = true
    /\ (comp a (box_max b) <=? hi)%float = true).
  { intros a.
    destruct (Math_min_spec _ _ (Hw a) (Hlo a)) as (C1 & L1 & L2).
    destruct (Math_max_spec _ _ (Hw a) (Hhi a)) as (C2 & U1 & U2).
    simpl. repeat split; auto.
    - apply leb_not_nan in L1. tauto.
    - apply leb_not_nan in U1. tauto. }
  split; [|split].
  - split; apply is_number_comp; intros a; simpl;
      rewrite ?comp_min, ?comp_max; apply (S a).
  - apply inBox_comp. intros a. unfold between. simpl.
    rewrite comp_min, comp_max.
    destruct (S a) as (_ & _ & L & U & _). rewrite L, U. reflexivity.
  - intros v Hv. rewrite inBox_comp in Hv. apply inBox_comp. intros a.
    specialize (Hv a). unfold between in *. simpl.
    rewrite comp_min, comp_max.
    apply andb_prop in Hv as [H1 H2].
    destruct (S a) as (_ & _ & _ & _ & L & U).
    rewrite (leb_trans _ _ _ L H1), (leb_trans _ _ _ H2 U). reflexivity.
Qed.

Lemma addTriangle_grows (b : BoundingBox) (t : Triangle) :
  number_box b -> triangle_is_number t = true ->
  number_box (addTriangle b (verts t))
  /\ triangle_in t (addTriangle b (verts t)) = true
  /\ forall v, inBox v b = true -> inBox v (addTriangle b (verts t)) = true.
Proof.
  unfold triangle_is_number, triangle_in, addTriangle.
  destruct (verts t) as [[v0 v1] v2]. intros Hb Ht.
  apply andb_prop in Ht as [Ht H2]. apply andb_prop in Ht as [H0 H1].
  destruct (addVertex_grows b v0 Hb H0) as (B0 & I0 & M0).
  destruct (addVertex_grows _ v1 B0 H1) as (B1 & I1 & M1).
  destruct (addVertex_grows _ v2 B1 H2) as (B2 & I2 & M2).
  split; [assumption|]. split.
  - rewrite (M2 _ (M1 _ I0)), (M2 _ I1), I2. reflexivity.
  - intros v Hv. auto.
Qed.

Lemma foldl_addTriangle_grows (tris : list Triangle) :
  forall b : BoundingBox,
    number_box b -> Forall (fun t => triangle_is_number t = true) tris ->
    let b' := foldl (fun b t => addTriangle b (verts t)) b tris in
    number_box b'
    /\ (forall v, inBox v b = true -> inBox v b' = true)
    /\ Forall (fun t => triangle_in t b' = true) tris.
Proof.
  induction tris as [|t tris IH]; intros b Hb Hn; simpl.
  - split; [assumption|]. split; [auto|constructor].
  - inversion Hn as [|? ? Ht Hn']; subst.
    destruct (addTriangle_grows b t Hb Ht) as (B & I & M).
    destruct (IH _ B Hn') as (B' & M' & F).
    split; [assumption|]. split; [auto|].
    constructor; [|assumption].
    unfold triangle_in in *. destruct (verts t) as [[v0 v1] v2].
    apply andb_prop in I as [I I2]. apply andb_prop in I as [I0 I1].
    rewrite (M' _ I0), (M' _ I1), (M' _ I2). reflexivity.
Qed.

Lemma mapM_Forall2 {A B} (f : A -> result B) (l : list A) :
  forall bs, mapM f l = Ok bs -> Forall2 (fun a b => f a = Ok b) l bs.
Proof.
  induction l as [|a l IH]; simpl; intros bs H.
  - injection H as <-. constructor.
  - destruct (f a) as [b|e] eqn:Ea; simpl in H; [|discriminate].
    destruct (mapM f l) as [bs'|e]; simpl in H; [|discriminate].
    injection H as <-. constructor; auto.
Qed.

(** X2: the box [new Node] computes bounds every vertex of every triangle
    the node references, as long as no coordinate is NaN. *)
Theorem newNode_box_contains (triangles : list Triangle) (ix : indices3)
    (box : BoundingBox) (split : option (axis * nat)) :
  Forall (fun t => triangle_is_number t = true) triangles ->
  newNode triangles ix = Ok (box, split) ->
  forall idx t,
    idx ∈ axis_get Ax0 ix -> tri_at triangles idx = Some t ->
    triangle_in t box = true.
Proof.
  intros Hn H idx t Hidx Ht.
  unfold newNode, addNode in H.
  destruct (mapM _ (axis_get Ax0 ix)) as [tris|e] eqn:E; simpl in H; [|discriminate].
  destruct (setSplit _ _ _) as [sp|e]; simpl in H; [|discriminate].
  injection H as <- _.
  apply mapM_Forall2 in E.
  assert (Hin : t ∈ tris).
  { clear -E Hidx Ht. induction E as [|i b l bs Hi E IH].
    - inversion Hidx.
    - apply elem_of_cons in Hidx as [->|Hidx].
      + rewrite Ht in Hi. simpl in Hi. injection Hi as <-. left.
      + right. auto. }
  assert (Hnum : Forall (fun t => triangle_is_number t = true) tris).
  { clear -E Hn. induction E as [|i b l bs Hi E IH]; constructor; [|assumption].
    destruct (tri_at triangles i) as [t'|] eqn:Et; simpl in Hi; [|discriminate].
    injection Hi as <-. rewrite Forall_forall in Hn. apply Hn.
    unfold tri_at in Et. destruct i as [i|]; simpl in Et; [|discriminate].
    eapply list_elem_of_lookup_2; eauto. }
  assert (Hb : number_box emptyBox) by (split; reflexivity).
  destruct (foldl_addTriangle_grows tris emptyBox Hb Hnum) as (_ & _ & F).
  rewrite Forall_forall in F. auto.
Qed.

Lemma newNode_box_contains_witness :
  let T1 := newTriangle (0, 0, 0)%float (1, 0, 0)%float (0, 1, 0)%float in
  let T2 := newTriangle (15, 0, 0)%float (15.5, 0, 0)%float (15, 1, 0)%float in
  triangle_in T2 (Box (0, 0, 0)%float (15.5, 1, 0)%float) = true.
Proof.
  intros T1 T2.
  apply (newNode_box_contains [T1; T2]
           ([Some 0; Some 1], [Some 0; Some 1], [Some 0; Some 1])%nat
           (Box (0, 0, 0)%float (15.5, 1, 0)%float) (Some (Ax0, 1%nat))
           ltac:(repeat constructor) ltac:(vm_compute; reflexivity)
           (Some 1%nat) T2).
  - apply list_elem_of_lookup_2 with 1%nat. reflexivity.
  - reflexivity.
Defined.

Lemma invoke_coherent (b : Cached.BoundingBox) (m : Cached.method) :
  (forall c, Cached._centroid b = Some c -> c = centroid (forget b)) ->
  (forall c, Cached._centroid (Cached.invoke b m) = Some c ->
             c = centroid (forget (Cached.invoke b m)))
  /\ forget (Cached.invoke b m) = invoke_plain (forget b) m.
Proof.
  intros Hb. destruct m as [v|[[v0 v1] v2]|box|]; simpl.
  - split; [discriminate|reflexivity].
  - split; [discriminate|reflexivity].
  - split; [discriminate|reflexivity].
  - unfold Cached.centroid. destruct (Cached._centroid b) as [c|] eqn:E; simpl.
    + split; [|reflexivity]. intros c' Hc'. apply Hb. congruence.
    + split; [|reflexivity]. intros c' Hc'. injection Hc' as <-. reflexivity.
Qed.

Lemma foldl_invoke_coherent (ms : list Cached.method) :
  forall b : Cached.BoundingBox,
    (forall c, Cached._centroid b = Some c -> c = centroid (forget b)) ->
    let b' := foldl Cached.invoke b ms in
    (forall c, Cached._centroid b' = Some c -> c = centroid (forget b'))
    /\ forget b' = foldl invoke_plain (forget b) ms.
Proof.
  induction ms as [|m ms IH]; intros b Hb; simpl.
  - split; [assumption|reflexivity].
  - destruct (invoke_coherent b m Hb) as [Hc Hf].
    destruct (IH _ Hc) as [Hc' Hf']. split; [assumption|].
    rewrite Hf', Hf. reflexivity.
Qed.

(** X3: whatever methods have been called on a box since its construction,
    the [centroid] getter returns the midpoint of the current [min] and
    [max]: the cache is never stale, and the bounds are those of the box
    without a cache. *)
Theorem centroid_cache_coherent (ms : list Cached.method) :
  let b := foldl Cached.invoke Cached.new ms in
  (Cached.centroid b).1 = centroid (forget b)
  /\ forget b = foldl invoke_plain emptyBox ms
  /\ (Cached.centroid (Cached.centroid b).2).1 = (Cached.centroid b).1.
Proof.
  assert (H0 : forall c, Cached._centroid Cached.new = Some c ->
                         c = centroid (forget Cached.new)) by discriminate.
  destruct (foldl_invoke_coherent ms Cached.new H0) as [Hc Hf].
  simpl. split; [|split].
  - unfold Cached.centroid.
    destruct (Cached._centroid (foldl Cached.invoke Cached.new ms)) as [c|] eqn:E.
    + simpl. auto.
    + reflexivity.
  - exact Hf.
  - unfold Cached.centroid.
    destruct (Cached._centroid (foldl Cached.invoke Cached.new ms)) as [c|] eqn:E;
      simpl; [rewrite E|]; reflexivity.
Qed.

(** *** Sorting the references *)

Lemma compareCentroid_le (triangles : list Triangle) (a : axis) (x y : nat) :
  PrimFloat.is_nan (centroid_at triangles a x) = false ->
  PrimFloat.is_nan (centroid_at triangles a y) = false ->
  if compareCentroid triangles a x y <=? 0
  then centroid_le triangles a x y
  else centroid_le triangles a y x.
Proof.
  unfold centroid_le, centroid_at, compareCentroid.
  destruct (triangles !! x) as [t1|]; [|discriminate].
  destruct (triangles !! y) as [t2|]; [|discriminate].
  set (c1 := comp a (centroid (boundingBox t1))).
  set (c2 := comp a (centroid (boundingBox t2))).
  intros Hx Hy.
  destruct (c1 <? c2)%float eqn:E1; simpl.
  - apply leb_of_ltb. assumption.
  - destruct (c2 <? c1)%float eqn:E2; simpl.
    + apply leb_of_ltb. assumption.
    + apply leb_of_not_ltb; assumption.
Qed.

Lemma sort_insert_sorted (triangles : list Triangle) (a : axis) (x : nat) (l : list nat) :
  PrimFloat.is_nan (centroid_at triangles a x) = false ->
  Forall (fun i => PrimFloat.is_nan (centroid_at triangles a i) = false) l ->
  StronglySorted (centroid_le triangles a) l ->
  StronglySorted (centroid_le triangles a) (sort_insert (compareCentroid triangles a) x l).
Proof.
  intros Hx. induction l as [|y l IH]; intros Hl Hs; simpl.
  - repeat constructor.
  - inversion Hl as [|? ? Hy Hl']; subst.
    inversion Hs as [|? ? Hs' Hall]; subst.
    pose proof (compareCentroid_le triangles a x y Hx Hy) as C.
    destruct (compareCentroid triangles a x y <=? 0).
    + constructor; [assumption|]. constructor; [assumption|].
      eapply Forall_impl; [exact Hall|]. intros z Hz.
      unfold centroid_le in *. eapply leb_trans; eassumption.
    + constructor; [auto|].
      apply Forall_forall. intros z Hz.
      rewrite (sort_insert_perm _ x l) in Hz.
      apply elem_of_cons in Hz as [->|Hz]; [assumption|].
      rewrite Forall_forall in Hall. auto.
Qed.

(** X4: [_sortIndices] rearranges the references without losing or
    repeating any, and orders them by centroid coordinate on the axis: a
    reference never comes after one with a larger coordinate.  The
    centroids must be numbers, so that the comparator is consistent. *)
Theorem _sortIndices_sorted (triangles : list Triangle) (l : list nat) (a : axis) :
  Forall (fun i => PrimFloat.is_nan (centroid_at triangles a i) = false) l ->
  _sortIndices triangles l a ≡ₚ l
  /\ StronglySorted (centroid_le triangles a) (_sortIndices triangles l a).
Proof.
  intros Hl. split; [apply _sortIndices_perm|].
  unfold _sortIndices. induction l as [|x l IH]; simpl.
  - constructor.
  - inversion Hl as [|? ? Hx Hl']; subst.
    apply sort_insert_sorted; auto.
    eapply Forall_forall. intros i Hi.
    change (foldr (sort_insert (compareCentroid triangles a)) [] l)
      with (_sortIndices triangles l a) in Hi.
    rewrite _sortIndices_perm in Hi. rewrite Forall_forall in Hl'. auto.
Qed.

Lemma _sortIndices_sorted_witness :
  let T1 := newTriangle (0, 0, 0)%float (1, 0, 0)%float (0, 1, 0)%float in
  let T2 := newTriangle (15, 0, 0)%float (15.5, 0, 0)%float (15, 1, 0)%float in
  let T3 := newTriangle (15.5, 0, 0)%float (16, 0, 0)%float (15.5, 1, 0)%float in
  _sortIndices [T3; T1; T2] [0; 1; 2]%nat Ax0 ≡ₚ [0; 1; 2]%nat
  /\ StronglySorted (centroid_le [T3; T1; T2] Ax0)
       (_sortIndices [T3; T1; T2] [0; 1; 2]%nat Ax0).
Proof.
  intros T1 T2 T3.
  apply (_sortIndices_sorted [T3; T1; T2] [0; 1; 2]%nat Ax0).
  repeat constructor.
Defined.

(** *** The split *)

Lemma costLoop_range (ix : indices3) (P : float) (a : axis) (sf sb : list float)
    (st : best) :
  (forall a' k', st.2 = Some (a', k') -> (1 <= k' <= length (axis_get a' ix))%nat) ->
  forall a' k',
    (costLoop P a sf sb (length (axis_get a ix)) st).2 = Some (a', k') ->
    (1 <= k' <= length (axis_get a' ix))%nat.
Proof.
  unfold costLoop.
  assert (Hjs : Forall (fun i => (i < length (axis_get a ix))%nat)
                       (seq 0 (length (axis_get a ix)))).
  { apply Forall_forall. intros i Hi. apply elem_of_seq in Hi. lia. }
  revert Hjs. generalize (seq 0 (length (axis_get a ix))).
  intros js Hjs. revert st.
  induction js as [|i js IH]; intros st Hst; [exact Hst|].
  inversion Hjs as [|? ? Hi Hjs']; subst.
  cbn [foldl]. apply IH; [assumption|].
  destruct (_ <? st.1)%float; [|exact Hst].
  intros a' k' [= <- <-]. lia.
Qed.

(** X5: the split [setSplit] selects names an axis and an index between 1
    and the number of references of the node, both included: the index may
    equal the count, which puts every triangle on the left. *)
Theorem setSplit_index_range (triangles : list Triangle) (ix : indices3)
    (box : BoundingBox) (a : axis) (k : nat) :
  setSplit triangles ix box = Ok (Some (a, k)) ->
  (1 <= k <= length (axis_get a ix))%nat.
Proof.
  unfold setSplit, splitAxisLoop. intros H.
  destruct (mapM _ (axis_get Ax0 ix)) as [t0|]; cbn [mbind result_bind] in H; [|discriminate].
  destruct (mapM _ (axis_get Ax1 ix)) as [t1|]; cbn [mbind result_bind] in H; [|discriminate].
  destruct (mapM _ (axis_get Ax2 ix)) as [t2|]; cbn [mbind result_bind] in H; [|discriminate].
  injection H as H. revert H.
  apply costLoop_range, costLoop_range, costLoop_range.
  intros ? ? [=].
Qed.

Lemma setSplit_index_range_witness :
  let T := newTriangle (0, 0, 0)%float (1, 0, 0)%float (0, 1, 0)%float in
  let geometry := normalizeScene 3.5 (boundingBox T) [T; T; T; T; T] in
  (1 <= 5 <= length (axis_get Ax0 (Some <$> seq 0 5, Some <$> seq 0 5, Some <$> seq 0 5)))%nat.
Proof.
  intros T geometry.
  apply (setSplit_index_range geometry
           (Some <$> seq 0 5, Some <$> seq 0 5, Some <$> seq 0 5)
           (Box (-3.5, -3.5, 0)%float (3.5, 3.5, 0)%float) Ax0 5).
  vm_compute. reflexivity.
Defined.

(** *** The tree of a scene *)

Lemma length_initial_indices (triangles : list Triangle) (a : axis) :
  length (Some <$> _sortIndices triangles (seq 0 (length triangles)) a
          : jsarray) = length triangles.
Proof.
  rewrite length_fmap, (Permutation_length (_sortIndices_perm _ _ _)), length_seq.
  reflexivity.
Qed.

(** X6: in the tree [new BVH] returns for a scene that is not empty, every
    leaf holds at least one and at most [maxTris] triangle references, and
    the root is a leaf exactly when the scene has at most [maxTris]
    triangles. *)
Theorem newBVH_leaf_rule (stack : nat) (triangles : list Triangle) (maxTris : nat)
    (root : Node) :
  newBVH stack triangles maxTris = Ok root ->
  (1 <= length triangles)%nat ->
  all_leaves (fun l => (1 <= length l <= maxTris)%nat) root
  /\ (node_leaf root = true <-> (length triangles <= maxTris)%nat).
Proof.
  intros H Hne. unfold newBVH in H.
  pose proof (initial_indices_wf triangles) as Hwf. cbv zeta in Hwf.
  pose proof (length_initial_indices triangles Ax0) as Hlen.
  destruct (buildTree_leaf_rule _ _ _ _ _ Hwf ltac:(cbn [axis_get]; lia) H) as [A B].
  cbn [axis_get] in B. rewrite Hlen in B. split; assumption.
Qed.

Lemma newBVH_leaf_rule_witness :
  let T1 := newTriangle (0, 0, 0)%float (1, 0, 0)%float (0, 1, 0)%float in
  let T2 := newTriangle (15, 0, 0)%float (15.5, 0, 0)%float (15, 1, 0)%float in
  let T3 := newTriangle (15.5, 0, 0)%float (16, 0, 0)%float (15.5, 1, 0)%float in
  let root :=
    Inner (Box (0, 0, 0)%float (16, 1, 0)%float) Ax0 2
      (Leaf (Box (0, 0, 0)%float (15.5, 1, 0)%float)
            ([Some 1; Some 2], [Some 1; Some 2], [Some 1; Some 2])%nat
            (Some (Ax0, 1%nat)))
      (Leaf (Box (15.5, 0, 0)%float (16, 1, 0)%float)
            ([Some 0], [Some 0], [Some 0])%nat (Some (Ax0, 1%nat))) in
  all_leaves (fun l => (1 <= length l <= 2)%nat) root
  /\ (node_leaf root = true <-> (length [T3; T1; T2] <= 2)%nat).
Proof.
  intros T1 T2 T3 root.
  apply (newBVH_leaf_rule 2 [T3; T1; T2] 2 root).
  - vm_compute. reflexivity.
  - simpl. lia.
Defined.

(** X7: what a split does to the builder.  When [buildTree] returns an
    inner node, its split index is strictly inside the node's references
    and the two subtrees hold exactly the first [k] and the remaining
    ones; a node whose selected split keeps every reference on the left
    never returns, whatever the stack size. *)
Theorem buildTree_split_proper (triangles : list Triangle) (maxTriangles : nat)
    (ix : indices3) :
  wf_indices ix ->
  (forall stack box a k l r,
     buildTree stack triangles maxTriangles ix = Ok (Inner box a k l r) ->
     (1 <= k < length (axis_get a ix))%nat
     /\ length (leafRefs l) = k
     /\ length (leafRefs r) = (length (axis_get a ix) - k)%nat)
  /\ (forall box a k,
        newNode triangles ix = Ok (box, Some (a, k)) ->
        (maxTriangles < length (axis_get a ix))%nat ->
        (length (axis_get a ix) <= k)%nat ->
        forall stack, buildTree stack triangles maxTriangles ix = Throw RangeError).
Proof.
  intros Hwf. split.
  - intros stack box a k l r H.
    destruct (buildTree_inner _ _ _ _ _ _ _ _ _ H)
      as (stack' & L & R & -> & En & Hbig & E & El & Er).
    pose proof (setSplit_index _ _ _ _ _ (proj2 (newNode_valid _ _ _ _ En))) as Hk1.
    assert (Hk : (k < length (axis_get a ix))%nat).
    { destruct (decide (k < length (axis_get a ix))%nat) as [|Hge]; [assumption|].
      rewrite (buildTree_stuck triangles maxTriangles ix box a k Hwf En) in H;
        [discriminate | exact Hbig | lia]. }
    destruct (split_children_wf ix a k Hwf) as (L' & R' & E' & HL & HR & _ & _ & _ & Hperm).
    rewrite E in E'. injection E' as <- <-.
    destruct (Hperm Ax0) as [PL PR].
    apply Permutation_length in PL, PR.
    rewrite length_take in PL. rewrite length_drop in PR.
    rewrite (Permutation_length (buildTree_leafRefs _ _ _ _ _ HL El)).
    rewrite (Permutation_length (buildTree_leafRefs _ _ _ _ _ HR Er)).
    lia.
  - intros box a k En Hbig Hk stack.
    exact (buildTree_stuck triangles maxTriangles ix box a k Hwf En Hbig Hk stack).
Qed.

Lemma buildTree_split_proper_witness :
  let T := newTriangle (0, 0, 0)%float (1, 0, 0)%float (0, 1, 0)%float in
  let geometry := normalizeScene 3.5 (boundingBox T) [T; T; T; T; T] in
  let ix : indices3 := (Some <$> seq 0 5, Some <$> seq 0 5, Some <$> seq 0 5) in
  buildTree 7 geometry 4 ix = Throw RangeError.
Proof.
  intros T geometry ix.
  assert (Hwf : wf_indices ix).
  { unfold wf_indices, ix; cbn [axis_get]. repeat split.
    - apply (bool_decide_unpack _). vm_compute. exact I.
    - apply (bool_decide_unpack _). vm_compute. exact I.
    - reflexivity.
    - reflexivity. }
  apply (proj2 (buildTree_split_proper geometry 4 ix Hwf)
           (Box (-3.5, -3.5, 0)%float (3.5, 3.5, 0)%float) Ax0 5%nat).
  - vm_compute. reflexivity.
  - vm_compute. lia.
  - vm_compute. lia.
Defined.

Lemma buildTree_depth_height (triangles : list Triangle) (maxTriangles : nat) :
  forall (stack : nat) (ix : indices3) (depth this_depth : nat),
    buildTree_depth stack triangles maxTriangles ix depth this_depth
    = (t ← buildTree stack triangles maxTriangles ix;
       Ok (t, Nat.max this_depth (depth + height t)%nat)).
Proof.
  induction stack as [|stack IH]; intros ix depth this_depth; [reflexivity|].
  cbn [buildTree_depth buildTree].
  destruct (newNode triangles ix) as [[box split]|]; cbn [mbind result_bind];
    [|reflexivity].
  destruct (_ <=? maxTriangles)%nat.
  { cbn [mbind result_bind height]. do 2 f_equal. lia. }
  destruct (_constructCachedIndexList ix split) as [[L R]|]; cbn [mbind result_bind];
    [|reflexivity].
  rewrite IH.
  destruct (buildTree stack triangles maxTriangles L) as [l|]; cbn [mbind result_bind];
    [|reflexivity].
  rewrite IH.
  destruct (buildTree stack triangles maxTriangles R) as [r|]; cbn [mbind result_bind];
    [|reflexivity].
  destruct split as [[a k]|]; [|reflexivity].
  cbn [mbind result_bind height]. do 2 f_equal. lia.
Qed.

(** X8: the [depth] field a BVH ends up with is the height of its tree
    (the number of edges from the root to the deepest leaf), and keeping
    the field changes neither the tree nor the cases in which the
    constructor throws. *)
Theorem newBVH_depth_is_height (stack : nat) (triangles : list Triangle) (maxTris : nat) :
  newBVH_depth stack triangles maxTris
  = (root ← newBVH stack triangles maxTris; Ok (root, height root)).
Proof.
  unfold newBVH_depth, newBVH. rewrite buildTree_depth_height.
  destruct (buildTree _ _ _ _); reflexivity.
Qed.

(** *** Serialized and packed trees *)

Lemma head_preorder (n : Node) : head (preorder n) = Some n.
Proof. destruct n; reflexivity. Qed.

(** X9: in the array [serializeTree] returns, the [left] and [right]
    ordinals of an inner node's entry are the positions of the entries of
    its two children, both further down the array; the array has one entry
    per node. *)
Theorem serializeTree_children (root : Node) (p : nat) (e : entry)
    (box : BoundingBox) (a : axis) (k : nat) (l r : Node) :
  serializeTree root !! p = Some e ->
  e_node e = Inner box a k l r ->
  length (serializeTree root) = size root
  /\ exists pl pr el er,
       e_left e = Some (Z.of_nat pl) /\ e_right e = Some (Z.of_nat pr)
       /\ (p < pl < pr)%nat
       /\ serializeTree root !! pl = Some el /\ e_node el = l
       /\ serializeTree root !! pr = Some er /\ e_node er = r.
Proof.
  intros Hp Hn. split.
  { rewrite serializeTree_entries. apply length_entries. }
  pose proof (serializeTree_block root p e Hp) as B. rewrite Hn in B.
  destruct B as (Hl & Hr & pre & bl & br & post & E & Hpre & Hbl & Hbr).
  assert (Hlen : length bl = size l).
  { rewrite <- (length_fmap e_node), Hbl.
    rewrite <- (entries_preorder 0 l), length_fmap. apply length_entries. }
  destruct bl as [|el bl'].
  { destruct l; discriminate. }
  destruct br as [|er br'].
  { destruct r; discriminate. }
  assert (Hel : e_node el = l).
  { pose proof (head_preorder l) as H. rewrite <- Hbl in H.
    simpl in H. congruence. }
  assert (Her : e_node er = r).
  { pose proof (head_preorder r) as H. rewrite <- Hbr in H.
    simpl in H. congruence. }
  exists (S p), (S p + size l)%nat, el, er.
  split; [rewrite Hl; f_equal; lia|].
  split; [rewrite Hr; f_equal; lia|].
  split; [simpl in Hlen; lia|].
  rewrite E. split; [|split; [assumption|split; [|assumption]]].
  - rewrite lookup_app_r by lia.
    replace (S p - length pre)%nat with 1%nat by lia. reflexivity.
  - rewrite lookup_app_r by lia.
    replace (S p + size l - length pre)%nat with (S (size l)) by lia.
    cbn [lookup list_lookup].
    change (((el :: bl') ++ er :: (br' ++ post)) !! size l = Some er).
    apply list_lookup_middle. symmetry. exact Hlen.
Qed.

Lemma serializeTree_children_witness :
  let T := newTriangle (0, 0, 0)%float (1, 0, 0)%float (0, 1, 0)%float in
  let b := boundingBox T in
  let l := Leaf b ([Some 0%nat], [Some 0%nat], [Some 0%nat]) (Some (Ax0, 1%nat)) in
  let r := Leaf b ([Some 1%nat], [Some 1%nat], [Some 1%nat]) (Some (Ax0, 1%nat)) in
  let root := Inner b Ax0 1 (Inner b Ax1 1 l r) r in
  let e := Entry (Inner b Ax1 1 l r) (Some 2) (Some 3) in
  length (serializeTree root) = size root
  /\ exists pl pr el er,
       e_left e = Some (Z.of_nat pl) /\ e_right e = Some (Z.of_nat pr)
       /\ (1 < pl < pr)%nat
       /\ serializeTree root !! pl = Some el /\ e_node el = l
       /\ serializeTree root !! pr = Some er /\ e_node er = r.
Proof.
  intros T b l r root e.
  apply (serializeTree_children root 1 e b Ax1 1 l r); reflexivity.
Defined.

Lemma length_recordsOf (es : list entry) :
  forall c, length (recordsOf c es) = (9 * length es)%nat.
Proof.
  induction es as [|e es IH]; intros c; [reflexivity|].
  cbn [recordsOf]. rewrite length_app, recordOf_length, IH. simpl. lia.
Qed.

Lemma trianglesOf_all (triangles : list Triangle) :
  trianglesOf triangles (Some <$> seq 0 (length triangles)) = triangles.
Proof.
  unfold trianglesOf.
  assert (G : forall pre l : list Triangle,
             omap (tri_at (pre ++ l)) (Some <$> seq (length pre) (length l)) = l).
  { intros pre l. revert pre. induction l as [|t l IH]; intros pre; [reflexivity|].
    cbn [length seq fmap list_fmap omap list_omap].
    unfold tri_at at 1. simpl.
    rewrite lookup_app_r by lia. rewrite Nat.sub_diag. simpl. f_equal.
    specialize (IH (pre ++ [t])). rewrite <- app_assoc, length_app in IH.
    simpl in IH. rewrite Nat.add_1_r in IH. exact IH. }
  exact (G [] triangles).
Qed.

(** X10: in the tree of a scene every leaf reference names a triangle, so
    [getTriangles] yields no [undefined] while the tree is packed, and the
    two buffers [packEntry] fills are determined: [bvhBuffer] gets nine
    cells per node, and [trianglesBuffer] is the nine coordinates of every
    triangle of the scene, each triangle exactly once, in leaf order.
    The material, normal and uv pushes of the same loop are not part of
    [packEntry]; nothing is said about them, nor about whether the whole
    loop can throw. *)
Theorem packBVH_covers_scene (stack : nat) (triangles : list Triangle) (maxTris : nat)
    (root : Node) :
  newBVH stack triangles maxTris = Ok root ->
  valid_tree triangles root
  /\ exists bvhBuffer trianglesBuffer,
       packBVH triangles root = Ok (bvhBuffer, trianglesBuffer)
       /\ length bvhBuffer = (9 * size root)%nat
       /\ trianglesBuffer = concat (vertsOf <$> trianglesOf triangles (leafRefs root))
       /\ trianglesOf triangles (leafRefs root) ≡ₚ triangles
       /\ length trianglesBuffer = (9 * length triangles)%nat.
Proof.
  intros H.
  pose proof (newBVH_each_triangle_once _ _ _ _ H) as [P _].
  unfold newBVH in H. pose proof (buildTree_valid _ _ _ _ _ H) as Hv.
  split; [exact Hv|].
  destruct (packBVH_total triangles root Hv) as (bb & tb & E).
  exists bb, tb. split; [exact E|].
  unfold packBVH in E.
  destruct (packLoop_records _ _ _ _ _ _ 0%nat E eq_refl) as (Hbb & _).
  pose proof (packLoop_flat _ _ _ _ _ _ E) as Htb.
  rewrite serializeTree_entries, entries_preorder, own_refs_preorder in Htb.
  simpl in Htb, Hbb.
  assert (Hperm : trianglesOf triangles (leafRefs root) ≡ₚ triangles).
  { unfold trianglesOf. rewrite P. fold (trianglesOf triangles (Some <$> seq 0 (length triangles))).
    rewrite trianglesOf_all. reflexivity. }
  split; [|split; [exact Htb|split; [exact Hperm|]]].
  - rewrite Hbb, length_recordsOf, serializeTree_entries, length_entries. reflexivity.
  - rewrite Htb, length_concat_vertsOf, (Permutation_length Hperm). reflexivity.
Qed.

Lemma packBVH_covers_scene_witness :
  let T1 := newTriangle (0, 0, 0)%float (1, 0, 0)%float (0, 1, 0)%float in
  let T2 := newTriangle (15, 0, 0)%float (15.5, 0, 0)%float (15, 1, 0)%float in
  let T3 := newTriangle (15.5, 0, 0)%float (16, 0, 0)%float (15.5, 1, 0)%float in
  let triangles := [T3; T1; T2] in
  let root :=
    Inner (Box (0, 0, 0)%float (16, 1, 0)%float) Ax0 2
      (Leaf (Box (0, 0, 0)%float (15.5, 1, 0)%float)
            ([Some 1; Some 2], [Some 1; Some 2], [Some 1; Some 2])%nat
            (Some (Ax0, 1%nat)))
      (Leaf (Box (15.5, 0, 0)%float (16, 1, 0)%float)
            ([Some 0], [Some 0], [Some 0])%nat (Some (Ax0, 1%nat))) in
  valid_tree triangles root
  /\ exists bvhBuffer trianglesBuffer,
       packBVH triangles root = Ok (bvhBuffer, trianglesBuffer)
       /\ length bvhBuffer = (9 * size root)%nat
       /\ trianglesBuffer = concat (vertsOf <$> trianglesOf triangles (leafRefs root))
       /\ trianglesOf triangles (leafRefs root) ≡ₚ triangles
       /\ length trianglesBuffer = (9 * length triangles)%nat.
Proof.
  intros T1 T2 T3 triangles root.
  apply (packBVH_covers_scene 2 triangles 2 root).
  vm_compute. reflexivity.
Defined.

(** X11: an empty scene builds, whatever the leaf size: the tree is a
    single leaf with the inverted infinite box and no split; it packs into
    one record and no triangle, and the autofocus ray reports the
    sentinel distance. *)
Theorem empty_scene (stack maxTris : nat) (eye dir : vec3) (s : lens) :
  let root := Leaf emptyBox ([], [], []) None in
  newBVH (S stack) [] maxTris = Ok root
  /\ newBVH_depth (S stack) [] maxTris = Ok (root, 0%nat)
  /\ packBVH [] root
     = Ok ([Undefined; Undefined; Int 0;
            Num infinity; Num infinity; Num infinity;
            Num neg_infinity; Num neg_infinity; Num neg_infinity], [])
  /\ shootAutoFocusRay eye dir [] root s
     = Ok (Lens ((1 - 1 / maxT)%float, (lensFeatures s).2) (toFixed 3 maxT)).
Proof.
  intros root.
  assert (H : newBVH (S stack) [] maxTris = Ok root) by reflexivity.
  split; [exact H|]. split.
  - unfold newBVH_depth. rewrite buildTree_depth_height.
    unfold newBVH in H. simpl length in *. rewrite H. reflexivity.
  - split; reflexivity.
Qed.

(** *** Masking and padding the buffers *)

Lemma lookup_insert_dec {A} (l : list A) (i n : nat) (x : A) :
  <[i := x]> l !! n = if decide (i = n) then (fun _ => x) <$> l !! n else l !! n.
Proof.
  destruct (decide (i = n)) as [->|Hne].
  - destruct (l !! n) as [y|] eqn:E; simpl.
    + apply list_lookup_insert_eq. apply lookup_lt_Some in E. exact E.
    + apply lookup_ge_None. rewrite length_insert. apply lookup_ge_None. exact E.
  - apply list_lookup_insert_ne. exact Hne.
Qed.

Lemma foldl_insert_lookup {A} (f : nat -> A) (ps : list nat) :
  forall (m : list A) (n : nat),
    foldl (fun m p => <[p := f p]> m) m ps !! n
    = if decide (n ∈ ps) then (fun _ => f n) <$> m !! n else m !! n.
Proof.
  induction ps as [|p ps IH]; intros m n; cbn [foldl].
  - destruct (decide (n ∈ [])) as [H|]; [inversion H|reflexivity].
  - rewrite IH, lookup_insert_dec.
    destruct (decide (n ∈ ps)) as [Hin|Hnin].
    + destruct (decide (n ∈ p :: ps)) as [_|Hn]; [|exfalso; apply Hn; right; exact Hin].
      destruct (decide (p = n)); [|reflexivity].
      destruct (m !! n); reflexivity.
    + destruct (decide (p = n)) as [->|Hne].
      * destruct (decide (n ∈ n :: ps)) as [_|Hn]; [reflexivity|].
        exfalso. apply Hn. left.
      * destruct (decide (n ∈ p :: ps)) as [Hn|_]; [|reflexivity].
        apply elem_of_cons in Hn as [->|Hn]; contradiction.
Qed.

Lemma maskBVHBuffer_positions (buf : list jsval) :
  maskBVHBuffer buf
  = foldl (fun m p => <[p := Float32 (default Undefined (buf !! p))]> m)
          ((fun v => IntBits (ToInt32 v)) <$> buf)
          (((fun n => (9 * n)%nat) <$> seq 0 (ceil_div (length buf) 9))
             ≫= fun i => (fun j => (i + j)%nat) <$> seq 3 6).
Proof.
  unfold maskBVHBuffer.
  generalize ((fun v => IntBits (ToInt32 v)) <$> buf).
  generalize ((fun n => (9 * n)%nat) <$> seq 0 (ceil_div (length buf) 9)).
  intros ks. induction ks as [|k ks IH]; intros m; [reflexivity|].
  cbn [foldl mbind list_bind]. rewrite foldl_app, IH. f_equal.
Qed.

Lemma written_position (len n : nat) :
  (n < len)%nat ->
  n ∈ (((fun n => (9 * n)%nat) <$> seq 0 (ceil_div len 9))
         ≫= fun i => (fun j => (i + j)%nat) <$> seq 3 6)
  <-> (3 <= n mod 9)%nat.
Proof.
  intros Hn. rewrite list_elem_of_bind. split.
  - intros (i & Hj & Hi).
    apply list_elem_of_fmap in Hi as (k & -> & _).
    apply list_elem_of_fmap in Hj as (j & -> & Hj).
    apply elem_of_seq in Hj.
    rewrite Nat.add_comm, Nat.mul_comm, Nat.Div0.mod_add.
    rewrite Nat.mod_small by lia. lia.
  - intros Hm. exists (9 * (n / 9))%nat. split.
    + apply list_elem_of_fmap. exists (n mod 9)%nat. split.
      * apply Nat.div_mod_eq.
      * apply elem_of_seq. pose proof (Nat.mod_upper_bound n 9). lia.
    + apply list_elem_of_fmap. exists (n / 9)%nat. split; [reflexivity|].
      apply elem_of_seq. split; [lia|]. unfold ceil_div.
      assert (n / 9 < (len + 9 - 1) / 9)%nat; [|lia].
      apply Nat.Div0.div_lt_upper_bound.
      pose proof (Nat.div_mod_eq (len + 9 - 1) 9) as E.
      pose proof (Nat.mod_upper_bound (len + 9 - 1) 9). lia.
Qed.

Lemma maskBVHBuffer_lookup (buf : list jsval) (n : nat) :
  maskBVHBuffer buf !! n
  = (fun v => if (n mod 9 <? 3)%nat then IntBits (ToInt32 v) else Float32 v)
      <$> buf !! n.
Proof.
  rewrite maskBVHBuffer_positions, foldl_insert_lookup, list_lookup_fmap.
  destruct (buf !! n) as [v|] eqn:E; cbn [fmap option_fmap option_map from_option id].
  - pose proof (written_position (length buf) n (lookup_lt_Some _ _ _ E)) as W.
    destruct (decide _) as [Hin|Hnin].
    + apply W in Hin. replace (n mod 9 <? 3)%nat with false; [reflexivity|].
      symmetry. apply Nat.ltb_ge. exact Hin.
    + replace (n mod 9 <? 3)%nat with true; [reflexivity|].
      symmetry. apply Nat.ltb_lt.
      destruct (decide (3 <= n mod 9)%nat) as [H|H]; [|lia].
      apply W in H. contradiction.
  - destruct (decide _); reflexivity.
Qed.

(** X12: [maskBVHBuffer] keeps the length of the buffer; in every group of
    nine cells, the first three hold the bits of the [Int32] conversion of
    the value and the other six the value itself, stored as a float.  An
    integer within the [Int32] range survives the conversion unchanged. *)
Theorem maskBVHBuffer_cells (buf : list jsval) :
  length (maskBVHBuffer buf) = length buf
  /\ (forall n,
        maskBVHBuffer buf !! n
        = (fun v => if (n mod 9 <? 3)%nat then IntBits (ToInt32 v) else Float32 v)
            <$> buf !! n)
  /\ (forall z, - 2 ^ 31 <= z < 2 ^ 31 -> ToInt32 (Int z) = z).
Proof.
  pose proof (maskBVHBuffer_lookup buf) as L.
  split; [|split; [exact L|]].
  - apply Nat.le_antisymm.
    + destruct (decide (length (maskBVHBuffer buf) <= length buf)%nat) as [|H];
        [assumption|].
      destruct (lookup_lt_is_Some_2 (maskBVHBuffer buf) (length buf)) as [c Hc]; [lia|].
      rewrite L, (proj2 (lookup_ge_None buf (length buf))) in Hc by lia.
      discriminate.
    + destruct (decide (length buf <= length (maskBVHBuffer buf))%nat) as [|H];
        [assumption|].
      destruct (lookup_lt_is_Some_2 buf (length (maskBVHBuffer buf))) as [c Hc]; [lia|].
      pose proof (L (length (maskBVHBuffer buf))) as E. rewrite Hc in E.
      rewrite (proj2 (lookup_ge_None _ _)) in E by lia. discriminate.
  - intros z Hz. unfold ToInt32, wrap32.
    rewrite Z.mod_small by lia. lia.
Qed.

(** X13: in the texture uploaded for the tree (the packed buffer, padded
    and masked), cells 3 to 8 of the record of every node hold the
    [min] and [max] corners of the node's box, as floats. *)
Theorem bvh_texture_boxes (triangles : list Triangle) (root : Node)
    (bvhBuffer : list jsval) (trianglesBuffer : list float) (p j : nat) (e : entry) :
  packBVH triangles root = Ok (bvhBuffer, trianglesBuffer) ->
  serializeTree root !! p = Some e ->
  (j < 6)%nat ->
  maskBVHBuffer (padBuffer bvhBuffer 3 3) !! (9 * p + 3 + j)%nat
  = (fun x => Float32 (Num x))
      <$> (spread (box_min (node_box (e_node e)))
           ++ spread (box_max (node_box (e_node e)))) !! j.
Proof.
  intros H Hp Hj. unfold packBVH in H.
  destruct (packLoop_records _ _ _ _ _ _ 0%nat H eq_refl) as (Hbb & _).
  simpl in Hbb.
  assert (Hcell : bvhBuffer !! (9 * p + 3 + j)%nat
                  = Num <$> (spread (box_min (node_box (e_node e)))
                             ++ spread (box_max (node_box (e_node e)))) !! j).
  { rewrite Hbb. replace (9 * p + 3 + j)%nat with (9 * p + (3 + j))%nat by lia.
    rewrite (recordsOf_lookup _ _ _ _ _ Hp) by lia.
    unfold recordOf.
    destruct (box_min (node_box (e_node e))) as [[a0 a1] a2].
    destruct (box_max (node_box (e_node e))) as [[b0 b1] b2].
    do 6 (destruct j as [|j]; [reflexivity|]). lia. }
  rewrite maskBVHBuffer_lookup.
  replace ((9 * p + 3 + j) mod 9 <? 3)%nat with false.
  2:{ symmetry. apply Nat.ltb_ge.
      replace (9 * p + 3 + j)%nat with ((3 + j) + p * 9)%nat by lia.
      rewrite Nat.Div0.mod_add, Nat.mod_small by lia. lia. }
  destruct (bvhBuffer !! (9 * p + 3 + j)%nat) as [v|] eqn:E.
  - rewrite (padBuffer_keeps _ _ _ _ _ E).
    destruct ((spread _ ++ spread _) !! j) as [x|]; simpl in Hcell |- *;
      [injection Hcell as ->; reflexivity | discriminate].
  - exfalso.
    destruct (box_min (node_box (e_node e))) as [[a0 a1] a2].
    destruct (box_max (node_box (e_node e))) as [[b0 b1] b2].
    do 6 (destruct j as [|j]; [discriminate|]). lia.
Qed.

Lemma bvh_texture_boxes_witness :
  let T := newTriangle (0, 0, 0)%float (1, 0, 0)%float (0, 1, 0)%float in
  let root := Leaf (boundingBox T) ([Some 0%nat], [Some 0%nat], [Some 0%nat])
                   (Some (Ax0, 1%nat)) in
  let e := Entry root None None in
  maskBVHBuffer (padBuffer (bvhBufferOf [T] root) 3 3) !! (9 * 0 + 3 + 4)%nat
  = (fun x => Float32 (Num x))
      <$> (spread (box_min (node_box (e_node e)))
           ++ spread (box_max (node_box (e_node e)))) !! 4%nat.
Proof.
  intros T root e.
  apply (bvh_texture_boxes [T] root (bvhBufferOf [T] root)
           (concat (vertsOf <$> [T])) 0 4 e); [reflexivity | reflexivity | lia].
Defined.

Lemma ceil_div_spec (a b : nat) :
  (0 < b)%nat -> (a <= ceil_div a b * b < a + b)%nat.
Proof.
  intros Hb. unfold ceil_div.
  pose proof (Nat.div_mod_eq (a + b - 1) b) as E.
  pose proof (Nat.mod_upper_bound (a + b - 1) b ltac:(lia)) as U.
  nia.
Qed.

Lemma ceil_sqrt_pos (n : nat) : (0 < n)%nat -> (0 < ceil_sqrt n)%nat.
Proof.
  intros Hn. unfold ceil_sqrt.
  destruct (Nat.sqrt n * Nat.sqrt n =? n)%nat eqn:E; [|lia].
  apply Nat.eqb_eq in E. destruct (Nat.sqrt n); simpl in E; lia.
Qed.

(** X14: applied to a non-empty buffer whose length is a multiple of
    [channels], [padBuffer] returns a width that is a positive multiple of
    [perElement] and a height such that the padded buffer fills the
    [width] x [height] texture exactly; the original numbers stay in front,
    the padding is all [-1] and shorter than one row, and a group of
    [perElement] pixels never wraps from one row to the next. *)
Theorem padBuffer_rectangle (buffer : list jsval) (perElement channels : nat) :
  (0 < perElement)%nat -> (0 < channels)%nat ->
  (length buffer mod channels = 0)%nat -> (0 < length buffer)%nat ->
  exists width height,
    padBuffer_res buffer perElement channels = (width, Some height)
    /\ (0 < width)%nat /\ (width mod perElement = 0)%nat
    /\ length (padBuffer buffer perElement channels) = (channels * width * height)%nat
    /\ (exists pad,
          padBuffer buffer perElement channels = buffer ++ replicate pad (Int (-1))
          /\ (pad < channels * width)%nat)
    /\ (forall q r, (r < perElement)%nat ->
          ((perElement * q + r) / width = (perElement * q) / width)%nat).
Proof.
  intros Hp Hc Hdiv Hne.
  set (n := (length buffer / channels)%nat).
  assert (Hlen : length buffer = (channels * n)%nat).
  { pose proof (Nat.div_mod_eq (length buffer) channels). unfold n. lia. }
  assert (Hn : (0 < n)%nat) by nia.
  set (m := ceil_div (ceil_sqrt n) perElement).
  set (w := (m * perElement)%nat).
  set (h := ceil_div n w).
  pose proof (ceil_div_spec (ceil_sqrt n) perElement Hp) as Hm. fold m in Hm.
  pose proof (ceil_sqrt_pos n Hn) as Hs.
  assert (Hw : (0 < w)%nat) by (unfold w; lia).
  pose proof (ceil_div_spec n w Hw) as Hh. fold h in Hh.
  exists w, h. unfold padBuffer_res, padBuffer. fold n. fold m. fold w. fold h.
  split.
  { replace (w =? 0)%nat with false; [reflexivity|].
    symmetry. apply Nat.eqb_neq. lia. }
  split; [exact Hw|]. split.
  { unfold w. apply Nat.Div0.mod_mul. }
  split.
  { rewrite length_app, length_replicate. nia. }
  split.
  { eexists. split; [reflexivity|]. nia. }
  intros q r Hr. unfold w.
  rewrite (Nat.mul_comm m perElement), <- !Nat.Div0.div_div.
  f_equal.
  rewrite (Nat.mul_comm perElement q), Nat.div_add_l by lia.
  rewrite Nat.div_small by lia. rewrite Nat.div_mul by lia. lia.
Qed.

Lemma padBuffer_rectangle_witness :
  let buffer := replicate 45 (Int 7) in
  exists width height,
    padBuffer_res buffer 3 3 = (width, Some height)
    /\ (0 < width)%nat /\ (width mod 3 = 0)%nat
    /\ length (padBuffer buffer 3 3) = (3 * width * height)%nat
    /\ (exists pad,
          padBuffer buffer 3 3 = buffer ++ replicate pad (Int (-1))
          /\ (pad < 3 * width)%nat)
    /\ (forall q r, (r < 3)%nat -> ((3 * q + r) / width = (3 * q) / width)%nat).
Proof.
  intros buffer.
  apply (padBuffer_rectangle buffer 3 3); [lia | lia | reflexivity | simpl; lia].
Defined.

(** X15: with no number to pad, [padBuffer] adds nothing and reports a
    width of 0 and a height that is not a number. *)
Theorem padBuffer_empty (perElement channels : nat) :
  (0 < perElement)%nat ->
  padBuffer [] perElement channels = []
  /\ padBuffer_res [] perElement channels = (0%nat, None).
Proof.
  intros Hp. unfold padBuffer, padBuffer_res. simpl length.
  rewrite Nat.Div0.div_0_l.
  assert (E : ceil_div (ceil_sqrt 0) perElement = 0%nat).
  { change (ceil_sqrt 0) with 0%nat. unfold ceil_div. apply Nat.div_small. lia. }
  rewrite E. simpl. rewrite !Nat.mul_0_r. split; reflexivity.
Qed.

Lemma padBuffer_empty_witness :
  padBuffer [] 3 3 = [] /\ padBuffer_res [] 3 3 = (0%nat, None).
Proof. apply (padBuffer_empty 3 3). lia. Defined.

(** *** The light buffer *)

Lemma ninth_mul (c : nat) : ninth (9 * c) = Int (Z.of_nat c).
Proof.
  unfold ninth. rewrite (Nat.mul_comm 9 c), Nat.Div0.mod_mul, Nat.div_mul by lia.
  reflexivity.
Qed.

Lemma lightLoop_ranges (lights : list (list Triangle)) :
  forall (rs : list jsval) (buf : list float) (c : nat),
    length buf = (9 * c)%nat ->
    lightLoop lights (rs, buf)
    = (rs ++ rangesFrom c lights, buf ++ concat (vertsOf <$> concat lights)).
Proof.
  unfold lightLoop.
  induction lights as [|g lights IH]; intros rs buf c Hc.
  - simpl. rewrite !app_nil_r. reflexivity.
  - cbn [foldl]. rewrite foldl_push.
    assert (Hc' : length (buf ++ concat (vertsOf <$> g)) = (9 * (c + length g))%nat).
    { rewrite length_app, length_concat_vertsOf. lia. }
    rewrite (IH _ _ _ Hc'). rewrite Hc, Hc', !ninth_mul.
    cbn [rangesFrom concat pred_num]. rewrite fmap_app, concat_app.
    rewrite <- !app_assoc. cbn [app]. do 4 f_equal. f_equal. lia.
Qed.

Lemma length_rangesFrom (lights : list (list Triangle)) :
  forall c, length (rangesFrom c lights) = (2 * length lights)%nat.
Proof.
  induction lights as [|g lights IH]; intros c; [reflexivity|].
  cbn [rangesFrom length]. rewrite IH. lia.
Qed.

(** X16: the light loop gives every group of emissive triangles the range
    of triangle ordinals it occupies in [lightBuffer]: the first range
    starts at 0, each next one right after the previous, and a group of
    [n] triangles starting at [b] gets [b] and [b + n - 1] (so an empty
    group gets a last ordinal below its first).  [lightBuffer] holds nine
    numbers per triangle, group after group. *)
Theorem lightLoop_contiguous (lights : list (list Triangle)) :
  lightLoop lights ([], [])
  = (rangesFrom 0 lights, concat (vertsOf <$> concat lights))
  /\ length (lightLoop lights ([], [])).1 = (2 * length lights)%nat
  /\ length (lightLoop lights ([], [])).2 = (9 * length (concat lights))%nat.
Proof.
  pose proof (lightLoop_ranges lights [] [] 0%nat eq_refl) as E.
  simpl in E. rewrite E. split; [reflexivity|]. cbn [fst snd]. split.
  - apply length_rangesFrom.
  - apply length_concat_vertsOf.
Qed.

(** *** More on the autofocus ray *)

Lemma rayTriangleIntersect_range (eye dir : vec3) (tri : Triangle) :
  rayTriangleIntersect eye dir tri = maxT
  \/ (epsilon <? rayTriangleIntersect eye dir tri)%float = true.
Proof.
  rewrite rayTriangleIntersect_unfold.
  destruct (_ && _)%bool; [left; reflexivity|].
  destruct (_ || _)%bool; [left; reflexivity|].
  destruct (_ || _)%bool; [left; reflexivity|].
  destruct (epsilon <? mt_t eye dir tri)%float eqn:E; [right; exact E|left; reflexivity].
Qed.

Lemma leaf_scan (eye dir : vec3) (tris : list Triangle) :
  forall res0 : float,
    let r := foldl (fun res tri =>
                      let tmp := rayTriangleIntersect eye dir tri in
                      if (tmp <? res)%float then tmp else res) res0 tris in
    (r = res0
     \/ exists t, t ∈ tris /\ r = rayTriangleIntersect eye dir t
                  /\ (r <? res0)%float = true)
    /\ Forall (fun t => (rayTriangleIntersect eye dir t <? r)%float = false) tris
    /\ (forall x, (x <? r)%float = true -> (x <? res0)%float = true).
Proof.
  induction tris as [|t tris IH]; intros res0; cbn [foldl].
  - split; [left; reflexivity|]. split; [constructor|auto].
  - cbv zeta in IH.
    set (res1 := if (rayTriangleIntersect eye dir t <? res0)%float
                 then rayTriangleIntersect eye dir t else res0).
    destruct (IH res1) as (A & B & C).
    set (r := foldl _ res1 tris) in *.
    assert (D : forall x, (x <? res1)%float = true -> (x <? res0)%float = true).
    { intros x Hx. unfold res1 in Hx.
      destruct (rayTriangleIntersect eye dir t <? res0)%float eqn:E; [|exact Hx].
      exact (ltb_trans _ _ _ Hx E). }
    split; [|split].
    + destruct A as [A|(t' & Hin & Ht' & Hlt)].
      * unfold res1 in A.
        destruct (rayTriangleIntersect eye dir t <? res0)%float eqn:E.
        -- right. exists t. split; [left|]. split; [exact A|]. rewrite A. exact E.
        -- left. exact A.
      * right. exists t'. split; [right; exact Hin|]. split; [exact Ht'|auto].
    + constructor; [|exact B].
      destruct (rayTriangleIntersect eye dir t <? r)%float eqn:E; [|reflexivity].
      apply C in E. unfold res1 in E.
      destruct (rayTriangleIntersect eye dir t <? res0)%float eqn:E0.
      * rewrite ltb_irrefl in E. discriminate.
      * congruence.
    + intros x Hx. auto.
Qed.

Lemma processLeaf_scan (eye dir : vec3) (triangles : list Triangle)
    (ix : indices3) (d : float) :
  processLeaf eye dir triangles ix = Ok d ->
  (d = maxT
   \/ exists t, t ∈ trianglesOf triangles (axis_get Ax0 ix)
                /\ d = rayTriangleIntersect eye dir t
                /\ (d <? maxT)%float = true)
  /\ Forall (fun t => (rayTriangleIntersect eye dir t <? d)%float = false)
            (trianglesOf triangles (axis_get Ax0 ix)).
Proof.
  unfold processLeaf, getTriangles.
  destruct (mapM defined _) as [tris|] eqn:E; simpl; [|discriminate].
  intros [= <-]. apply mapM_defined_omap in E. subst tris.
  destruct (leaf_scan eye dir (trianglesOf triangles (axis_get Ax0 ix)) maxT)
    as (A & B & _).
  split; assumption.
Qed.

(** X17: [processLeaf] returns the least distance the ray/triangle test
    reports in the leaf: no triangle of the leaf is nearer than the
    result, and the result is either the sentinel [maxT] or the distance
    of one of the leaf's triangles, below [maxT].  It is always above
    [epsilon]. *)
Theorem processLeaf_least (eye dir : vec3) (triangles : list Triangle)
    (ix : indices3) (d : float) :
  processLeaf eye dir triangles ix = Ok d ->
  (d = maxT
   \/ exists t, t ∈ trianglesOf triangles (axis_get Ax0 ix)
                /\ d = rayTriangleIntersect eye dir t
                /\ (d <? maxT)%float = true)
  /\ Forall (fun t => (rayTriangleIntersect eye dir t <? d)%float = false)
            (trianglesOf triangles (axis_get Ax0 ix))
  /\ (epsilon <? d)%float = true.
Proof.
  intros H. destruct (processLeaf_scan eye dir triangles ix d H) as [A B].
  split; [exact A|]. split; [exact B|].
  destruct A as [->|(t & _ & Ht & Hlt)]; [reflexivity|].
  destruct (rayTriangleIntersect_range eye dir t) as [E|E].
  - rewrite Ht, E in Hlt. discriminate.
  - rewrite Ht. exact E.
Qed.

Lemma processLeaf_least_witness :
  let T := newTriangle (0, 0, 0)%float (1, 0, 0)%float (0, 1, 0)%float in
  let U := newTriangle (0, 0, 2)%float (1, 0, 2)%float (0, 1, 2)%float in
  let ix : indices3 := ([Some 1; Some 0], [Some 1; Some 0], [Some 1; Some 0])%nat in
  let eye := (0.25, 0.25, -1)%float in
  let dir := (0, 0, 1)%float in
  (1%float = maxT
   \/ exists t, t ∈ trianglesOf [T; U] (axis_get Ax0 ix)
                /\ 1%float = rayTriangleIntersect eye dir t
                /\ (1 <? maxT)%float = true)
  /\ Forall (fun t => (rayTriangleIntersect eye dir t <? 1)%float = false)
            (trianglesOf [T; U] (axis_get Ax0 ix))
  /\ (epsilon <? 1)%float = true.
Proof.
  intros T U ix eye dir.
  apply (processLeaf_least eye dir [T; U] ix 1%float).
  vm_compute. reflexivity.
Defined.

Lemma is_hit_not_nan (eye dir : vec3) (triangles : list Triangle) (root : Node)
    (d : float) :
  is_hit eye dir triangles root d -> PrimFloat.is_nan d = false.
Proof. intros (t & _ & _ & H). apply ltb_not_nan in H. tauto. Qed.

Lemma is_hit_child (eye dir : vec3) (triangles : list Triangle)
    (box : BoundingBox) (a : axis) (k : nat) (l r : Node) (left : bool) (d : float) :
  is_hit eye dir triangles (if left then l else r) d ->
  is_hit eye dir triangles (Inner box a k l r) d.
Proof.
  intros (t & Hin & Ht & Hlt). exists t. split; [|split; assumption].
  unfold trianglesOf in *. cbn [leafRefs]. rewrite omap_app. apply elem_of_app.
  destruct left; [left|right]; exact Hin.
Qed.

Lemma findTriangles_cases (eye dir : vec3) (triangles : list Triangle) (root : Node) :
  forall closest d,
    PrimFloat.is_nan closest = false ->
    findTriangles eye dir triangles root closest = Ok d ->
    d = closest \/ d = maxT \/ is_hit eye dir triangles root d.
Proof.
  induction root as [box ix split | box a k l IHl r IHr]; intros closest d Hc H.
  - cbn [findTriangles] in H. apply processLeaf_scan in H as [[->|Hh] _].
    + right. left. reflexivity.
    + right. right. exact Hh.
  - cbn [findTriangles] in H.
    assert (Hv : forall (o : ordered) c c',
      PrimFloat.is_nan c = false ->
      (if o_node o && (o_t o <? c)%float
       then res ← findTriangles eye dir triangles (if o_left o then l else r) c;
            Ok (Math_min res c)
       else Ok c) = Ok c' ->
      (c' = c \/ c' = maxT \/ is_hit eye dir triangles (Inner box a k l r) c')
      /\ PrimFloat.is_nan c' = false).
    { intros o c c' Hn Hvis.
      destruct (o_node o && (o_t o <? c)%float).
      2:{ injection Hvis as <-. auto. }
      destruct (findTriangles eye dir triangles (if o_left o then l else r) c)
        as [res|] eqn:Er; simpl in Hvis; [|discriminate].
      injection Hvis as <-.
      assert (Hres : res = c \/ res = maxT
                     \/ is_hit eye dir triangles (if o_left o then l else r) res).
      { destruct (o_left o); [apply IHl | apply IHr]; assumption. }
      assert (Hrn : PrimFloat.is_nan res = false).
      { destruct Hres as [->|[->|Hh]]; [assumption|reflexivity|].
        eapply is_hit_not_nan; eauto. }
      destruct (Math_min_spec res c Hrn Hn) as ([->| ->] & _ & _).
      - split; [|assumption].
        destruct Hres as [->|[->|Hh]]; auto.
        right. right. eapply is_hit_child; eauto.
      - auto. }
    destruct (closestNode eye dir l r) as [o0 o1].
    match type of H with
    | (mbind _ ?v = _) => destruct v as [c1|] eqn:E1; simpl in H; [|discriminate]
    end.
    destruct (Hv o0 closest c1 Hc E1) as [H1 Hn1].
    destruct (Hv o1 c1 d Hn1 H) as [H2 _].
    destruct H2 as [->|[->|Hh]]; auto.
Qed.



(** A hit the traversal does not report.  Four unit squares (eight
    triangles) tile the floor [[-1,1] x [-1,1]] at height 0; the camera
    is the default one, at [(0, 0, 2)] looking down [(0, 0, -1)].  The
    ray/triangle test gives distance 2 for six of the triangles, but the
    boxes of both children of the root have a face in a plane through the
    eye: the slab entry [(0 - 0) * (1 / 0)] is NaN, [rayBoxIntersect]
    returns the sentinel for both, no leaf is visited and the cast
    reports [maxT]. *)
Lemma autofocus_floor_not_reported :
  let q := fun (x y : float) =>
    [newTriangle (x, y, 0)%float (x + 1, y, 0)%float (x + 1, y + 1, 0)%float;
     newTriangle (x, y, 0)%float (x + 1, y + 1, 0)%float (x, y + 1, 0)%float] in
  let floor := (q (-1) (-1) ++ q 0 (-1) ++ q (-1) 0 ++ q 0 0)%float in
  let eye := (0, 0, 2)%float in
  let dir := (0, 0, -1)%float in
  length (List.filter (fun t => (rayTriangleIntersect eye dir t <? maxT)%float) floor)
    = 6%nat
  /\ Forall (fun t => rayTriangleIntersect eye dir t = maxT
                      \/ rayTriangleIntersect eye dir t = 2%float) floor
  /\ match newBVH 4 floor 4 with
     | Ok root =>
         findTriangles eye dir floor root maxT = Ok maxT
         /\ match root with
            | Inner _ _ _ l r =>
                rayBoxIntersect eye dir (node_box l) = maxT
                /\ rayBoxIntersect eye dir (node_box r) = maxT
            | Leaf _ _ _ => False
            end
     | Throw _ => False
     end.
Proof.
  vm_compute. split; [reflexivity|]. split.
  - repeat constructor; (left; reflexivity) || (right; reflexivity).
  - repeat split; reflexivity.
Qed.

(** X18: on a tree whose references are valid the autofocus traversal
    started at the sentinel returns a distance that is either the sentinel
    [maxT] itself or the distance the ray/triangle test reports for one of
    the triangles in the leaves; in both cases it lies above [epsilon] and
    does not exceed [maxT], so it is never NaN, zero or negative. *)
Theorem findTriangles_distance (eye dir : vec3) (triangles : list Triangle)
    (root : Node) :
  valid_tree triangles root ->
  exists d,
    findTriangles eye dir triangles root maxT = Ok d
    /\ (d = maxT \/ is_hit eye dir triangles root d)
    /\ (epsilon <? d)%float = true /\ (d <=? maxT)%float = true.
Proof.
  intros Hv. destruct (findTriangles_total eye dir triangles root Hv maxT) as [d Hd].
  exists d. split; [exact Hd|].
  pose proof (findTriangles_cases eye dir triangles root maxT d eq_refl Hd) as C.
  assert (C' : d = maxT \/ is_hit eye dir triangles root d) by tauto.
  split; [exact C'|].
  destruct C' as [->|(t & _ & Ht & Hlt)]; [split; reflexivity|].
  split; [|apply leb_of_ltb; exact Hlt].
  destruct (rayTriangleIntersect_range eye dir t) as [E|E].
  - rewrite Ht, E in Hlt. discriminate.
  - rewrite Ht. exact E.
Qed.

Lemma findTriangles_distance_witness :
  let T := newTriangle (0, 0, 0)%float (1, 0, 0)%float (0, 1, 0)%float in
  let root := Leaf (boundingBox T) ([Some 0%nat], [Some 0%nat], [Some 0%nat])
                   (Some (Ax0, 1%nat)) in
  exists d,
    findTriangles (0.25, 0.25, -1)%float (0, 0, 1)%float [T] root maxT = Ok d
    /\ (d = maxT \/ is_hit (0.25, 0.25, -1)%float (0, 0, 1)%float [T] root d)
    /\ (epsilon <? d)%float = true /\ (d <=? maxT)%float = true.
Proof.
  intros T root.
  apply (findTriangles_distance (0.25, 0.25, -1)%float (0, 0, 1)%float [T] root).
  repeat constructor. exists T. reflexivity.
Defined.

(** *** More on the render loop *)

Lemma rem2_cases (p : Z) :
  0 <= p ->
  (Z.rem p 2 = 0 /\ Z.rem (p + 1) 2 = 1) \/ (Z.rem p 2 = 1 /\ Z.rem (p + 1) 2 = 0).
Proof.
  intros Hp. rewrite !Z.rem_mod_nonneg by lia.
  pose proof (Z.mod_pos_bound p 2 ltac:(lia)).
  pose proof (Z.mod_pos_bound (p + 1) 2 ltac:(lia)).
  pose proof (Z.div_mod p 2 ltac:(lia)).
  pose proof (Z.div_mod (p + 1) 2 ltac:(lia)).
  lia.
Qed.

Lemma tick_sample_gl (frame m : Z) (s : state) :
  sampleInput s = Some m -> active s = true -> dirty s = false ->
  1 <= m -> 0 <= pingpong s <= m ->
  accumulating s ->
  let s' := (tick frame s).1 in
  accumulating s'
  /\ textures_screen (Z.rem (pingpong s) 2) (gl s')
     = samples (S (Z.to_nat (pingpong s)))
  /\ canvas (gl s') = Shown (samples (Z.to_nat (pingpong s)))
  /\ camera (gl s') = Rays.
Proof.
  destruct s as [p d mv a rs mx so [bd sc cam cv] cs]. unfold accumulating; simpl.
  intros -> -> -> Hm1 Hp [Hlen Hacc].
  destruct sc as [|x [|y [|? ?]]]; try discriminate. clear Hlen.
  unfold tick; simpl.
  assert (Hm : (m =? 0) = false) by (apply Z.eqb_neq; lia).
  assert (Hle : (p <=? m) = true) by (apply Z.leb_le; lia).
  rewrite Hm, Hle; simpl.
  assert (E2 : Z.rem (p + 1 + 1) 2 = Z.rem p 2).
  { rewrite !Z.rem_mod_nonneg by lia.
    replace (p + 1 + 1) with (p + 1 * 2) by lia. apply Z.mod_add. lia. }
  assert (ES : Z.to_nat (p + 1) = S (Z.to_nat p)) by lia.
  destruct (m <=? p + 1); destruct (0 <=? frame); simpl;
    rewrite E2, ES;
    destruct (rem2_cases p ltac:(lia)) as [[E0 E1]|[E0 E1]];
    rewrite E0, E1 in *; unfold textures_screen in *; simpl in *;
    subst; repeat split; try reflexivity; f_equal; lia.
Qed.

(** X19: a sampling tick (budget [max >= 1], [active], not dirty,
    [pingpong <= max]) on intact accumulation targets runs the camera,
    tracer and quad passes, leaves in the target it wrote the new sample
    on top of all earlier ones, and presents on the canvas the target the
    tracer read: the accumulation before this tick's sample.  The targets
    stay intact for the next tick. *)
Theorem tick_accumulates (frame max : Z) (s : state) :
  sampleInput s = Some max -> active s = true -> dirty s = false ->
  1 <= max -> 0 <= pingpong s <= max ->
  accumulating s ->
  let s' := (tick frame s).1 in
  accumulating s'
  /\ pingpong s' = pingpong s + 1
  /\ textures_screen (Z.rem (pingpong s) 2) (gl s')
     = samples (S (Z.to_nat (pingpong s)))
  /\ canvas (gl s') = Shown (samples (Z.to_nat (pingpong s)))
  /\ tracer_calls s' = S (tracer_calls s).
Proof.
  intros Hm Ha Hd Hm1 Hp Hacc.
  destruct (tick_sample_gl frame max s Hm Ha Hd Hm1 Hp Hacc) as (A & B & C & _).
  destruct (tick_sample frame max s Hm Ha Hd Hm1 Hp) as (_ & P & _ & _ & _ & Hc).
  cbv zeta in *. repeat split; try assumption; try apply A.
  unfold tracer_calls. rewrite Hc, List.filter_app, length_app.
  destruct (negb _ || negb _)%bool; simpl; lia.
Qed.

Lemma tick_accumulates_witness :
  let s := (run 2 0 (start_state (Some 5) false)).1 in
  let s' := (tick 0 s).1 in
  accumulating s'
  /\ pingpong s' = pingpong s + 1
  /\ textures_screen (Z.rem (pingpong s) 2) (gl s')
     = samples (S (Z.to_nat (pingpong s)))
  /\ canvas (gl s') = Shown (samples (Z.to_nat (pingpong s)))
  /\ tracer_calls s' = S (tracer_calls s).
Proof.
  apply (tick_accumulates 0 5 (run 2 0 (start_state (Some 5) false)).1).
  - reflexivity.
  - reflexivity.
  - reflexivity.
  - lia.
  - vm_compute. split; discriminate.
  - split; reflexivity.
Defined.

Lemma run_accumulates (frame m : Z) (k : nat) :
  0 <= frame ->
  forall (s : state) (n : nat),
    sampleInput s = Some m -> active s = true -> dirty s = false ->
    0 <= pingpong s -> m - pingpong s = Z.of_nat (S k) -> (S k <= n)%nat ->
    accumulating s ->
    let r := run n frame s in
    textures_screen (Z.rem (m - 1) 2) (gl r.1) = samples (Z.to_nat m)
    /\ canvas (gl r.1) = Shown (samples (Z.to_nat (m - 1))).
Proof.
  intros Hf. induction k as [|k IH]; intros s n Hm Ha Hd Hp Hk Hn Hacc.
  - destruct n as [|n]; [lia|]. simpl.
    destruct (tick_sample frame m s Hm Ha Hd ltac:(lia) ltac:(lia))
      as (Hag & _).
    destruct (tick_sample_gl frame m s Hm Ha Hd ltac:(lia) ltac:(lia) Hacc)
      as (_ & B & C & _).
    destruct (tick frame s) as [s' again]; simpl in *.
    assert (Hx : (m <=? pingpong s + 1) = true) by (apply Z.leb_le; lia).
    assert (Hy : (0 <=? frame) = true) by (apply Z.leb_le; lia).
    rewrite Hx, Hy in Hag; simpl in *. subst again. simpl.
    replace (m - 1) with (pingpong s) by lia.
    replace (Z.to_nat m) with (S (Z.to_nat (pingpong s))) by lia.
    split; assumption.
  - destruct n as [|n]; [lia|].
    destruct (tick_sample frame m s Hm Ha Hd ltac:(lia) ltac:(lia))
      as (Hag & Hpp & Hm' & Ha' & Hd' & _).
    destruct (tick_sample_gl frame m s Hm Ha Hd ltac:(lia) ltac:(lia) Hacc)
      as (A & _).
    change (run (S n) frame s)
      with (let '(s', again) := tick frame s in
            if again then run n frame s' else (s', true)).
    destruct (tick frame s) as [s' again]; simpl in Hag, Hpp, Hm', Ha', Hd', A.
    assert (Hx : (m <=? pingpong s + 1) = false) by (apply Z.leb_gt; lia).
    rewrite Hx in Hag; simpl in Hag. subst again.
    exact (IH s' n Hm' Ha' Hd' ltac:(lia) ltac:(lia) ltac:(lia) A).
Qed.

(** X20: started on fresh targets with a budget [max >= 1] and a frame
    number, the loop ends with the upload; at that moment the accumulation
    target written last holds all [max] samples, while the canvas, which
    is what gets uploaded, shows the accumulation of [max - 1] samples
    (for [max = 1], the cleared texture). *)
Theorem upload_shows_previous_sample (frame max : Z) (n : nat) :
  0 <= frame -> 1 <= max -> (Z.to_nat max <= n)%nat ->
  let r := run n frame (start_state (Some max) false) in
  r.2 = true
  /\ pingpong r.1 = max
  /\ textures_screen (Z.rem (max - 1) 2) (gl r.1) = samples (Z.to_nat max)
  /\ canvas (gl r.1) = Shown (samples (Z.to_nat (max - 1))).
Proof.
  intros Hf Hm Hn.
  assert (Hacc : accumulating (start_state (Some max) false)) by (split; reflexivity).
  destruct (run_budget frame max (Z.to_nat max - 1) Hf
              (start_state (Some max) false) n eq_refl eq_refl eq_refl
              ltac:(simpl; lia) ltac:(simpl; lia) ltac:(lia)) as (R1 & R2 & _).
  destruct (run_accumulates frame max (Z.to_nat max - 1) Hf
              (start_state (Some max) false) n eq_refl eq_refl eq_refl
              ltac:(simpl; lia) ltac:(simpl; lia) ltac:(lia) Hacc) as (G1 & G2).
  cbv zeta in *. repeat split; assumption.
Qed.

Lemma upload_shows_previous_sample_witness :
  let r := run 3 0 (start_state (Some 1) false) in
  r.2 = true
  /\ pingpong r.1 = 1
  /\ textures_screen (Z.rem (1 - 1) 2) (gl r.1) = samples (Z.to_nat 1)
  /\ canvas (gl r.1) = Shown (samples (Z.to_nat (1 - 1))).
Proof.
  apply (upload_shows_previous_sample 0 1 3); [lia | lia | simpl; lia].
Defined.

(** X21: a tick does not trace when the budget is not a number or zero,
    when the tracer is inactive, or when the counter is past the budget:
    it only redraws the quad (and clears when dirty).  With a budget that
    is not a number it then never uploads; with a budget of zero and a
    frame number it uploads at once, without a single sample. *)
Theorem tick_without_sampling (frame : Z) (s : state) :
  truthy_num (sampleInput s) && le_num (pingpong s) (sampleInput s) && active s = false ->
  let r := tick frame s in
  tracer_calls r.1 = tracer_calls s
  /\ pingpong r.1 = (if dirty s then 0 else pingpong s)
  /\ dirty r.1 = false
  /\ (sampleInput s = None -> r.2 = true)
  /\ (sampleInput s = Some 0 -> 0 <= frame -> 0 <= pingpong s \/ dirty s = true ->
      r.2 = false).
Proof.
  destruct s as [p d mv a rs mx so g cs]; simpl. intros Hc.
  unfold tick, tracer_calls; simpl. rewrite Hc.
  destruct d; simpl.
  - split.
    { destruct (ge_num 0 mx && (0 <=? frame)); simpl;
        rewrite !List.filter_app, !length_app; simpl; lia. }
    split; [destruct (ge_num 0 mx && (0 <=? frame)); reflexivity|].
    split; [destruct (ge_num 0 mx && (0 <=? frame)); reflexivity|].
    split.
    + intros ->. reflexivity.
    + intros -> Hf _. simpl.
      replace (0 <=? frame) with true by (symmetry; apply Z.leb_le; lia).
      reflexivity.
  - split.
    { destruct (ge_num p mx && (0 <=? frame)); simpl;
        rewrite !List.filter_app, !length_app; simpl; lia. }
    split; [destruct (ge_num p mx && (0 <=? frame)); reflexivity|].
    split; [destruct (ge_num p mx && (0 <=? frame)); reflexivity|].
    split.
    + intros ->. reflexivity.
    + intros -> Hf [Hp|Hd]; [|discriminate]. simpl.
      replace (0 <=? p) with true by (symmetry; apply Z.leb_le; lia).
      replace (0 <=? frame) with true by (symmetry; apply Z.leb_le; lia).
      reflexivity.
Qed.

Lemma tick_without_sampling_witness :
  let s := start_state (Some 0) true in
  let r := tick 7 s in
  tracer_calls r.1 = tracer_calls s
  /\ pingpong r.1 = (if dirty s then 0 else pingpong s)
  /\ dirty r.1 = false
  /\ (sampleInput s = None -> r.2 = true)
  /\ (sampleInput s = Some 0 -> 0 <= 7 -> 0 <= pingpong s \/ dirty s = true ->
      r.2 = false).
Proof.
  apply (tick_without_sampling 7 (start_state (Some 0) true)). reflexivity.
Defined.

Lemma tick_interactive (frame m : Z) (s : state) :
  frame < 0 -> 1 <= m ->
  sampleInput s = Some m -> active s = true -> dirty s = false ->
  0 <= pingpong s ->
  let r := tick frame s in
  r.2 = true
  /\ sampleInput r.1 = Some m /\ active r.1 = true /\ dirty r.1 = false
  /\ (pingpong s <= m ->
      pingpong r.1 = pingpong s + 1 /\ sampleOutput r.1 = pingpong s
      /\ tracer_calls r.1 = S (tracer_calls s))
  /\ (m < pingpong s ->
      pingpong r.1 = pingpong s /\ sampleOutput r.1 = sampleOutput s
      /\ tracer_calls r.1 = tracer_calls s).
Proof.
  destruct s as [p d mv a rs mx so g cs]; simpl.
  intros Hf Hm1 -> -> -> Hp.
  unfold tick, tracer_calls; simpl.
  assert (Hm : (m =? 0) = false) by (apply Z.eqb_neq; lia).
  assert (Hfr : (0 <=? frame) = false) by (apply Z.leb_gt; lia).
  rewrite Hm, Hfr; simpl.
  destruct (p <=? m) eqn:E; simpl; rewrite ?andb_false_r; simpl;
    [apply Z.leb_le in E | apply Z.leb_gt in E];
    repeat split; try reflexivity; try lia;
    rewrite !List.filter_app, !length_app; simpl; lia.
Qed.

Lemma run_interactive_from (frame m : Z) :
  frame < 0 -> 1 <= m ->
  forall (n : nat) (s : state),
    sampleInput s = Some m -> active s = true -> dirty s = false ->
    0 <= pingpong s <= m + 1 ->
    let r := run n frame s in
    r.2 = false
    /\ pingpong r.1 = Z.min (pingpong s + Z.of_nat n) (m + 1)
    /\ tracer_calls r.1
       = (tracer_calls s + Z.to_nat (pingpong r.1 - pingpong s))%nat
    /\ (pingpong s <= m -> m < pingpong s + Z.of_nat n -> sampleOutput r.1 = m)
    /\ (m < pingpong s -> sampleOutput r.1 = sampleOutput s).
Proof.
  intros Hf Hm1. induction n as [|n IH]; intros s Hm Ha Hd Hp.
  - simpl. rewrite Z.sub_diag. simpl. repeat split; lia.
  - destruct (tick_interactive frame m s Hf Hm1 Hm Ha Hd ltac:(lia))
      as (Hag & Hm' & Ha' & Hd' & Hs & Hi).
    change (run (S n) frame s)
      with (let '(s', again) := tick frame s in
            if again then run n frame s' else (s', true)).
    destruct (tick frame s) as [s' again]; simpl in Hag, Hm', Ha', Hd', Hs, Hi.
    subst again.
    destruct (decide (pingpong s <= m)) as [Hle|Hgt].
    + destruct (Hs Hle) as (P & O & T).
      destruct (IH s' Hm' Ha' Hd' ltac:(lia)) as (R1 & R2 & R3 & R4 & R5).
      cbv zeta in *. split; [exact R1|]. split; [lia|]. split; [lia|].
      split; [|lia]. intros _ Hlt.
      destruct (decide (pingpong s' <= m)) as [Hle'|Hgt'].
      * apply R4; lia.
      * rewrite R5 by lia. lia.
    + destruct (Hi ltac:(lia)) as (P & O & T).
      destruct (IH s' Hm' Ha' Hd' ltac:(lia)) as (R1 & R2 & R3 & R4 & R5).
      cbv zeta in *. split; [exact R1|]. split; [lia|]. split; [lia|].
      split; [lia|]. intros _. rewrite R5 by lia. exact O.
Qed.

(** X22: without a frame number (the interactive page) the loop never
    uploads.  Started on fresh targets with a budget [max >= 1] it traces
    on every tick until the counter reaches [max + 1], that is [max + 1]
    samples, one more than the budget; after that a tick only redraws the
    quad, and the sample display stays at [max]. *)
Theorem run_interactive (frame max : Z) (n : nat) :
  frame < 0 -> 1 <= max ->
  let r := run n frame (start_state (Some max) false) in
  r.2 = false
  /\ pingpong r.1 = Z.min (Z.of_nat n) (max + 1)
  /\ tracer_calls r.1 = Z.to_nat (Z.min (Z.of_nat n) (max + 1))
  /\ (max < Z.of_nat n -> sampleOutput r.1 = max).
Proof.
  intros Hf Hm.
  destruct (run_interactive_from frame max Hf Hm n (start_state (Some max) false)
              eq_refl eq_refl eq_refl ltac:(simpl; lia)) as (R1 & R2 & R3 & R4 & _).
  cbv zeta in *. simpl pingpong in R2, R3, R4. simpl in R2.
  split; [exact R1|]. split; [exact R2|]. split.
  - rewrite R3, R2. unfold tracer_calls. simpl. f_equal. lia.
  - intros H. apply R4; lia.
Qed.

Lemma run_interactive_witness :
  let r := run 9 (-1) (start_state (Some 5) false) in
  r.2 = false
  /\ pingpong r.1 = Z.min (Z.of_nat 9) (5 + 1)
  /\ tracer_calls r.1 = Z.to_nat (Z.min (Z.of_nat 9) (5 + 1))
  /\ (5 < Z.of_nat 9 -> sampleOutput r.1 = 5).
Proof.
  apply (run_interactive (-1) 5 9); lia.
Defined.

(** *** The input handlers *)

Lemma active_add (X U : gset string) (k : string) :
  X ⊆ U -> k ∈ U -> {[k]} ∪ X ⊆ U.
Proof.
  intros H Hk x Hx. apply elem_of_union in Hx as [Hx|Hx].
  - apply elem_of_singleton in Hx. subst x. exact Hk.
  - apply H. exact Hx.
Qed.

Lemma active_delete (X U : gset string) (k : string) :
  X ⊆ U -> X ∖ {[k]} ⊆ U.
Proof.
  intros H x Hx. apply elem_of_difference in Hx as [Hx _]. apply H. exact Hx.
Qed.

Lemma active_add_nonempty (X : gset string) (k : string) : {[k]} ∪ X ≠ ∅.
Proof.
  intros E. assert (Hk : k ∈ {[k]} ∪ X).
  { apply elem_of_union_l, elem_of_singleton. reflexivity. }
  rewrite E in Hk. exact (not_elem_of_empty k Hk).
Qed.

Lemma active_delete_nonempty (X : gset string) (k : string) :
  X ∖ {[k]} ≠ ∅ -> X ≠ ∅.
Proof.
  intros H E. apply H. apply leibniz_equiv. intros x. split; intros Hx.
  - apply elem_of_difference in Hx as [Hx _]. rewrite E in Hx. exact Hx.
  - exfalso. exact (not_elem_of_empty x Hx).
Qed.

Lemma handle_invariant (s : Events.input) (e : Events.event) :
  (Events.moving s = true <-> Events.activeEvents s ≠ ∅) ->
  Events.activeEvents s ⊆ Events.keySet ∪ {["mouse"]} ->
  let s' := Events.handle s e in
  (Events.moving s' = true <-> Events.activeEvents s' ≠ ∅)
  /\ Events.activeEvents s' ⊆ Events.keySet ∪ {["mouse"]}
  /\ Events.isFramed s' = Events.isFramed s
  /\ (Events.isFramed s = false -> Events.active s = true -> Events.active s' = true)
  /\ (Events.dirty s = true -> Events.dirty s' = true)
  /\ Events.casts s' = (Events.casts s + if casts_autofocus e then 1 else 0)%nat.
Proof.
  intros Hm Hsub.
  assert (Hsize : forall X : gset string,
            (if bool_decide (base.size X = 0%nat) then false else Events.moving s) = true
            <-> (Events.moving s = true /\ X ≠ ∅)).
  { intros X. destruct (bool_decide_reflect (base.size X = 0%nat)) as [E|E].
    - apply size_empty_iff in E. split; [discriminate|]. intros [_ H].
      exfalso. apply H. apply leibniz_equiv. exact E.
    - split; [|tauto]. intros H. split; [exact H|]. intros ->.
      apply E. apply size_empty. }
  destruct s as [fr md X mv d a c].
  cbn [Events.moving Events.activeEvents Events.isFramed Events.active
       Events.dirty Events.casts] in *.
  destruct e as [which| |which| | | | | | | | |key|key| |]; unfold Events.handle;
    set (K := Events.keySet) in *; clearbody K;
    try destruct (bool_decide_reflect (key ∈ K)) as [Hk|Hk];
    try destruct md;
    cbn [Events.moving Events.activeEvents Events.isFramed Events.active
         Events.dirty Events.casts Events.mode casts_autofocus];
    rewrite ?Hsize; clear Hsize;
    (split; [|split; [|split; [reflexivity|split; [|split; [|lia]]]]]);
    try assumption;
    try (intros; reflexivity);
    try (intros; assumption);
    try (intros ->; reflexivity);
    try (intros; destruct (bool_decide _); auto; fail).
  all: match goal with
       | |- {[?k]} ∪ _ ⊆ _ =>
           apply active_add; [exact Hsub|];
           first [apply elem_of_union_l; assumption
                 |apply elem_of_union_r, elem_of_singleton; reflexivity]
       | |- _ ∖ _ ⊆ _ => apply active_delete; exact Hsub
       | |- true = true <-> _ =>
           split; [intros _; apply active_add_nonempty | reflexivity]
       | |- _ /\ _ <-> _ =>
           split; [tauto|]; intros Hne; split; [|exact Hne];
           apply Hm; eapply active_delete_nonempty; exact Hne
       end.
Qed.

Lemma handlers_invariant (es : list Events.event) :
  forall s : Events.input,
    (Events.moving s = true <-> Events.activeEvents s ≠ ∅) ->
    Events.activeEvents s ⊆ Events.keySet ∪ {["mouse"]} ->
    let s' := foldl Events.handle s es in
    (Events.moving s' = true <-> Events.activeEvents s' ≠ ∅)
    /\ Events.activeEvents s' ⊆ Events.keySet ∪ {["mouse"]}
    /\ Events.isFramed s' = Events.isFramed s
    /\ (Events.isFramed s = false -> Events.active s = true -> Events.active s' = true)
    /\ (Events.dirty s = true -> Events.dirty s' = true)
    /\ Events.casts s'
       = (Events.casts s + length (List.filter casts_autofocus es))%nat.
Proof.
  induction es as [|e es IH]; intros s Hm Hsub; cbn [foldl].
  - cbv zeta. simpl. rewrite Nat.add_0_r. tauto.
  - destruct (handle_invariant s e Hm Hsub) as (M & S & F & A & D & C).
    destruct (IH _ M S) as (M' & S' & F' & A' & D' & C').
    cbv zeta in *. split; [exact M'|]. split; [exact S'|].
    split; [congruence|]. split; [|split].
    + intros Hf Ha. apply A'; [congruence|auto].
    + auto.
    + rewrite C', C. simpl. destruct (casts_autofocus e); simpl; lia.
Qed.

(** X23: whatever events arrive, [moving] is set exactly while some mouse
    drag or movement key is still held (recorded in [activeEvents], which
    only ever holds the six movement keys and the mouse); the listeners
    never clear [dirty]; a page that is not framed stays [active]; and the
    autofocus ray is cast once per mouse release and once per key press,
    bound key or not. *)
Theorem handlers_keep_flags_in_step (framed : bool) (es : list Events.event) :
  let s := foldl Events.handle (Events.init framed) es in
  (Events.moving s = true <-> Events.activeEvents s ≠ ∅)
  /\ Events.activeEvents s ⊆ Events.keySet ∪ {["mouse"]}
  /\ (framed = false -> Events.active s = true)
  /\ Events.casts s = length (List.filter casts_autofocus es)
  /\ (forall s0 e, Events.dirty s0 = true -> Events.dirty (Events.handle s0 e) = true).
Proof.
  destruct (handlers_invariant es (Events.init framed)) as (M & S & F & A & D & C).
  - simpl. split; [discriminate|]. intros H. exfalso. apply H. reflexivity.
  - simpl. apply empty_subseteq.
  - cbv zeta in *. split; [exact M|]. split; [exact S|]. split; [|split].
    + intros ->. apply A; reflexivity.
    + rewrite C. reflexivity.
    + intros s0 e H0.
      destruct s0 as [fr md X mv d a c]; simpl in H0; subst d.
      destruct e; simpl; try reflexivity;
        repeat match goal with
        | |- context [if ?b then _ else _] => destruct b; simpl
        end; reflexivity.
Qed.

(** *** The loop from page load *)

Lemma tracer_passes (k : nat) : forall p, length (List.filter is_tracer (passes k p)) = k.
Proof.
  induction k as [|k IH]; intros p; [reflexivity|].
  cbn [passes]. rewrite List.filter_app, length_app, IH.
  destruct (k =? 0)%nat; reflexivity.
Qed.

Lemma first_tick (frame max : Z) :
  1 <= max ->
  tick frame (start_state (Some max) true)
  = (State 0 false false true 1 (Some max) 0
           (GL Canvas [Zero; Zero] Rays Zero)
           [DrawCamera; DrawTracer 0; DrawQuad 1; Clear; RequestAnimationFrame],
     true).
Proof.
  intros Hm. unfold tick, start_state. simpl.
  assert (H0 : (max =? 0) = false) by (apply Z.eqb_neq; lia).
  assert (H1 : (0 <=? max) = true) by (apply Z.leb_le; lia).
  rewrite H0, H1. simpl.
  assert (H2 : (max <=? 0) = false) by (apply Z.leb_gt; lia).
  rewrite H2. reflexivity.
Qed.

(** X24: from page load ([dirty] is set initially) with a budget
    [max >= 1] and a frame number, the first tick traces a sample and then
    clears it away, resetting the counter; the targets are intact
    afterwards, so the loop uploads after [max + 1] ticks and [max + 1]
    tracer passes, with [max] samples in the accumulation target and
    [max - 1] on the canvas. *)
Theorem run_from_page_load (frame max : Z) (n : nat) :
  0 <= frame -> 1 <= max -> (S (Z.to_nat max) <= n)%nat ->
  let r := run n frame (start_state (Some max) true) in
  r.2 = true
  /\ pingpong r.1 = max
  /\ tracer_calls r.1 = S (Z.to_nat max)
  /\ textures_screen (Z.rem (max - 1) 2) (gl r.1) = samples (Z.to_nat max)
  /\ canvas (gl r.1) = Shown (samples (Z.to_nat (max - 1))).
Proof.
  intros Hf Hm Hn. destruct n as [|n]; [lia|].
  change (run (S n) frame (start_state (Some max) true))
    with (let '(s', again) := tick frame (start_state (Some max) true) in
          if again then run n frame s' else (s', true)).
  rewrite (first_tick frame max Hm).
  set (s1 := State 0 false false true 1 (Some max) 0
                   (GL Canvas [Zero; Zero] Rays Zero)
                   [DrawCamera; DrawTracer 0; DrawQuad 1; Clear; RequestAnimationFrame]).
  assert (Hacc : accumulating s1) by (split; reflexivity).
  destruct (run_budget frame max (Z.to_nat max - 1) Hf s1 n eq_refl eq_refl eq_refl
              ltac:(simpl; lia) ltac:(simpl; lia) ltac:(lia)) as (R1 & R2 & R3).
  destruct (run_accumulates frame max (Z.to_nat max - 1) Hf s1 n eq_refl eq_refl eq_refl
              ltac:(simpl; lia) ltac:(simpl; lia) ltac:(lia) Hacc) as (G1 & G2).
  cbv zeta in *. split; [exact R1|]. split; [exact R2|].
  split; [|split; assumption].
  unfold tracer_calls. rewrite R3, List.filter_app, length_app, tracer_passes.
  simpl. lia.
Qed.

Lemma run_from_page_load_witness :
  let r := run 4 0 (start_state (Some 2) true) in
  r.2 = true
  /\ pingpong r.1 = 2
  /\ tracer_calls r.1 = S (Z.to_nat 2)
  /\ textures_screen (Z.rem (2 - 1) 2) (gl r.1) = samples (Z.to_nat 2)
  /\ canvas (gl r.1) = Shown (samples (Z.to_nat (2 - 1))).
Proof.
  apply (run_from_page_load 0 2 4); [lia | lia | simpl; lia].
Defined.
